(** * update_stats.py: record extraction, collection and aggregation

    A shallow embedding of [scripts/update_stats.py].  Python [str] values
    are sequences of Unicode code points, so a string is a list of code
    points ([N]); the patterns handed to [re.search] and [re.findall] are
    regular-expression terms run by a backtracking matcher that lists its
    alternatives in the priority order of Python's [re] module. *)

From Stdlib Require Import String Ascii.
From Stdlib Require Import List NArith ZArith QArith Bool Arith Lia.
From Stdlib Require Import Permutation Sorted.
Import ListNotations.

Set Implicit Arguments.

(** ** Text: Python [str] as a list of code points *)

Module Text.

Definition char := N.
Definition str := list char.

(** Source literals are written as UTF-8 text and decoded to code points. *)
Fixpoint utf8_decode (need : nat) (acc : N) (bs : list N) : str :=
  match bs with
  | [] => []
  | b :: t =>
      match need with
      | S n =>
          let acc' := (acc * 64 + b mod 64)%N in
          match n with
          | O => acc' :: utf8_decode 0 0%N t
          | S _ => utf8_decode n acc' t
          end
      | O =>
          if (b <? 128)%N then b :: utf8_decode 0 0%N t
          else if (b <? 224)%N then utf8_decode 1 (b mod 32)%N t
          else if (b <? 240)%N then utf8_decode 2 (b mod 16)%N t
          else utf8_decode 3 (b mod 8)%N t
      end
  end.

Definition u (s : string) : str :=
  utf8_decode 0 0%N (List.map N_of_ascii (list_ascii_of_string s)).

Fixpoint str_eqb (a b : str) : bool :=
  match a, b with
  | [], [] => true
  | x :: a', y :: b' => (x =? y)%N && str_eqb a' b'
  | _, _ => false
  end.

(** Python compares strings by code point, lexicographically. *)
Fixpoint str_leb (a b : str) : bool :=
  match a, b with
  | [], _ => true
  | _ :: _, [] => false
  | x :: a', y :: b' =>
      if (x <? y)%N then true
      else if (y <? x)%N then false
      else str_leb a' b'
  end.

(** [str.isspace] for one character (CPython's [_PyUnicode_IsWhitespace]). *)
Definition isspace (c : char) : bool :=
  ((9 <=? c) && (c <=? 13) || (28 <=? c) && (c <=? 32)
   || (c =? 133) || (c =? 160) || (c =? 5760)
   || (8192 <=? c) && (c <=? 8202)
   || (c =? 8232) || (c =? 8233) || (c =? 8239) || (c =? 8287)
   || (c =? 12288))%N.

Fixpoint lstrip (s : str) : str :=
  match s with
  | c :: t => if isspace c then lstrip t else s
  | [] => []
  end.

Definition rstrip (s : str) : str := rev (lstrip (rev s)).

(** [s.strip()] *)
Definition strip (s : str) : str := rstrip (lstrip s).

(** [s.replace(old, new)] for one-character [old] and [new]. *)
Definition replace (old new : char) (s : str) : str :=
  List.map (fun c => if (c =? old)%N then new else c) s.

Fixpoint startswith (p s : str) : bool :=
  match p, s with
  | [], _ => true
  | x :: p', y :: s' => (x =? y)%N && startswith p' s'
  | _ :: _, [] => false
  end.

Definition newline : char := 10%N.
Definition backtick : char := 96%N.
Definition backslash : char := 92%N.

End Text.
Import Text.

(** ** Re: the fragment of Python's [re] the script uses *)

Module Re.

(** Repetition is only ever applied to a character set in the script's
    patterns ([.+?], [.+], [.*], [[^`\\]+]), and no pattern has more than one
    capturing group. *)
Inductive regex : Type :=
| Eps
| Lit (c : char)
| Cls (p : char -> bool)
| Cat (r1 r2 : regex)
| Opt (r : regex)
| Star (p : char -> bool)
| Plus (p : char -> bool)
| PlusLazy (p : char -> bool)
| Group (r : regex).

Fixpoint lits (l : str) : regex :=
  match l with
  | [] => Eps
  | c :: t => Cat (Lit c) (lits t)
  end.

(** [.] without DOTALL: anything but a newline. *)
Definition dot (c : char) : bool := negb (c =? newline)%N.

(** Remainders after [p*], longest run first. *)
Fixpoint star_greedy (p : char -> bool) (s : str) : list str :=
  match s with
  | c :: t => if p c then star_greedy p t ++ [s] else [s]
  | [] => [[]]
  end.

(** Remainders after [p*?], shortest run first. *)
Fixpoint star_lazy (p : char -> bool) (s : str) : list str :=
  s :: match s with
       | c :: t => if p c then star_lazy p t else []
       | [] => []
       end.

Definition plus_with (star : (char -> bool) -> str -> list str)
    (p : char -> bool) (s : str) : list str :=
  match s with
  | c :: t => if p c then star p t else []
  | [] => []
  end.

(** A thread of the matcher: the capture of group 1 so far, and the input
    that remains. *)
Definition thread : Type := option str * str.

(** All ways [r] matches a prefix of [s], in the order in which a
    backtracking matcher tries them. *)
Fixpoint run (r : regex) (cap : option str) (s : str) : list thread :=
  match r with
  | Eps => [(cap, s)]
  | Lit c =>
      match s with
      | x :: t => if (x =? c)%N then [(cap, t)] else []
      | [] => []
      end
  | Cls p =>
      match s with
      | x :: t => if p x then [(cap, t)] else []
      | [] => []
      end
  | Cat r1 r2 => flat_map (fun th => run r2 (fst th) (snd th)) (run r1 cap s)
  | Opt r' => run r' cap s ++ [(cap, s)]
  | Star p => List.map (pair cap) (star_greedy p s)
  | Plus p => List.map (pair cap) (plus_with star_greedy p s)
  | PlusLazy p => List.map (pair cap) (plus_with star_lazy p s)
  | Group r' =>
      List.map (fun th => (Some (firstn (length s - length (snd th)) s), snd th))
               (run r' cap s)
  end.

(** A match object: [m.start()], [m.group(0)], [m.group(1)], and the text
    after [m.end()]. *)
Record Match : Type := mkMatch {
  start : nat;
  group0 : str;
  group1 : option str;
  tail : str
}.

(** One attempt at position [pos].  With [must_advance] an empty match is
    rejected and the matcher backtracks to its next alternative. *)
Definition match_at (r : regex) (must_advance : bool) (pos : nat) (s : str)
  : option Match :=
  match List.find (fun th => negb must_advance || (length (snd th) <? length s))
                  (run r None s) with
  | Some (cap, rest) =>
      Some (mkMatch pos (firstn (length s - length rest) s) cap rest)
  | None => None
  end.

Fixpoint search_from (r : regex) (must_advance : bool) (pos : nat) (s : str)
  : option Match :=
  match match_at r must_advance pos s with
  | Some m => Some m
  | None =>
      match s with
      | [] => None
      | _ :: t => search_from r false (S pos) t
      end
  end.

(** [re.search(r, s)] *)
Definition search (r : regex) (s : str) : option Match := search_from r false 0 s.

(** The scanning loop of [re.findall] for a pattern with one group: each
    search resumes where the previous match ended, and after an empty match
    the next one must advance. *)
Fixpoint findall_from (fuel : nat) (r : regex) (must_advance : bool) (s : str)
  : list str :=
  match fuel with
  | O => []
  | S fuel' =>
      match search_from r must_advance 0 s with
      | None => []
      | Some m =>
          match group1 m with Some g => g | None => [] end
            :: findall_from fuel' r
                 (match group0 m with [] => true | _ => false end) (tail m)
      end
  end.

(** [re.findall(r, s)] *)
Definition findall (r : regex) (s : str) : list str :=
  findall_from (2 * length s + 2) r false s.

(** [re.fullmatch(r, s)] as a test: some alternative consumes all of [s]. *)
Definition fullmatch (r : regex) (s : str) : bool :=
  existsb (fun th => match snd th with [] => true | _ :: _ => false end)
          (run r None s).

(** [m.group(1)] for a pattern whose group always takes part in a match. *)
Definition group (m : Match) : str :=
  match group1 m with Some g => g | None => [] end.

End Re.
Import Re.

(** ** The record extractor: [parse_experiment] *)

(** The patterns of [parse_experiment], in source order. *)
Definition TITLE_RE : regex :=       (* r'# 実験 (.+?):' *)
  Cat (lits (u "# 実験 ")) (Cat (Group (PlusLazy dot)) (Lit 58%N)).

Definition DATE_RE : regex :=        (* r'- 日付: (.+)' *)
  Cat (lits (u "- 日付: ")) (Group (Plus dot)).

Definition RECORDER_RE : regex :=    (* r'- 記録者: (.+)' *)
  Cat (lits (u "- 記録者: ")) (Group (Plus dot)).

Definition MODEL_RE : regex :=       (* r'- モデル: (.+)' *)
  Cat (lits (u "- モデル: ")) (Group (Plus dot)).

Definition TARGET_RE : regex :=      (* r'- 対象: (.+)' *)
  Cat (lits (u "- 対象: ")) (Group (Plus dot)).

Definition EXCEEDED : char := 9678%N.   (* ◎ *)
Definition MET : char := 9675%N.        (* ○ *)
Definition MET_LEGACY : char := 12295%N. (* 〇 *)
Definition BELOW : char := 9651%N.      (* △ *)
Definition FAILED : char := 10060%N.    (* ❌ *)

Definition rating_glyph (c : char) : bool :=   (* [◎○〇△❌] *)
  existsb (N.eqb c) [EXCEEDED; MET; MET_LEGACY; BELOW; FAILED].

Definition RATING_RE : regex :=      (* r'\*\*評価: ([◎○〇△❌])\*\*' *)
  Cat (lits (u "**評価: ")) (Cat (Group (Cls rating_glyph)) (lits (u "**"))).

Definition TAGS_MARKER : str := Eval vm_compute in u "**タグ:**".

Definition TAGS_RE : regex :=        (* r'\*\*タグ:\*\*.*' *)
  Cat (lits TAGS_MARKER) (Star dot).

Definition tag_char (c : char) : bool :=       (* [^`\\] *)
  negb ((c =? backtick) || (c =? backslash))%N.

Definition TAG_RE : regex :=         (* r'\\?`([^`\\]+)\\?`' *)
  Cat (Opt (Lit backslash))
    (Cat (Lit backtick)
      (Cat (Group (Plus tag_char))
        (Cat (Opt (Lit backslash)) (Lit backtick)))).

Definition PLACEHOLDER_ID : str := Eval vm_compute in u "ID".
Definition UNKNOWN : str := Eval vm_compute in u "不明".

(** The dict built by [parse_experiment]: a key is present or absent. *)
Record Experiment : Type := mkExperiment {
  id : option str;
  date : option str;
  recorder : option str;
  model : option str;
  target : option str;
  rating : option str;
  tags : option (list str)
}.

(** [re.search(r, content)] followed by [group(1).strip()] when it matches. *)
Definition field (r : regex) (content : str) : option str :=
  match search r content with
  | Some m => Some (strip (group m))
  | None => None
  end.

(** The body of [parse_experiment] after the file has been read: [stem] is
    [file_path.stem] and [content] the decoded text. *)
Definition parse_content (stem content : str) : Experiment :=
  let id0 := stem in
  let id1 :=
    match search TITLE_RE content with
    | Some title_match =>
        let title_id := strip (group title_match) in
        match title_id with
        | [] => id0
        | _ :: _ => if negb (str_eqb title_id PLACEHOLDER_ID) then title_id else id0
        end
    | None => id0
    end in
  {| id := Some id1;
     date := field DATE_RE content;
     recorder := field RECORDER_RE content;
     model := field MODEL_RE content;
     target := field TARGET_RE content;
     rating :=
       match search RATING_RE content with
       | Some rating_match =>
           Some (replace MET_LEGACY MET (strip (group rating_match)))
       | None => None
       end;
     tags :=
       match search TAGS_RE content with
       | Some tags_match => Some (findall TAG_RE (group0 tags_match))
       | None => Some []
       end |}.

(** ** Errors and the file system *)

Inductive exn : Type :=
| OSError (msg : str)
| UnicodeDecodeError (msg : str)
| ZeroDivisionError.

Definition exn_str (e : exn) : str :=
  match e with
  | OSError msg => msg
  | UnicodeDecodeError msg => msg
  | ZeroDivisionError => u "division by zero"
  end.

Inductive result (A : Type) : Type :=
| Ok (a : A)
| Raise (e : exn).
Arguments Ok {A} a.
Arguments Raise {A} e.

Definition bind {A B : Type} (x : result A) (f : A -> result B) : result B :=
  match x with
  | Ok a => f a
  | Raise e => Raise e
  end.

Notation "x <- c ;; k" := (bind c (fun x => k))
  (at level 61, c at next level, right associativity).

(** What [open(path, 'r', encoding='utf-8').read()] gives for each file name
    of the experiments directory: the text, or the exception raised. *)
Definition filesystem : Type := str -> result str.

(** [PurePath.stem]: the name up to its last dot, unless that dot is the
    first or the last character. *)
Fixpoint rfind (c : char) (s : str) (pos : nat) : option nat :=
  match s with
  | [] => None
  | x :: t =>
      match rfind c t (S pos) with
      | Some i => Some i
      | None => if (x =? c)%N then Some pos else None
      end
  end.

Definition stem (name : str) : str :=
  match rfind 46%N name 0 with
  | Some i => if (0 <? i) && (i <? length name - 1) then firstn i name else name
  | None => name
  end.

Definition parse_experiment (fs : filesystem) (file_path : str) : result Experiment :=
  content <- fs file_path ;;
  Ok (parse_content (stem file_path) content).

(** ** The collector: [collect_experiments] *)

Definition digit (c : char) : bool := ((48 <=? c) && (c <=? 57))%N.

(** [glob("[0-9]*.md")] tests each name of the directory against the pattern
    with a full match (here [*] may take any character). *)
Definition GLOB_RE : regex :=
  Cat (Cls digit) (Cat (Star (fun _ => true)) (lits (u ".md"))).

Definition glob_match (name : str) : bool := fullmatch GLOB_RE name.

(** [sorted(l, key=key)]: a stable sort on string keys. *)
Section Sorted.
Variable A : Type.
Variable key : A -> str.

Fixpoint insert (x : A) (l : list A) : list A :=
  match l with
  | [] => [x]
  | y :: t => if str_leb (key x) (key y) then x :: l else y :: insert x t
  end.

Fixpoint sorted (l : list A) : list A :=
  match l with
  | [] => []
  | x :: t => insert x (sorted t)
  end.

End Sorted.

(** What a run prints and writes. *)
Inductive message : Type :=
| Text (s : str)
| Found (n : Z)             (* f"✓ {len(experiments)} 件の実験を検出" *)
| SuccessRate (rate : Q).   (* f"✓ 成功率: {stats['success_rate']:.1f}%" *)

Definition warning (name : str) (e : exn) : message :=
  Text (u "警告: " ++ name ++ u " の解析に失敗: " ++ exn_str e).

(** One turn of the loop of [collect_experiments]: the state is the list
    [experiments] and what has been printed. *)
Definition collect_step (fs : filesystem) (st : list Experiment * list message)
    (exp_file : str) : list Experiment * list message :=
  match parse_experiment fs exp_file with
  | Ok exp_data => (fst st ++ [exp_data], snd st)
  | Raise e => (fst st, snd st ++ [warning exp_file e])
  end.

(** [listing] is the content of the experiments directory, in the order the
    operating system gives it. *)
Definition collect_experiments (fs : filesystem) (listing : list str)
  : list Experiment * list message :=
  fold_left (collect_step fs)
            (sorted (fun name => name) (filter glob_match listing))
            ([], []).

(** ** The aggregator: [calculate_stats] *)

(** A Python dict keyed by strings, in insertion order. *)
Module Dict.
Section Dict.
Variable V : Type.

Definition dict : Type := list (str * V).

Fixpoint get (d : dict) (k : str) : option V :=
  match d with
  | [] => None
  | (k', v) :: t => if str_eqb k' k then Some v else get t k
  end.

(** [d.get(k, default)] *)
Definition get_default (d : dict) (k : str) (default : V) : V :=
  match get d k with Some v => v | None => default end.

(** [d[k] = v] *)
Fixpoint set (d : dict) (k : str) (v : V) : dict :=
  match d with
  | [] => [(k, v)]
  | (k', v') :: t => if str_eqb k' k then (k', v) :: t else (k', v') :: set t k v
  end.

(** [d.values()] *)
Definition values (d : dict) : list V := List.map snd d.

End Dict.
End Dict.
Import Dict.

(** [collections.Counter] *)
Definition Counter : Type := dict Z.

(** [c[k] += 1] *)
Definition incr (c : Counter) (k : str) : Counter :=
  set c k (get_default c k 0%Z + 1)%Z.

(** [Counter(iterable)] *)
Definition Counter_of (l : list str) : Counter := fold_left incr l [].

(** [sum(c.get(r, 0) for r in rs)] *)
Definition sum_get (c : Counter) (rs : list str) : Z :=
  fold_left Z.add (List.map (fun r => get_default c r 0%Z) rs) 0%Z.

Definition SUCCESS : list str := [[EXCEEDED]; [MET]].   (* ["◎", "○"] *)

Module ModelStat.
Record t : Type := mk {
  total : Z;
  ratings : Counter
}.
(** The default of the [defaultdict]. *)
Definition fresh : t := {| total := 0; ratings := [] |}.
End ModelStat.

Record Stats : Type := mkStats {
  total : Z;
  success_rate : Q;
  rating_counts : Counter;
  model_stats : dict ModelStat.t;
  tag_counts : Counter;
  tag_experiments : dict (list str)
}.

Definition rating_of (exp : Experiment) : str :=   (* exp.get("rating", "不明") *)
  match rating exp with Some r => r | None => UNKNOWN end.
Definition model_of (exp : Experiment) : str :=    (* exp.get("model", "不明") *)
  match model exp with Some m => m | None => UNKNOWN end.
Definition id_of (exp : Experiment) : str :=       (* exp.get("id", "不明") *)
  match id exp with Some i => i | None => UNKNOWN end.
Definition tags_of (exp : Experiment) : list str := (* exp.get("tags", []) *)
  match tags exp with Some l => l | None => [] end.

Section Aggregator.

(** Python floats: [round] sends the exact value of an operation to the
    float that represents it (round to nearest), so an [int / int] or a
    float product is [round] of the exact quotient or product. *)
Variable round : Q -> Q.

(** [a / b] on integers. *)
Definition truediv (a b : Z) : result Q :=
  if (b =? 0)%Z then Raise ZeroDivisionError
  else Ok (round (inject_Z a / inject_Z b)).

Definition model_step (model_stats : dict ModelStat.t) (exp : Experiment)
  : dict ModelStat.t :=
  let model := model_of exp in
  let rating := rating_of exp in
  let entry := get_default model_stats model ModelStat.fresh in
  set model_stats model
      {| ModelStat.total := ModelStat.total entry + 1;
         ModelStat.ratings := incr (ModelStat.ratings entry) rating |}.

Definition tag_step (exp_id : str) (st : Counter * dict (list str)) (tag : str)
  : Counter * dict (list str) :=
  (incr (fst st) tag,
   set (snd st) tag (get_default (snd st) tag [] ++ [exp_id])).

Definition tags_step (st : Counter * dict (list str)) (exp : Experiment)
  : Counter * dict (list str) :=
  fold_left (tag_step (id_of exp)) (tags_of exp) st.

Definition calculate_stats (experiments : list Experiment) : result Stats :=
  let total := Z.of_nat (length experiments) in
  let rating_counts := Counter_of (List.map rating_of experiments) in
  let success_count := sum_get rating_counts SUCCESS in
  success_rate <-
    (if (total >? 0)%Z then
       q <- truediv success_count total ;;
       Ok (round (q * inject_Z 100))
     else Ok 0) ;;
  let model_stats := fold_left model_step experiments [] in
  let tag_stats := fold_left tags_step experiments ([], []) in
  Ok {| total := total;
        success_rate := success_rate;
        rating_counts := rating_counts;
        model_stats := model_stats;
        tag_counts := fst tag_stats;
        tag_experiments := snd tag_stats |}.

End Aggregator.

(** ** Rendering and [main] *)

(** The effects of a run, in order: lines printed, images saved under
    [IMAGES_DIR], and the report written to [STATS_FILE].  What a chart
    shows and how the report is laid out are not modelled: an event records
    that the file is written, and for the report the statistics it prints.
    The trace of [main] is that of a run in which every write goes through
    and every line can be printed; [Fallible], further down, lets a write
    raise. *)
Inductive event : Type :=
| Print (m : message)
| SaveFig (file : str)
| WriteStats (stats : Stats).

Definition generate_timeline_chart (experiments : list Experiment) : list event :=
  match experiments with
  | [] => []
  | _ :: _ => [SaveFig (u "timeline.png")]
  end.

Definition generate_model_comparison_chart (model_stats : dict ModelStat.t)
  : list event :=
  match model_stats with
  | [] => []
  | _ :: _ => [SaveFig (u "model_comparison.png")]
  end.

Definition generate_tag_cloud_chart (tag_counts : Counter) : list event :=
  match tag_counts with
  | [] => []
  | _ :: _ => [SaveFig (u "tag_cloud.png")]
  end.

Definition generate_stats_md (experiments : list Experiment) (stats : Stats)
  : list event :=
  [WriteStats stats].

Section Main.
Variable round : Q -> Q.

(** The trace of [main], and how it ends. *)
Definition main (fs : filesystem) (listing : list str) : list event * result unit :=
  let out0 := [Print (Text (u "実験データを収集中..."))] in
  let collected := collect_experiments fs listing in
  let experiments := fst collected in
  let out1 := out0 ++ List.map Print (snd collected)
                   ++ [Print (Found (Z.of_nat (length experiments)))] in
  match experiments with
  | [] => (out1 ++ [Print (Text (u "実験データが見つかりません"))], Ok tt)
  | _ :: _ =>
      let out2 := out1 ++ [Print (Text (newline :: u "統計情報を計算中..."))] in
      match calculate_stats round experiments with
      | Raise e => (out2, Raise e)
      | Ok stats =>
          (out2 ++ [Print (SuccessRate (success_rate stats))]
                ++ [Print (Text (newline :: u "グラフを生成中..."))]
                ++ generate_timeline_chart experiments
                ++ [Print (Text (u "✓ timeline.png"))]
                ++ generate_model_comparison_chart (model_stats stats)
                ++ [Print (Text (u "✓ model_comparison.png"))]
                ++ generate_tag_cloud_chart (tag_counts stats)
                ++ [Print (Text (u "✓ tag_cloud.png"))]
                ++ [Print (Text (newline :: u "Stats.mdを更新中..."))]
                ++ generate_stats_md experiments stats
                ++ [Print (Text (u "✓ Stats.md"))]
                ++ [Print (Text (newline :: u "完了！"))],
           Ok tt)
      end
  end.

End Main.

Definition writes_output (e : event) : bool :=
  match e with
  | Print _ => false
  | SaveFig _ | WriteStats _ => true
  end.

(** ** Vocabulary of the statements *)

Definition sumZ (l : list Z) : Z := fold_right Z.add 0%Z l.

(** How often [x] occurs in [l]. *)
Definition occurrences (x : str) (l : list str) : nat :=
  length (filter (str_eqb x) l).

(** A record counts as a success when its rating is ◎ or ○. *)
Definition is_success (exp : Experiment) : bool :=
  match rating exp with
  | Some r => str_eqb r [EXCEEDED] || str_eqb r [MET]
  | None => false
  end.

Definition CANONICAL : list str := [[EXCEEDED]; [MET]; [BELOW]; [FAILED]].

(** A model group whose per-rating counts add up to its total. *)
Definition balanced (ms : ModelStat.t) : Prop :=
  sumZ (values (ModelStat.ratings ms)) = ModelStat.total ms.

(** The ids a tag refers back to: each record's id, once per occurrence of
    the tag in that record's own list, in record order. *)
Definition back_references (tag : str) (experiments : list Experiment) : list str :=
  flat_map (fun exp => repeat (id_of exp) (occurrences tag (tags_of exp)))
           experiments.

(** Occurrences of a tag over all records' lists, repeats included. *)
Definition tag_occurrences (tag : str) (experiments : list Experiment) : nat :=
  list_sum (List.map (fun exp => occurrences tag (tags_of exp)) experiments).

(** A record with the given id and tags and no other field. *)
Definition tagged (i : str) (ts : list str) : Experiment :=
  {| id := Some i; date := None; recorder := None; model := None;
     target := None; rating := None; tags := Some ts |}.

(** The number of successful records. *)
Definition success_total (experiments : list Experiment) : Z :=
  Z.of_nat (length (filter is_success experiments)).

Definition str_le (a b : str) : Prop := str_leb a b = true.

(** The records and the warnings the collector owes to a list of files. *)
Definition parsed (fs : filesystem) (files : list str) : list Experiment :=
  flat_map (fun name =>
              match fs name with
              | Ok content => [parse_content (stem name) content]
              | Raise _ => []
              end) files.

Definition warned (fs : filesystem) (files : list str) : list message :=
  flat_map (fun name =>
              match fs name with
              | Ok _ => []
              | Raise e => [warning name e]
              end) files.

(** A name that begins with a digit and ends in [.md]. *)
Definition experiment_name (name : str) : Prop :=
  exists d middle, name = d :: middle ++ u ".md" /\ digit d = true.

(** A string a tag can be: not empty, no backtick, no backslash. *)
Definition bare_tag (tag : str) : Prop :=
  tag <> [] /\ ~ In backtick tag /\ ~ In backslash tag.

(** Nothing, or one escaping backslash. *)
Definition optional_backslash (l : str) : Prop := l = [] \/ l = [backslash].

(** The bolded rating marker holding glyph [g]: [**評価: g**]. *)
Definition RATING_OPEN : str := Eval vm_compute in u "**評価: ".
Definition RATING_CLOSE : str := Eval vm_compute in u "**".
Definition rating_marker (g : char) : str := RATING_OPEN ++ [g] ++ RATING_CLOSE.

(** [content] has a rating marker with glyph [g] right after [pre]. *)
Definition rating_marker_at (content pre : str) (g : char) (post : str) : Prop :=
  content = pre ++ rating_marker g ++ post /\ rating_glyph g = true.

(** The first rating marker of [content] holds [g]. *)
Definition first_rating_marker (content : str) (g : char) : Prop :=
  exists pre post,
    rating_marker_at content pre g post /\
    forall pre' g' post',
      rating_marker_at content pre' g' post' -> (length pre <= length pre')%nat.

(** The glyph stored for a glyph read: 〇 becomes ○. *)
Definition canonical_glyph (g : char) : char :=
  if (g =? MET_LEGACY)%N then MET else g.

(** The title heading: [# 実験 <id>:]. *)
Definition TITLE_OPEN : str := Eval vm_compute in u "# 実験 ".
Definition colon : char := 58%N.

(** [content] has a title heading with id text [g] right after [pre]. *)
Definition title_at (content pre g post : str) : Prop :=
  content = pre ++ TITLE_OPEN ++ g ++ colon :: post /\
  g <> [] /\ forallb dot g = true.

(** The heading [re.search] settles on: the leftmost one, its id text ending
    at the first colon after its first character. *)
Definition first_title (content pre g post : str) : Prop :=
  title_at content pre g post /\
  ~ In colon (List.tl g) /\
  forall pre' g' post',
    title_at content pre' g' post' -> (length pre <= length pre')%nat.

(** The text of a line up to its first colon, and what follows the colon. *)
Fixpoint until_colon (t : str) : option (str * str) :=
  match t with
  | [] => None
  | c :: t' =>
      if (c =? colon)%N then Some ([], t')
      else if dot c then
        match until_colon t' with
        | Some (g, r) => Some (c :: g, r)
        | None => None
        end
      else None
  end.

(** The threads of [(.+?):] once the group has taken [x] and [t] remains. *)
Definition title_threads (x t : str) : list thread :=
  flat_map (fun th => run (Lit colon) (fst th) (snd th))
    (List.map (fun r => (Some (firstn (length (x ++ t) - length r) (x ++ t)), r))
              (star_lazy dot t)).

(** The ways a tag token is written on the Tags line: the four forms
    [`x`], [\`x`], [`x`\], [\`x`\], and the two that put the backslash
    before the closing backtick, [`x\`] and [\`x\`]. *)
Inductive escaping : Type :=
| Plain | EscapedLeft | EscapedRight | EscapedBoth
| EscapedClosing | EscapedEach.

Definition delimited (e : escaping) (x : str) : str :=
  match e with
  | Plain => [backtick] ++ x ++ [backtick]
  | EscapedLeft => [backslash; backtick] ++ x ++ [backtick]
  | EscapedRight => [backtick] ++ x ++ [backtick; backslash]
  | EscapedBoth => [backslash; backtick] ++ x ++ [backtick; backslash]
  | EscapedClosing => [backtick] ++ x ++ [backslash; backtick]
  | EscapedEach => [backslash; backtick] ++ x ++ [backslash; backtick]
  end.

(** One token of the Tags line, with the text that separates it from what
    comes before. *)
Record item : Type := mkItem {
  sep : str;
  esc : escaping;
  token : str
}.

Definition render (items : list item) : str :=
  flat_map (fun it => sep it ++ delimited (esc it) (token it)) items.

(** Text between tokens: no backtick, and it stays on the line. *)
Definition plain_text (s : str) : Prop := ~ In backtick s /\ ~ In newline s.

(** A token: not empty, without backtick, backslash or newline. *)
Definition tag_token (x : str) : Prop :=
  x <> [] /\ forallb tag_char x = true /\ ~ In newline x.

Definition well_formed (it : item) : Prop :=
  plain_text (sep it) /\ tag_token (token it).

(** What may follow a line: the end of the text, or a newline. *)
Definition line_end (ending : str) : Prop :=
  ending = [] \/ exists after, ending = newline :: after.

(** [marker] does not occur in [content] before position [length before]. *)
Definition first_occurrence (marker content before : str) : Prop :=
  forall before' rest',
    content = before' ++ marker ++ rest' -> (length before <= length before')%nat.

(** ** What the charts plot and what the report tabulates *)

(** [d.keys()] *)
Definition keys (V : Type) (d : dict V) : list str := List.map fst d.

Definition RATING_ORDER : dict Z :=      (* {"◎": 4, "○": 3, "△": 2, "❌": 1} *)
  [([EXCEEDED], 4%Z); ([MET], 3%Z); ([BELOW], 2%Z); ([FAILED], 1%Z)].

Definition RATING_LABELS : dict str :=
  [([EXCEEDED], u "期待以上"); ([MET], u "期待通り");
   ([BELOW], u "期待以下"); ([FAILED], u "失敗")].

(** [exp.get(key, "")] *)
Definition get_or_empty (o : option str) : str :=
  match o with Some s => s | None => [] end.

(** [generate_timeline_chart]: the records in date order, and the two
    series handed to [plt.plot]. *)
Definition sorted_exps (experiments : list Experiment) : list Experiment :=
  sorted (fun x => get_or_empty (date x)) experiments.

Definition timeline_dates (experiments : list Experiment) : list str :=
  List.map (fun exp => get_or_empty (id exp)) (sorted_exps experiments).

Definition timeline_ratings (experiments : list Experiment) : list Z :=
  List.map (fun exp => get_default RATING_ORDER (get_or_empty (rating exp)) 0%Z)
           (sorted_exps experiments).

(** A loop that appends [f x] for each [x], unless some [f x] raises. *)
Fixpoint mapM (A B : Type) (f : A -> result B) (l : list A) : result (list B) :=
  match l with
  | [] => Ok []
  | x :: t => y <- f x ;; ys <- mapM f t ;; Ok (y :: ys)
  end.

(** [Counter.most_common()]: [sorted(items, key=itemgetter(1), reverse=True)],
    a stable sort by descending count. *)
Fixpoint insert_desc (x : str * Z) (l : list (str * Z)) : list (str * Z) :=
  match l with
  | [] => [x]
  | y :: t => if (snd y <=? snd x)%Z then x :: l else y :: insert_desc x t
  end.

Fixpoint most_common (c : Counter) : list (str * Z) :=
  match c with
  | [] => []
  | x :: t => insert_desc x (most_common t)
  end.

Record RatingRow : Type := mkRatingRow {
  row_rating : str;
  row_label : str;
  row_count : Z;
  row_percentage : Q
}.

Record ModelRow : Type := mkModelRow {
  row_model : str;
  row_total : Z;
  row_counts : list Z;        (* the ◎, ○, △ and ❌ columns *)
  row_success_rate : Q
}.

Record TagRow : Type := mkTagRow {
  row_tag : str;
  row_occurrences : Z;
  row_links : list str        (* the ids linked as [[id]] *)
}.

Section Rendering.
Variable round : Q -> Q.

(** [(part / whole * 100) if whole > 0 else 0], as the charts and the
    report compute it. *)
Definition percentage (part whole : Z) : result Q :=
  if (whole >? 0)%Z then
    q <- truediv round part whole ;;
    Ok (round (q * inject_Z 100))
  else Ok 0.

(** [generate_model_comparison_chart]: the bars' names and heights. *)
Definition comparison_models (model_stats : dict ModelStat.t) : list str :=
  keys model_stats.

Definition comparison_rates (model_stats : dict ModelStat.t) : result (list Q) :=
  mapM (fun model =>
          let data := get_default model_stats model ModelStat.fresh in
          let success := sum_get (ModelStat.ratings data) SUCCESS in
          percentage success (ModelStat.total data))
       (comparison_models model_stats).

(** [generate_stats_md]: the rows of the three tables. *)
Definition rating_rows (stats : Stats) : result (list RatingRow) :=
  mapM (fun rating =>
          let count := get_default (rating_counts stats) rating 0%Z in
          p <- percentage count (total stats) ;;
          Ok {| row_rating := rating;
                row_label := get_default RATING_LABELS rating [];
                row_count := count;
                row_percentage := p |})
       CANONICAL.

Definition model_rows (stats : Stats) : result (list ModelRow) :=
  mapM (fun item =>
          let data := snd item in
          let success := sum_get (ModelStat.ratings data) SUCCESS in
          r <- percentage success (ModelStat.total data) ;;
          Ok {| row_model := fst item;
                row_total := ModelStat.total data;
                row_counts :=
                  List.map (fun g => get_default (ModelStat.ratings data) g 0%Z)
                           CANONICAL;
                row_success_rate := r |})
       (model_stats stats).

Definition tag_rows (stats : Stats) : list TagRow :=
  List.map (fun item =>
              {| row_tag := fst item;
                 row_occurrences := snd item;
                 row_links := get_default (tag_experiments stats) (fst item) [] |})
           (most_common (tag_counts stats)).

End Rendering.

(** [generate_tag_cloud_chart]: the bars' names and lengths. *)
Definition cloud_tags (tag_counts : Counter) : list str := keys tag_counts.
Definition cloud_counts (tag_counts : Counter) : list Z := values tag_counts.

(** ** Vocabulary of the further statements *)

(** The distinct elements of [l], in the order of their first occurrence. *)
Fixpoint first_seen (l : list str) : list str :=
  match l with
  | [] => []
  | x :: t => x :: filter (fun y => negb (str_eqb x y)) (first_seen t)
  end.

Definition mem (k : str) (l : list str) : bool := existsb (str_eqb k) l.

(** Every tag of every record, in record order. *)
Definition all_tags (experiments : list Experiment) : list str :=
  flat_map tags_of experiments.

(** The records of one model group. *)
Definition with_model (m : str) (experiments : list Experiment) : list Experiment :=
  filter (fun exp => str_eqb m (model_of exp)) experiments.

(** The (tag, id) pairs the tag loops go through, in order. *)
Definition tag_pairs (experiments : list Experiment) : list (str * str) :=
  flat_map (fun exp => List.map (fun tag => (tag, id_of exp)) (tags_of exp))
           experiments.

(** A model group with at least one record and no empty rating bucket. *)
Definition populated (ms : ModelStat.t) : Prop :=
  (1 <= ModelStat.total ms)%Z /\
  Forall (fun kv => (1 <= snd kv)%Z) (ModelStat.ratings ms).

(** The successes of a model group, as the chart and the report sum them. *)
Definition group_success (data : ModelStat.t) : Z :=
  sum_get (ModelStat.ratings data) SUCCESS.

(** The float [part / whole * 100]. *)
Definition float_percentage (round : Q -> Q) (part whole : Z) : Q :=
  round (round (inject_Z part / inject_Z whole) * inject_Z 100).

Definition in_percent_range (q : Q) : Prop := 0 <= q /\ q <= inject_Z 100.

(** The records whose rating is none of the four glyphs (for a parsed
    record: the records without a rating). *)
Definition unrated (experiments : list Experiment) : list Experiment :=
  filter (fun exp => negb (mem (rating_of exp) CANONICAL)) experiments.

(** How many records carry the rating [g]. *)
Definition rated (g : str) (experiments : list Experiment) : Z :=
  Z.of_nat (occurrences g (List.map rating_of experiments)).

(** The row of the model table, read off the records. *)
Definition model_row_of (round : Q -> Q) (experiments : list Experiment) (m : str)
  : ModelRow :=
  let group := with_model m experiments in
  {| row_model := m;
     row_total := Z.of_nat (length group);
     row_counts := List.map (fun g => rated g group) CANONICAL;
     row_success_rate :=
       float_percentage round (success_total group) (Z.of_nat (length group)) |}.

(** The ordinal the timeline plots for a record. *)
Definition score (exp : Experiment) : Z :=
  get_default RATING_ORDER (get_or_empty (rating exp)) 0%Z.

(** The tag table, read off the records: tag, occurrences, linked ids. *)
Definition tag_row_of (experiments : list Experiment) (item : str * Z) : TagRow :=
  {| row_tag := fst item;
     row_occurrences := snd item;
     row_links := back_references (fst item) experiments |}.

Definition tag_items (experiments : list Experiment) : list (str * Z) :=
  List.map (fun tag => (tag, Z.of_nat (tag_occurrences tag experiments)))
           (first_seen (all_tags experiments)).

(** The files a run with records writes, in order. *)
Definition outputs_for (experiments : list Experiment) (stats : Stats) : list event :=
  [SaveFig (u "timeline.png"); SaveFig (u "model_comparison.png")]
    ++ match all_tags experiments with
       | [] => []
       | _ :: _ => [SaveFig (u "tag_cloud.png")]
       end
    ++ [WriteStats stats].

(** The pattern of a labelled line: the label, then [(.+)]. *)
Definition LABELLED (label : str) : regex := Cat (lits label) (Group (Plus dot)).

Definition DATE_LABEL : str := Eval vm_compute in u "- 日付: ".
Definition RECORDER_LABEL : str := Eval vm_compute in u "- 記録者: ".
Definition MODEL_LABEL : str := Eval vm_compute in u "- モデル: ".
Definition TARGET_LABEL : str := Eval vm_compute in u "- 対象: ".

(** [content] has [label] right after [pre], followed by the non-empty rest
    [v] of the line. *)
Definition labelled_at (content label pre v ending : str) : Prop :=
  content = pre ++ label ++ v ++ ending /\
  v <> [] /\ ~ In newline v /\ line_end ending.

Definition first_labelled (content label pre v ending : str) : Prop :=
  labelled_at content label pre v ending /\
  forall pre' v' ending',
    labelled_at content label pre' v' ending' -> (length pre <= length pre')%nat.

(** How a field is read: from the first place where its label is followed
    by text on the same line, trimmed; absent when there is no such place. *)
Definition field_reads (label content : str) (value : option str) : Prop :=
  (forall pre v ending,
     first_labelled content label pre v ending -> value = Some (strip v)) /\
  ((forall pre v ending, ~ labelled_at content label pre v ending) ->
   value = None) /\
  ((exists pre v ending, first_labelled content label pre v ending) \/
   (forall pre v ending, ~ labelled_at content label pre v ending)).

(** A stored value: trimmed, and on one line. *)
Definition clean_value (value : option str) : Prop :=
  forall v, value = Some v -> strip v = v /\ ~ In newline v.

(** The record of a document in which no pattern matches. *)
Definition bare_record (stem : str) : Experiment :=
  {| id := Some stem; date := None; recorder := None; model := None;
     target := None; rating := None; tags := Some [] |}.

(** Three records: two of model A (◎ and ❌), one of model B (○). *)
Definition three_records : list Experiment :=
  [{| id := Some (u "001"); date := Some (u "2025-01-03"); recorder := None;
      model := Some (u "A"); target := None; rating := Some [EXCEEDED];
      tags := Some [u "x"; u "y"] |};
   {| id := Some (u "002"); date := Some (u "2025-01-01"); recorder := None;
      model := Some (u "A"); target := None; rating := Some [FAILED];
      tags := Some [u "y"] |};
   {| id := Some (u "003"); date := None; recorder := None;
      model := Some (u "B"); target := None; rating := Some [MET];
      tags := Some [] |}].

(** * visualize.py: the cumulative timeline and the thresholded comparison

    The second script of the repository reads the same documents with
    patterns of its own, and plots a running success percentage and a model
    comparison restricted to models with at least two records. *)

Module Visualize.

(** A model's entry in [plot_model_comparison]:
    [{'total': ..., 'success': ...}]. *)
Module Tally.
Record t : Type := mk {
  total : Z;
  success : Z
}.
Definition fresh : t := {| total := 0; success := 0 |}.
End Tally.

(** [r{n}] *)
Fixpoint times (n : nat) (r : regex) : regex :=
  match n with
  | O => Eps
  | S n' => Cat r (times n' r)
  end.

Definition MODEL_RE : regex :=       (* r'モデル: (.+)' *)
  Cat (lits (u "モデル: ")) (Group (Plus dot)).

Definition RATING_RE : regex :=      (* r'評価: (.+)' *)
  Cat (lits (u "評価: ")) (Group (Plus dot)).

Section Entries.

(** Left to the platform: [datetime] values, [strptime] with the format
    [%Y-%m-%d] (without a value where Python raises [ValueError]), and the
    class [\d] of the decimal digits of Unicode. *)
Variable datetime : Type.
Variable strptime : str -> option datetime.
Variable isdecimal : char -> bool.

(** One element of [data]. *)
Record Entry : Type := mkEntry {
  date : datetime;
  model : str;
  rating : str;
  success : bool
}.

Definition DATE_RE : regex :=        (* r'日付: (\d{4}-\d{2}-\d{2})' *)
  Cat (lits (u "日付: "))
      (Group (Cat (times 4 (Cls isdecimal))
             (Cat (Lit 45%N)
             (Cat (times 2 (Cls isdecimal))
             (Cat (Lit 45%N)
                  (times 2 (Cls isdecimal))))))).

(** What the body of the loop of [parse_experiments] does with the text of
    one file. *)
Inductive parsed_file : Type :=
| Append (d : Entry)
| Skip
| RaiseValueError.

Definition parse_file (content : str) : parsed_file :=
  let date_match := search DATE_RE content in
  let model_match := search MODEL_RE content in
  let rating_match := search RATING_RE content in
  match date_match, model_match, rating_match with
  | Some date_match, Some model_match, Some rating_match =>
      match strptime (group date_match) with
      | Some d =>
          Append {| date := d;
                    model := strip (group model_match);
                    rating := strip (group rating_match);
                    success := mem (strip (group rating_match))
                                   [[MET]; [EXCEEDED]] |}
      | None => RaiseValueError
      end
  | _, _, _ => Skip
  end.

Variable round : Q -> Q.

(** [plot_timeline]: the loop that fills [cumulative_success]. *)
Fixpoint cumulative_loop (data : list Entry) (total success_count : Z)
    (cumulative_success : list Q) : result (list Q) :=
  match data with
  | [] => Ok cumulative_success
  | d :: rest =>
      let total := (total + 1)%Z in
      let success_count := if success d then (success_count + 1)%Z
                           else success_count in
      q <- truediv round success_count total ;;
      cumulative_loop rest total success_count
                      (cumulative_success ++ [round (q * inject_Z 100)])
  end.

(** The two series [plot_timeline] hands to [plt.plot]. *)
Definition plot_timeline (data : list Entry) : result (list datetime * list Q) :=
  let dates := List.map date data in
  cumulative_success <- cumulative_loop data 0 0 [] ;;
  Ok (dates, cumulative_success).

(** [plot_model_comparison]: the counting loop.  The first access through
    the [defaultdict] inserts the entry. *)
Definition models_step (models : dict Tally.t) (d : Entry) : dict Tally.t :=
  let m := model d in
  let entry := get_default models m Tally.fresh in
  let models :=
    set models m {| Tally.total := Tally.total entry + 1;
                    Tally.success := Tally.success entry |} in
  if success d then
    let entry := get_default models m Tally.fresh in
    set models m {| Tally.total := Tally.total entry;
                    Tally.success := Tally.success entry + 1 |}
  else models.

(** The loop over [sorted(models.items())]. *)
Fixpoint bars_loop (items : list (str * Tally.t)) (model_names : list str)
    (success_rates : list Q) : result (list str * list Q) :=
  match items with
  | [] => Ok (model_names, success_rates)
  | (m, stats) :: rest =>
      if (Tally.total stats >=? 2)%Z then
        q <- truediv round (Tally.success stats) (Tally.total stats) ;;
        bars_loop rest (model_names ++ [m])
                  (success_rates ++ [round (q * inject_Z 100)])
      else bars_loop rest model_names success_rates
  end.

(** The names and heights [plot_model_comparison] hands to [plt.bar].  The
    items are pairs with distinct names, so their order is the order of the
    names. *)
Definition plot_model_comparison (data : list Entry)
  : result (list str * list Q) :=
  let models := fold_left models_step data [] in
  bars_loop (sorted fst models) [] [].

(** *** Vocabulary of the statements *)

(** How many records of [data] are successes. *)
Definition successes (data : list Entry) : Z :=
  Z.of_nat (length (filter success data)).

(** The records of one model. *)
Definition of_model (m : str) (data : list Entry) : list Entry :=
  filter (fun d => str_eqb m (model d)) data.

(** The success percentage of the records of model [m]. *)
Definition model_rate (data : list Entry) (m : str) : Q :=
  float_percentage round (successes (of_model m data))
                   (Z.of_nat (length (of_model m data))).

(** The running percentage after the first [k] records. *)
Definition running_rate (data : list Entry) (k : nat) : Q :=
  float_percentage round (successes (firstn k data)) (Z.of_nat k).

End Entries.

(** What the rating pattern captures from, after its label. *)
Definition RATING_LABEL : str := Eval vm_compute in u "評価: ".

End Visualize.

(** ** Vocabulary of the collector's warnings *)





(** * Writes that can fail

    [plt.savefig] and the write of the report raise when the destination
    cannot be written or a label cannot be drawn, and nothing in [main]
    catches that.  The trace of [main] above is the one of a run whose
    writes all go through; here every write asks the environment for its
    outcome, and an exception ends the run where it is raised. *)

Module Fallible.

(** The outcome of each write of a run: of the chart saved under a name
    (everything from [plt.figure] to [plt.close]), and of the report. *)
Definition environment : Type := event -> result unit.

(** What a statement did, and how it ended. *)
Definition outcome : Type := list event * result unit.

Definition print (m : message) : outcome := ([Print m], Ok tt).

(** A write takes place unless it raises. *)
Definition write (env : environment) (e : event) : outcome :=
  match env e with
  | Ok _ => ([e], Ok tt)
  | Raise x => ([], Raise x)
  end.

(** Statements in sequence: an exception skips the rest. *)
Fixpoint block (statements : list outcome) : outcome :=
  match statements with
  | [] => ([], Ok tt)
  | s :: rest =>
      match snd s with
      | Ok _ => (fst s ++ fst (block rest), snd (block rest))
      | Raise x => (fst s, Raise x)
      end
  end.

Definition generate_timeline_chart (env : environment)
    (experiments : list Experiment) : outcome :=
  match experiments with
  | [] => ([], Ok tt)
  | _ :: _ => write env (SaveFig (u "timeline.png"))
  end.

Definition generate_model_comparison_chart (env : environment)
    (model_stats : dict ModelStat.t) : outcome :=
  match model_stats with
  | [] => ([], Ok tt)
  | _ :: _ => write env (SaveFig (u "model_comparison.png"))
  end.

Definition generate_tag_cloud_chart (env : environment) (tag_counts : Counter)
  : outcome :=
  match tag_counts with
  | [] => ([], Ok tt)
  | _ :: _ => write env (SaveFig (u "tag_cloud.png"))
  end.

Definition generate_stats_md (env : environment)
    (experiments : list Experiment) (stats : Stats) : outcome :=
  write env (WriteStats stats).

Section Main.
Variable round : Q -> Q.

Definition main (env : environment) (fs : filesystem) (listing : list str)
  : outcome :=
  let collected := collect_experiments fs listing in
  let experiments := fst collected in
  block
    ([print (Text (u "実験データを収集中..."))]
       ++ List.map print (snd collected)
       ++ [print (Found (Z.of_nat (length experiments)));
           match experiments with
           | [] => print (Text (u "実験データが見つかりません"))
           | _ :: _ =>
               block
                 [print (Text (newline :: u "統計情報を計算中..."));
                  match calculate_stats round experiments with
                  | Raise e => ([], Raise e)
                  | Ok stats =>
                      block
                        [print (SuccessRate (success_rate stats));
                         print (Text (newline :: u "グラフを生成中..."));
                         generate_timeline_chart env experiments;
                         print (Text (u "✓ timeline.png"));
                         generate_model_comparison_chart env (model_stats stats);
                         print (Text (u "✓ model_comparison.png"));
                         generate_tag_cloud_chart env (tag_counts stats);
                         print (Text (u "✓ tag_cloud.png"));
                         print (Text (newline :: u "Stats.mdを更新中..."));
                         generate_stats_md env experiments stats;
                         print (Text (u "✓ Stats.md"));
                         print (Text (newline :: u "完了！"))]
                  end]
           end]).

End Main.

(** *** Vocabulary of the statements *)

(** Of the writes [outputs], due in this order, those that take place: the
    ones before the first that raises. *)
Fixpoint written (env : environment) (outputs : list event) : list event :=
  match outputs with
  | [] => []
  | o :: rest =>
      match env o with
      | Ok _ => o :: written env rest
      | Raise _ => []
      end
  end.

(** How a run with these writes ends: with the first exception, if any. *)
Fixpoint ending (env : environment) (outputs : list event) : result unit :=
  match outputs with
  | [] => Ok tt
  | o :: rest =>
      match env o with
      | Ok _ => ending env rest
      | Raise x => Raise x
      end
  end.

(** A trace cut at its first write that raises. *)
Fixpoint attempt (env : environment) (trace : list event) : outcome :=
  match trace with
  | [] => ([], Ok tt)
  | e :: rest =>
      match (if writes_output e then env e else Ok tt) with
      | Ok _ => (e :: fst (attempt env rest), snd (attempt env rest))
      | Raise x => ([], Raise x)
      end
  end.

(** An environment in which the disk is full once the timeline is saved. *)
Definition full_after_timeline : environment :=
  fun e =>
    match e with
    | SaveFig file =>
        if str_eqb file (u "timeline.png") then Ok tt
        else Raise (OSError (u "No space left on device"))
    | _ => Ok tt
    end.

End Fallible.

(** * Properties *)

(** ** Strings *)

Lemma str_eqb_eq (a b : str) : str_eqb a b = true <-> a = b.
Proof.
  revert b; induction a as [|x a IH]; intros [|y b]; simpl; split;
    try congruence; try reflexivity.
  - intros H. apply andb_true_iff in H as [Hx Hab].
    apply N.eqb_eq in Hx. apply IH in Hab. congruence.
  - intros H. injection H as -> ->. rewrite N.eqb_refl. simpl.
    now apply IH.
Qed.

Lemma str_eqb_refl (a : str) : str_eqb a a = true.
Proof. now apply str_eqb_eq. Qed.

Lemma str_eqb_neq (a b : str) : str_eqb a b = false <-> a <> b.
Proof.
  split.
  - intros H E. apply str_eqb_eq in E. congruence.
  - intros H. destruct (str_eqb a b) eqn:E; [|reflexivity].
    apply str_eqb_eq in E. contradiction.
Qed.

Lemma str_eqb_sym (a b : str) : str_eqb a b = str_eqb b a.
Proof.
  destruct (str_eqb a b) eqn:E.
  - apply str_eqb_eq in E. subst. now rewrite str_eqb_refl.
  - symmetry. apply str_eqb_neq. apply str_eqb_neq in E. congruence.
Qed.

(** ** Dicts and counters *)

Section DictFacts.
Variable V : Type.
Implicit Types (d : dict V) (k : str) (v : V).

Lemma get_set_same d k v : get (set d k v) k = Some v.
Proof.
  induction d as [|[k' v'] d IH]; simpl.
  - now rewrite str_eqb_refl.
  - destruct (str_eqb k' k) eqn:E; simpl; now rewrite E.
Qed.

Lemma get_set_other d k k' v : k <> k' -> get (set d k v) k' = get d k'.
Proof.
  intros Hne. induction d as [|[k0 v0] d IH]; simpl.
  - apply str_eqb_neq in Hne. now rewrite Hne.
  - destruct (str_eqb k0 k) eqn:E; simpl.
    + apply str_eqb_eq in E. subst k0.
      apply str_eqb_neq in Hne. now rewrite Hne.
    + now rewrite IH.
Qed.

Lemma get_default_set_same d k v dflt : get_default (set d k v) k dflt = v.
Proof. unfold get_default. now rewrite get_set_same. Qed.

Lemma get_default_set_other d k k' v dflt :
  k <> k' -> get_default (set d k v) k' dflt = get_default d k' dflt.
Proof. intros H. unfold get_default. now rewrite get_set_other. Qed.

Lemma get_Forall (P : V -> Prop) d k v :
  Forall (fun kv => P (snd kv)) d -> get d k = Some v -> P v.
Proof.
  induction 1 as [|[k0 v0] d H0 _ IH]; simpl; [discriminate|].
  destruct (str_eqb k0 k); [|exact IH].
  intros E. injection E as <-. exact H0.
Qed.

Lemma set_Forall (P : V -> Prop) d k v :
  Forall (fun kv => P (snd kv)) d -> P v ->
  Forall (fun kv => P (snd kv)) (set d k v).
Proof.
  intros Hd Hv. induction Hd as [|[k0 v0] d H0 Hd IH]; simpl.
  - constructor; [exact Hv|constructor].
  - destruct (str_eqb k0 k); constructor; auto.
Qed.

End DictFacts.

Lemma sumZ_values_set (c : Counter) (k : str) (v : Z) :
  sumZ (values (set c k v)) = (sumZ (values c) - get_default c k 0 + v)%Z.
Proof.
  unfold get_default. induction c as [|[k0 v0] c IH]; simpl.
  - lia.
  - destruct (str_eqb k0 k); simpl; [lia|].
    rewrite IH. lia.
Qed.

Lemma sumZ_values_incr (c : Counter) (k : str) :
  sumZ (values (incr c k)) = (sumZ (values c) + 1)%Z.
Proof. unfold incr. rewrite sumZ_values_set. lia. Qed.

Lemma get_default_incr (c : Counter) (k k' : str) :
  get_default (incr c k) k' 0%Z =
  (get_default c k' 0 + if str_eqb k' k then 1 else 0)%Z.
Proof.
  unfold incr. destruct (str_eqb k' k) eqn:E.
  - apply str_eqb_eq in E. subst k'. rewrite get_default_set_same. lia.
  - apply str_eqb_neq in E. rewrite get_default_set_other by congruence. lia.
Qed.

Lemma sumZ_values_fold_incr (l : list str) (c : Counter) :
  sumZ (values (fold_left incr l c)) = (sumZ (values c) + Z.of_nat (length l))%Z.
Proof.
  revert c; induction l as [|x l IH]; intros c; simpl fold_left.
  - simpl. lia.
  - rewrite IH, sumZ_values_incr. simpl length. lia.
Qed.

Lemma get_default_fold_incr (l : list str) (c : Counter) (k : str) :
  get_default (fold_left incr l c) k 0%Z =
  (get_default c k 0 + Z.of_nat (occurrences k l))%Z.
Proof.
  revert c; induction l as [|x l IH]; intros c; simpl fold_left.
  - unfold occurrences. simpl. lia.
  - rewrite IH, get_default_incr. unfold occurrences. simpl filter.
    destruct (str_eqb k x); simpl length; lia.
Qed.

Lemma Counter_of_get (l : list str) (k : str) :
  get_default (Counter_of l) k 0%Z = Z.of_nat (occurrences k l).
Proof. unfold Counter_of. now rewrite get_default_fold_incr. Qed.

Lemma Counter_of_sum (l : list str) :
  sumZ (values (Counter_of l)) = Z.of_nat (length l).
Proof. unfold Counter_of. now rewrite sumZ_values_fold_incr. Qed.

(** ** The matcher: the threads of each construct *)

Lemma star_greedy_In (p : char -> bool) (s s' : str) :
  In s' (star_greedy p s) <-> exists x, s = x ++ s' /\ forallb p x = true.
Proof.
  revert s'; induction s as [|c t IH]; intros s'; simpl.
  - split.
    + intros [<-|[]]. now exists [].
    + intros [x [E _]]. left. symmetry in E.
      apply app_eq_nil in E. symmetry. tauto.
  - destruct (p c) eqn:Pc.
    + rewrite in_app_iff, IH. simpl. split.
      * intros [[x [-> Hx]]|[<-|[]]].
        -- exists (c :: x). simpl. now rewrite Pc.
        -- now exists [].
      * intros [[|y x] [E Hx]]; simpl in *.
        -- right. left. exact E.
        -- injection E as <- ->. left. exists x.
           apply andb_true_iff in Hx. tauto.
    + simpl. split.
      * intros [<-|[]]. now exists [].
      * intros [[|y x] [E Hx]]; simpl in *.
        -- left. exact E.
        -- injection E as <- ->. rewrite Pc in Hx. discriminate.
Qed.

Lemma star_lazy_In (p : char -> bool) (s s' : str) :
  In s' (star_lazy p s) <-> exists x, s = x ++ s' /\ forallb p x = true.
Proof.
  revert s'; induction s as [|c t IH]; intros s'; simpl.
  - split.
    + intros [<-|[]]. now exists [].
    + intros [x [E _]]. left. symmetry in E.
      apply app_eq_nil in E. symmetry. tauto.
  - split.
    + intros [<-|H]; [now exists []|].
      destruct (p c) eqn:Pc; [|contradiction].
      apply IH in H as [x [-> Hx]]. exists (c :: x). simpl. now rewrite Pc.
    + intros [[|y x] [E Hx]]; simpl in *.
      * left. exact E.
      * injection E as <- ->. apply andb_true_iff in Hx as [Pc Hx].
        right. rewrite Pc. apply IH. now exists x.
Qed.

Lemma plus_with_In (star : (char -> bool) -> str -> list str)
    (p : char -> bool) (s s' : str) :
  (forall t t', In t' (star p t) <-> exists x, t = x ++ t' /\ forallb p x = true) ->
  In s' (plus_with star p s) <->
  exists x, s = x ++ s' /\ forallb p x = true /\ x <> [].
Proof.
  intros Hstar. unfold plus_with. destruct s as [|c t].
  - split; [contradiction|]. intros [x [E [_ Hne]]].
    symmetry in E. apply app_eq_nil in E. tauto.
  - destruct (p c) eqn:Pc.
    + rewrite Hstar. split.
      * intros [x [-> Hx]]. exists (c :: x). simpl. rewrite Pc.
        repeat split; [exact Hx|discriminate].
      * intros [[|y x] [E [Hx Hne]]]; [contradiction|].
        simpl in *. injection E as <- ->.
        apply andb_true_iff in Hx. exists x. tauto.
    + split; [contradiction|].
      intros [[|y x] [E [Hx Hne]]]; [contradiction|].
      simpl in *. injection E as <- ->. rewrite Pc in Hx. discriminate.
Qed.

Lemma run_lits (l : str) (cap : option str) (s : str) :
  run (lits l) cap s =
  if startswith l s then [(cap, skipn (length l) s)] else [].
Proof.
  revert s; induction l as [|c l IH]; intros s; simpl.
  - reflexivity.
  - destruct s as [|x s]; [reflexivity|]. rewrite (N.eqb_sym c x).
    destruct (x =? c)%N; simpl; [|reflexivity].
    rewrite IH. now rewrite app_nil_r.
Qed.

Lemma startswith_app (l s : str) :
  startswith l s = true <-> exists t, s = l ++ t.
Proof.
  revert s; induction l as [|c l IH]; intros s; simpl.
  - split; [now exists s|reflexivity].
  - destruct s as [|x s].
    + split; [discriminate|]. intros [t E]. discriminate.
    + rewrite andb_true_iff, N.eqb_eq, IH. split.
      * intros [-> [t ->]]. now exists t.
      * intros [t E]. injection E as -> ->. split; [reflexivity|now exists t].
Qed.

Lemma startswith_self (l t : str) : startswith l (l ++ t) = true.
Proof. apply startswith_app. now exists t. Qed.

Lemma skipn_self (l t : str) : skipn (length l) (l ++ t) = t.
Proof. induction l; simpl; auto. Qed.

Lemma run_lits_In (l : str) (cap : option str) (s : str) (th : thread) :
  In th (run (lits l) cap s) <-> th = (cap, skipn (length l) s) /\ s = l ++ snd th.
Proof.
  rewrite run_lits. destruct (startswith l s) eqn:E.
  - apply startswith_app in E as [t ->]. rewrite skipn_self. simpl.
    split.
    + intros [<-|[]]. now split.
    + intros [-> _]. now left.
  - split; [contradiction|]. intros [_ Hs].
    assert (startswith l s = true) by (apply startswith_app; eauto).
    congruence.
Qed.

Lemma firstn_consumed (x rest : str) :
  firstn (length (x ++ rest) - length rest) (x ++ rest) = x.
Proof.
  rewrite length_app. replace (length x + length rest - length rest)%nat
    with (length x + 0)%nat by lia.
  rewrite firstn_app_2. simpl. apply app_nil_r.
Qed.

Lemma firstn_consumed_1 (c : char) (rest : str) :
  firstn (length (c :: rest) - length rest) (c :: rest) = [c].
Proof. exact (firstn_consumed [c] rest). Qed.

Lemma run_Cat_In (r1 r2 : regex) (cap : option str) (s : str) (th : thread) :
  In th (run (Cat r1 r2) cap s) <->
  exists th1, In th1 (run r1 cap s) /\ In th (run r2 (fst th1) (snd th1)).
Proof. cbn [run]. apply in_flat_map. Qed.

Lemma run_Opt_In (r : regex) (cap : option str) (s : str) (th : thread) :
  In th (run (Opt r) cap s) <-> In th (run r cap s) \/ th = (cap, s).
Proof.
  cbn [run]. rewrite in_app_iff. simpl. intuition congruence.
Qed.

Lemma run_Lit_In (c : char) (cap : option str) (s : str) (th : thread) :
  In th (run (Lit c) cap s) <-> s = c :: snd th /\ fst th = cap.
Proof.
  cbn [run]. destruct s as [|x t].
  - split; [contradiction|]. intros [E _]. discriminate.
  - destruct (N.eqb_spec x c) as [->|Hne]; simpl.
    + split.
      * intros [<-|[]]. now split.
      * intros [E <-]. injection E as ->. left. now destruct th.
    + split; [contradiction|]. intros [E _]. congruence.
Qed.

Lemma run_Cls_In (p : char -> bool) (cap : option str) (s : str) (th : thread) :
  In th (run (Cls p) cap s) <->
  exists x, s = x :: snd th /\ p x = true /\ fst th = cap.
Proof.
  cbn [run]. destruct s as [|x t].
  - split; [contradiction|]. intros [y [E _]]. discriminate.
  - destruct (p x) eqn:Px; simpl.
    + split.
      * intros [<-|[]]. now exists x.
      * intros [y [E [_ <-]]]. injection E as -> ->. left. now destruct th.
    + split; [contradiction|]. intros [y [E [Py _]]]. congruence.
Qed.

Lemma run_Plus_In (p : char -> bool) (cap : option str) (s : str) (th : thread) :
  In th (run (Plus p) cap s) <->
  fst th = cap /\
  exists x, s = x ++ snd th /\ forallb p x = true /\ x <> [].
Proof.
  cbn [run]. rewrite in_map_iff. split.
  - intros [s' [<- H]]. split; [reflexivity|].
    now apply (plus_with_In star_greedy p s s' (star_greedy_In p)).
  - intros [<- H]. exists (snd th). split; [now destruct th|].
    now apply (plus_with_In star_greedy p s (snd th) (star_greedy_In p)).
Qed.

Lemma run_PlusLazy_In (p : char -> bool) (cap : option str) (s : str) (th : thread) :
  In th (run (PlusLazy p) cap s) <->
  fst th = cap /\
  exists x, s = x ++ snd th /\ forallb p x = true /\ x <> [].
Proof.
  cbn [run]. rewrite in_map_iff. split.
  - intros [s' [<- H]]. split; [reflexivity|].
    now apply (plus_with_In star_lazy p s s' (star_lazy_In p)).
  - intros [<- H]. exists (snd th). split; [now destruct th|].
    now apply (plus_with_In star_lazy p s (snd th) (star_lazy_In p)).
Qed.

Lemma run_Star_In (p : char -> bool) (cap : option str) (s : str) (th : thread) :
  In th (run (Star p) cap s) <->
  fst th = cap /\ exists x, s = x ++ snd th /\ forallb p x = true.
Proof.
  cbn [run]. rewrite in_map_iff. split.
  - intros [s' [<- H]]. split; [reflexivity|]. now apply star_greedy_In.
  - intros [<- H]. exists (snd th). split; [now destruct th|].
    now apply star_greedy_In.
Qed.

Lemma run_Group_In (r : regex) (cap : option str) (s : str) (th : thread) :
  In th (run (Group r) cap s) <->
  exists th', In th' (run r cap s) /\
              th = (Some (firstn (length s - length (snd th')) s), snd th').
Proof.
  cbn [run]. rewrite in_map_iff. split.
  - intros [th' [<- H]]. now exists th'.
  - intros [th' [H ->]]. now exists th'.
Qed.

Lemma run_Cat_lits (l : str) (r : regex) (cap : option str) (s : str) :
  run (Cat (lits l) r) cap s =
  if startswith l s then run r cap (skipn (length l) s) else [].
Proof.
  cbn [run]. rewrite run_lits. destruct (startswith l s); simpl; [|reflexivity].
  apply app_nil_r.
Qed.

(** ** Searching *)

Lemma match_at_first (r : regex) (pos : nat) (s : str) :
  match_at r false pos s =
  match run r None s with
  | (cap, rest) :: _ =>
      Some (mkMatch pos (firstn (length s - length rest) s) cap rest)
  | [] => None
  end.
Proof.
  unfold match_at. destruct (run r None s) as [|[cap rest] l]; reflexivity.
Qed.

Lemma match_at_thread (r : regex) (b : bool) (pos : nat) (s : str) (m : Match) :
  match_at r b pos s = Some m ->
  In (group1 m, tail m) (run r None s) /\
  group0 m = firstn (length s - length (tail m)) s /\ start m = pos.
Proof.
  unfold match_at.
  match goal with
  | |- context [find ?f ?l] => destruct (find f l) as [[cap rest]|] eqn:E
  end; [|discriminate].
  intros H. injection H as <-. simpl. apply find_some in E. tauto.
Qed.

Lemma search_from_thread (r : regex) (b : bool) (pos : nat) (s : str) (m : Match) :
  search_from r b pos s = Some m ->
  exists pre rest, s = pre ++ rest /\ In (group1 m, tail m) (run r None rest).
Proof.
  revert b pos; induction s as [|c t IH]; intros b pos; cbn [search_from].
  - destruct (match_at r b pos []) eqn:E; [|discriminate].
    intros H. injection H as ->. exists [], []. split; [reflexivity|].
    now apply match_at_thread in E.
  - destruct (match_at r b pos (c :: t)) eqn:E.
    + intros H. injection H as ->. exists [], (c :: t). split; [reflexivity|].
      now apply match_at_thread in E.
    + intros H. apply IH in H as [pre [rest [-> H]]].
      now exists (c :: pre), rest.
Qed.

Lemma search_from_none (r : regex) (pos : nat) (s : str) :
  search_from r false pos s = None <->
  forall pre rest, s = pre ++ rest -> run r None rest = [].
Proof.
  revert pos; induction s as [|c t IH]; intros pos; cbn [search_from];
    rewrite match_at_first.
  - split.
    + intros H pre rest E. symmetry in E. apply app_eq_nil in E as [-> ->].
      destruct (run r None []) as [|[? ?] ?]; [reflexivity|discriminate].
    + intros H. now rewrite (H [] []).
  - split.
    + intros H pre rest E.
      destruct (run r None (c :: t)) as [|[? ?] ?] eqn:R; [|discriminate].
      destruct pre as [|x pre]; simpl in E.
      * now subst rest.
      * injection E as -> ->. apply (proj1 (IH (S pos)) H pre). reflexivity.
    + intros H. rewrite (H [] (c :: t)) by reflexivity.
      apply IH. intros pre rest ->. apply (H (c :: pre)). reflexivity.
Qed.

Lemma search_from_found (r : regex) (pos : nat) (pre rest : str) (m : Match) :
  (forall p1 r1, pre ++ rest = p1 ++ r1 -> (length p1 < length pre)%nat ->
                 run r None r1 = []) ->
  match_at r false (pos + length pre) rest = Some m ->
  search_from r false pos (pre ++ rest) = Some m.
Proof.
  revert pos; induction pre as [|c pre IH]; intros pos Hbefore Hm.
  - simpl in *. rewrite Nat.add_0_r in Hm.
    destruct rest; cbn [search_from]; now rewrite Hm.
  - cbn [app search_from]. rewrite match_at_first.
    rewrite (Hbefore [] (c :: pre ++ rest)) by (simpl; auto; lia).
    apply IH.
    + intros p1 r1 E Hlen. apply (Hbefore (c :: p1)).
      * simpl. now rewrite E.
      * simpl. lia.
    + simpl in Hm. now rewrite Nat.add_succ_r in Hm.
Qed.

Lemma search_from_some (r : regex) (pos : nat) (s : str) (m : Match) :
  search_from r false pos s = Some m ->
  exists pre rest,
    s = pre ++ rest /\
    match_at r false (pos + length pre) rest = Some m /\
    forall p1 r1, s = p1 ++ r1 -> (length p1 < length pre)%nat ->
                  run r None r1 = [].
Proof.
  revert pos; induction s as [|c t IH]; intros pos; cbn [search_from].
  - destruct (match_at r false pos []) eqn:E; [|discriminate].
    intros H. injection H as ->. exists [], []. simpl.
    rewrite Nat.add_0_r. repeat split; auto. intros; lia.
  - destruct (match_at r false pos (c :: t)) eqn:E.
    + intros H. injection H as ->. exists [], (c :: t). simpl.
      rewrite Nat.add_0_r. repeat split; auto. intros; lia.
    + intros H. apply IH in H as [pre [rest [-> [Hm Hbefore]]]].
      exists (c :: pre), rest. simpl. rewrite Nat.add_succ_r.
      repeat split; auto.
      intros [|x p1] r1 E1 Hlen.
      * simpl in E1. subst r1. rewrite match_at_first in E.
        destruct (run r None (c :: pre ++ rest)) as [|[? ?] ?];
          [reflexivity|discriminate].
      * simpl in E1. injection E1 as <- E1. apply (Hbefore p1 r1 E1).
        simpl in Hlen. lia.
Qed.

Lemma findall_from_Forall (P : str -> Prop) (r : regex) :
  (forall s cap rest, In (cap, rest) (run r None s) ->
                      P (match cap with Some g => g | None => [] end)) ->
  forall fuel b s, Forall P (findall_from fuel r b s).
Proof.
  intros Hr. induction fuel as [|fuel IH]; intros b s; cbn [findall_from].
  - constructor.
  - destruct (search_from r b 0 s) as [m|] eqn:E; [|constructor].
    constructor; [|apply IH].
    apply search_from_thread in E as [pre [rest [_ Hin]]].
    exact (Hr _ _ _ Hin).
Qed.

(** ** The title pattern *)

Lemma until_colon_spec (t g r : str) :
  until_colon t = Some (g, r) <->
  t = g ++ colon :: r /\ ~ In colon g /\ forallb dot g = true.
Proof.
  revert g; induction t as [|c t IH]; intros g; cbn [until_colon].
  - split; [discriminate|]. intros [E _]. destruct g; discriminate.
  - destruct (N.eqb_spec c colon) as [->|Hc].
    + split.
      * intros H. injection H as <- <-. simpl. auto.
      * intros [E [Hno _]]. destruct g as [|y g]; simpl in E.
        -- injection E as ->. reflexivity.
        -- injection E as <- _. exfalso. apply Hno. now left.
    + destruct (dot c) eqn:Dc.
      * destruct (until_colon t) as [[g0 r0]|] eqn:U.
        -- split.
           ++ intros H. injection H as <- <-.
              destruct (proj1 (IH g0) eq_refl) as [-> [Hno Hd]].
              simpl. rewrite Dc. repeat split; auto.
              intros [E|Hin]; [congruence|contradiction].
           ++ intros [E [Hno Hd]]. destruct g as [|y g]; simpl in E.
              ** injection E as -> _. congruence.
              ** injection E as <- E. simpl in Hd.
                 apply andb_true_iff in Hd as [_ Hd].
                 assert (H : Some (g0, r0) = Some (g, r)).
                 { apply IH. repeat split; auto. intros Hin. apply Hno. now right. }
                 injection H as -> ->. reflexivity.
        -- split; [discriminate|]. intros [E [Hno Hd]].
           destruct g as [|y g]; simpl in E.
           ++ injection E as -> _. congruence.
           ++ injection E as <- E. simpl in Hd.
              apply andb_true_iff in Hd as [_ Hd].
              assert (H : None = Some (g, r)).
              { apply IH. repeat split; auto. intros Hin. apply Hno. now right. }
              discriminate.
      * split; [discriminate|]. intros [E [_ Hd]].
        destruct g as [|y g]; simpl in E.
        -- injection E as -> _. congruence.
        -- injection E as <- _. simpl in Hd. rewrite Dc in Hd. discriminate.
Qed.

Lemma title_threads_head (x t : str) :
  hd_error (title_threads x t) =
  match until_colon t with
  | Some (g, r) => Some (Some (x ++ g), r)
  | None => None
  end.
Proof.
  revert x; induction t as [|c t IH]; intros x.
  - reflexivity.
  - unfold title_threads. cbn [star_lazy List.map flat_map fst snd run until_colon].
    destruct (N.eqb_spec c colon) as [->|Hc].
    + cbn [app hd_error]. rewrite firstn_consumed, app_nil_r. reflexivity.
    + cbn [app]. destruct (dot c).
      * replace (x ++ c :: t) with ((x ++ [c]) ++ t) by now rewrite <- app_assoc.
        match goal with
        | |- hd_error ?l = _ => change l with (title_threads (x ++ [c]) t)
        end.
        rewrite IH.
        destruct (until_colon t) as [[g r]|]; [|reflexivity].
        now rewrite <- app_assoc.
      * reflexivity.
Qed.

Lemma run_title (t : str) :
  run TITLE_RE None (TITLE_OPEN ++ t) =
  match t with
  | c :: t' => if dot c then title_threads [c] t' else []
  | [] => []
  end.
Proof.
  unfold TITLE_RE. change (u "# 実験 ") with TITLE_OPEN.
  rewrite run_Cat_lits, startswith_self, skipn_self. cbn [run].
  destruct t as [|c t']; [reflexivity|]. unfold plus_with.
  destruct (dot c); [|reflexivity]. rewrite map_map. reflexivity.
Qed.

Lemma title_thread (s : str) (cap : option str) (rest : str) :
  In (cap, rest) (run TITLE_RE None s) <->
  exists g, s = TITLE_OPEN ++ g ++ colon :: rest /\
            g <> [] /\ forallb dot g = true /\ cap = Some g.
Proof.
  unfold TITLE_RE. change (u "# 実験 ") with TITLE_OPEN. split.
  - intros H.
    apply run_Cat_In in H as [[c1 s1] [H1 H]]. cbn [fst snd] in H.
    apply run_lits_In in H1 as [_ ->]. cbn [snd].
    apply run_Cat_In in H as [[c2 s2] [H2 H]]. cbn [fst snd] in H.
    apply run_Group_In in H2 as [[c2' s2'] [H2 E2]].
    apply run_PlusLazy_In in H2 as [_ [g [-> [Hd Hne]]]]. cbn [fst snd] in *.
    rewrite firstn_consumed in E2. injection E2 as -> ->.
    apply run_Lit_In in H as [-> E]. cbn [fst snd] in *. exists g. auto.
  - intros [g [-> [Hne [Hd ->]]]].
    apply run_Cat_In. exists (None, g ++ colon :: rest).
    split; [apply run_lits_In; cbn [snd]; now rewrite skipn_self|].
    cbn [fst snd]. apply run_Cat_In. exists (Some g, colon :: rest). split.
    + apply run_Group_In. exists (None, colon :: rest). split.
      * apply run_PlusLazy_In. cbn [fst snd]. eauto.
      * cbn [snd]. now rewrite firstn_consumed.
    + apply run_Lit_In. auto.
Qed.

(** What [re.search] finds for the title pattern. *)
Lemma search_title_first (content pre g post : str) :
  first_title content pre g post ->
  exists m, search TITLE_RE content = Some m /\ group1 m = Some g.
Proof.
  intros [[-> [Hne Hd]] [Hno Hfirst]].
  destruct g as [|c g']; [contradiction|]. cbn [List.tl] in Hno.
  simpl in Hd. apply andb_true_iff in Hd as [Dc Hd].
  assert (Hu : until_colon (g' ++ colon :: post) = Some (g', post))
    by (apply until_colon_spec; auto).
  assert (Hhd : hd_error (run TITLE_RE None (TITLE_OPEN ++ (c :: g') ++ colon :: post))
                = Some (Some (c :: g'), post)).
  { rewrite run_title. cbn [app]. rewrite Dc, title_threads_head, Hu. reflexivity. }
  destruct (run TITLE_RE None (TITLE_OPEN ++ (c :: g') ++ colon :: post))
    as [|th tl] eqn:R; [discriminate|]. injection Hhd as ->.
  assert (Hs : search TITLE_RE (pre ++ TITLE_OPEN ++ (c :: g') ++ colon :: post) =
               Some (mkMatch (0 + length pre)
                       (firstn (length (TITLE_OPEN ++ (c :: g') ++ colon :: post)
                                - length post)
                               (TITLE_OPEN ++ (c :: g') ++ colon :: post))
                       (Some (c :: g')) post)).
  { unfold search. apply search_from_found.
    - intros p1 r1 E Hlen.
      destruct (run TITLE_RE None r1) as [|[cap rest] l] eqn:R1; [reflexivity|].
      assert (Hy : In (cap, rest) (run TITLE_RE None r1)) by (rewrite R1; now left).
      apply title_thread in Hy as [g1 [-> [Hne1 [Hd1 _]]]].
      assert (Ht : title_at (pre ++ TITLE_OPEN ++ (c :: g') ++ colon :: post)
                            p1 g1 rest) by (repeat split; auto).
      specialize (Hfirst _ _ _ Ht). lia.
    - rewrite match_at_first, R. reflexivity. }
  eexists. split; [exact Hs|reflexivity].
Qed.

Lemma search_title_none (content : str) :
  search TITLE_RE content = None <->
  forall pre g post, ~ title_at content pre g post.
Proof.
  unfold search. rewrite search_from_none. split.
  - intros H pre g post [-> [Hne Hd]].
    assert (Hin : In (Some g, post)
                     (run TITLE_RE None (TITLE_OPEN ++ g ++ colon :: post)))
      by (apply title_thread; eauto).
    rewrite (H pre _ eq_refl) in Hin. contradiction.
  - intros H pre rest ->.
    destruct (run TITLE_RE None rest) as [|[cap r] l] eqn:R; [reflexivity|].
    assert (Hy : In (cap, r) (run TITLE_RE None rest)) by (rewrite R; now left).
    apply title_thread in Hy as [g [-> [Hne [Hd _]]]].
    exfalso. apply (H pre g r). repeat split; auto.
Qed.

Lemma search_title_some (content : str) (m : Match) :
  search TITLE_RE content = Some m ->
  exists pre g post, first_title content pre g post /\ group1 m = Some g.
Proof.
  unfold search. intros H.
  apply search_from_some in H as [pre [rest [-> [Hm Hbefore]]]].
  rewrite match_at_first in Hm.
  destruct (run TITLE_RE None rest) as [|[cap r] l] eqn:R; [discriminate|].
  injection Hm as <-. cbn [group1].
  assert (Hy : In (cap, r) (run TITLE_RE None rest)) by (rewrite R; now left).
  apply title_thread in Hy as [g [-> [Hne [Hd ->]]]].
  assert (Hhd : hd_error (run TITLE_RE None (TITLE_OPEN ++ g ++ colon :: r))
                = Some (Some g, r)) by now rewrite R.
  rewrite run_title in Hhd.
  destruct g as [|c g']; [contradiction|]. cbn [app] in Hhd.
  simpl in Hd. apply andb_true_iff in Hd as [Dc Hd]. rewrite Dc in Hhd.
  rewrite title_threads_head in Hhd.
  destruct (until_colon (g' ++ colon :: r)) as [[g1 r1]|] eqn:U; [|discriminate].
  assert (Hg : g1 = g') by (cbn [app] in Hhd; congruence).
  assert (Hr : r1 = r) by congruence. subst g1 r1. clear Hhd.
  apply until_colon_spec in U as [_ [Hno _]].
  exists pre, (c :: g'), r. split; [|reflexivity]. split; [|split].
  - split; [reflexivity|]. split; [discriminate|]. simpl. now rewrite Dc.
  - exact Hno.
  - intros pre' g2 post' [E [Hne2 Hd2]].
    destruct (le_lt_dec (length pre) (length pre')) as [Hle|Hlt]; [exact Hle|].
    exfalso.
    assert (Hin : In (Some g2, post')
                     (run TITLE_RE None (TITLE_OPEN ++ g2 ++ colon :: post')))
      by (apply title_thread; eauto).
    rewrite (Hbefore pre' _ E Hlt) in Hin. contradiction.
Qed.

Lemma id_without_title (stem content : str) :
  (forall pre g post, ~ title_at content pre g post) ->
  id (parse_content stem content) = Some stem.
Proof.
  intros H. apply search_title_none in H.
  unfold parse_content. cbn [id]. now rewrite H.
Qed.

Lemma id_with_title (stem content pre g post : str) :
  first_title content pre g post ->
  (strip g <> [] -> strip g <> PLACEHOLDER_ID ->
   id (parse_content stem content) = Some (strip g)) /\
  (strip g = [] \/ strip g = PLACEHOLDER_ID ->
   id (parse_content stem content) = Some stem).
Proof.
  intros H. apply search_title_first in H as [m [Hm Hcap]].
  unfold parse_content. cbn [id]. rewrite Hm. unfold group. rewrite Hcap.
  destruct (strip g) as [|c t] eqn:S.
  - split; [congruence|reflexivity].
  - destruct (str_eqb (c :: t) PLACEHOLDER_ID) eqn:E; cbn [negb].
    + apply str_eqb_eq in E. split; [congruence|reflexivity].
    + apply str_eqb_neq in E. split; [reflexivity|].
      intros [H|H]; [discriminate|contradiction].
Qed.

Lemma id_nonempty (stem content : str) :
  stem <> [] ->
  exists v, id (parse_content stem content) = Some v /\ v <> [].
Proof.
  intros Hstem. unfold parse_content. cbn [id].
  destruct (search TITLE_RE content) as [m|]; [|now exists stem].
  destruct (strip (group m)) as [|c t]; [now exists stem|].
  destruct (str_eqb (c :: t) PLACEHOLDER_ID); cbn [negb]; [now exists stem|].
  exists (c :: t). split; [reflexivity|discriminate].
Qed.

Lemma stem_nonempty (name : str) : name <> [] -> stem name <> [].
Proof.
  intros Hname. unfold stem.
  destruct (rfind 46%N name 0) as [i|]; [|exact Hname].
  destruct ((0 <? i) && (i <? length name - 1)) eqn:E; [|exact Hname].
  apply andb_true_iff in E as [Hi _]. apply Nat.ltb_lt in Hi.
  destruct i as [|i]; [lia|]. destruct name; [contradiction|discriminate].
Qed.

(** C7: when the document has a title heading, its id text is the one
    [re.search] settles on; trimmed, it becomes the record's id if it is
    neither empty nor the placeholder ID; in every other case the id is the
    file name's stem, and a non-empty stem gives a non-empty id. *)
Theorem id_from_title (stem content : str) :
  (forall pre g post,
     first_title content pre g post ->
     (strip g <> [] -> strip g <> PLACEHOLDER_ID ->
      id (parse_content stem content) = Some (strip g)) /\
     (strip g = [] \/ strip g = PLACEHOLDER_ID ->
      id (parse_content stem content) = Some stem)) /\
  ((forall pre g post, ~ title_at content pre g post) ->
   id (parse_content stem content) = Some stem) /\
  ((exists pre g post, first_title content pre g post) \/
   (forall pre g post, ~ title_at content pre g post)) /\
  (stem <> [] -> exists v, id (parse_content stem content) = Some v /\ v <> []).
Proof.
  split; [intros pre g post; apply id_with_title|].
  split; [apply id_without_title|].
  assert (Hcases : (exists pre g post, first_title content pre g post) \/
                   (forall pre g post, ~ title_at content pre g post)).
  { destruct (search TITLE_RE content) as [m|] eqn:E.
    - left. apply search_title_some in E as [pre [g [post [H _]]]]. eauto.
    - right. now apply search_title_none. }
  split; [exact Hcases|apply id_nonempty].
Qed.

(** C7 on a heading whose id text needs trimming, and on the placeholder. *)
Lemma id_from_title_witness :
  id (parse_content (u "001") (u "# 実験  042 : first run")) = Some (u "042") /\
  id (parse_content (u "001") (u "# 実験 ID: template")) = Some (u "001").
Proof.
  split.
  - apply (proj1 (id_from_title (u "001") (u "# 実験  042 : first run"))
             [] (u " 042 ") (u " first run")).
    + split; [|split].
      * split; [reflexivity|]. split; [discriminate|reflexivity].
      * vm_compute. intuition discriminate.
      * intros pre' g' post' _. apply Nat.le_0_l.
    + vm_compute. discriminate.
    + vm_compute. discriminate.
  - apply (proj1 (id_from_title (u "001") (u "# 実験 ID: template"))
             [] (u "ID") (u " template")).
    + split; [|split].
      * split; [reflexivity|]. split; [discriminate|reflexivity].
      * vm_compute. intuition discriminate.
      * intros pre' g' post' _. apply Nat.le_0_l.
    + right. reflexivity.
Defined.

(** ** The rating pattern *)

Lemma hd_unique (A : Type) (l : list A) (x : A) :
  In x l -> (forall y, In y l -> y = x) -> exists tl, l = x :: tl.
Proof.
  destruct l as [|y tl]; [contradiction|]. intros _ H.
  exists tl. f_equal. apply H. now left.
Qed.

Lemma rating_thread (s : str) (cap : option str) (rest : str) :
  In (cap, rest) (run RATING_RE None s) <->
  exists g, s = rating_marker g ++ rest /\ rating_glyph g = true /\ cap = Some [g].
Proof.
  unfold RATING_RE, rating_marker.
  change (u "**評価: ") with RATING_OPEN. change (u "**") with RATING_CLOSE.
  split.
  - intros H.
    apply run_Cat_In in H as [[c1 s1] [H1 H]]. cbn [fst snd] in H.
    apply run_lits_In in H1 as [_ ->]. cbn [snd].
    apply run_Cat_In in H as [[c2 s2] [H2 H]]. cbn [fst snd] in H.
    apply run_Group_In in H2 as [[c2' s2'] [H2 E2]].
    apply run_Cls_In in H2 as [g [-> [Hg _]]]. cbn [fst snd] in *.
    rewrite firstn_consumed_1 in E2. injection E2 as -> ->.
    apply run_lits_In in H as [E ->]. cbn [fst snd] in *.
    assert (Hcap : cap = Some [g]) by congruence.
    exists g. rewrite <- !app_assoc. auto.
  - intros [g [-> [Hg ->]]]. rewrite <- !app_assoc.
    apply run_Cat_In. exists (None, [g] ++ RATING_CLOSE ++ rest).
    split; [apply run_lits_In; cbn [snd]; now rewrite skipn_self|].
    cbn [fst snd]. apply run_Cat_In. exists (Some [g], RATING_CLOSE ++ rest).
    split.
    + apply run_Group_In. exists (None, RATING_CLOSE ++ rest). split.
      * apply run_Cls_In. exists g. auto.
      * cbn [snd app]. now rewrite firstn_consumed_1.
    + cbn [fst snd]. apply run_lits_In. cbn [snd]. now rewrite skipn_self.
Qed.

Lemma rating_glyph_cases (g : char) :
  rating_glyph g = true ->
  g = EXCEEDED \/ g = MET \/ g = MET_LEGACY \/ g = BELOW \/ g = FAILED.
Proof.
  unfold rating_glyph. cbn [existsb]. rewrite !orb_true_iff, !N.eqb_eq.
  intuition discriminate.
Qed.

Lemma stored_glyph (g : char) :
  rating_glyph g = true ->
  replace MET_LEGACY MET (strip [g]) = [canonical_glyph g] /\
  In [canonical_glyph g] CANONICAL.
Proof.
  intros H. apply rating_glyph_cases in H.
  destruct H as [-> | [-> | [-> | [-> | ->]]]];
    (split; [reflexivity|]); vm_compute; auto 10.
Qed.

Lemma rating_marker_inj (g g' : char) (rest rest' : str) :
  rating_marker g ++ rest = rating_marker g' ++ rest' -> g = g' /\ rest = rest'.
Proof.
  unfold rating_marker. rewrite <- !app_assoc. intros H.
  apply app_inv_head in H. simpl in H. injection H as -> ->. auto.
Qed.

Lemma search_rating_first (content : str) (g : char) :
  first_rating_marker content g ->
  exists m, search RATING_RE content = Some m /\ group1 m = Some [g].
Proof.
  intros [pre [post [[-> Hg] Hfirst]]].
  assert (Hin : In (Some [g], post) (run RATING_RE None (rating_marker g ++ post))).
  { apply rating_thread. now exists g. }
  destruct (@hd_unique _ _ _ Hin) as [tl Hrun].
  { intros [cap rest] Hy. apply rating_thread in Hy as [g' [E [_ ->]]].
    apply rating_marker_inj in E as [<- <-]. reflexivity. }
  assert (Hs : search RATING_RE (pre ++ rating_marker g ++ post) =
               Some (mkMatch (0 + length pre)
                       (firstn (length (rating_marker g ++ post) - length post)
                               (rating_marker g ++ post))
                       (Some [g]) post)).
  { unfold search. apply search_from_found.
    - intros p1 r1 E Hlen.
      destruct (run RATING_RE None r1) as [|[cap rest] l] eqn:R; [reflexivity|].
      assert (Hy : In (cap, rest) (run RATING_RE None r1)) by (rewrite R; now left).
      apply rating_thread in Hy as [g' [-> [Hg' _]]].
      specialize (Hfirst p1 g' rest (conj E Hg')). lia.
    - rewrite match_at_first, Hrun. reflexivity. }
  eexists. split; [exact Hs|reflexivity].
Qed.

(** C3: a stored rating is one of ◎ ○ △ ❌; the glyph of the first rating
    marker is stored as it is, except 〇, which is stored as ○. *)
Theorem rating_is_canonical (stem content : str) :
  (forall r, rating (parse_content stem content) = Some r -> In r CANONICAL) /\
  (forall g, first_rating_marker content g ->
             rating (parse_content stem content) = Some [canonical_glyph g]) /\
  (first_rating_marker content MET_LEGACY ->
   rating (parse_content stem content) = Some [MET]).
Proof.
  assert (Hg : forall g, first_rating_marker content g ->
             rating (parse_content stem content) = Some [canonical_glyph g]).
  { intros g Hfirst.
    assert (Hglyph : rating_glyph g = true)
      by (destruct Hfirst as [? [? [[_ H] _]]]; exact H).
    apply search_rating_first in Hfirst as [m [Hm Hcap]].
    unfold parse_content. cbn [rating]. rewrite Hm. unfold group. rewrite Hcap.
    f_equal. now apply stored_glyph. }
  split; [|split; [exact Hg|exact (Hg MET_LEGACY)]].
  intros r. unfold parse_content. cbn [rating].
  destruct (search RATING_RE content) as [m|] eqn:E; [|discriminate].
  intros H. injection H as <-.
  apply search_from_thread in E as [pre [rest [_ Hin]]].
  apply rating_thread in Hin as [g [_ [Hglyph Hcap]]].
  unfold group. rewrite Hcap.
  destruct (stored_glyph g Hglyph) as [-> Hin]. exact Hin.
Qed.

(** C3 on a document whose rating marker holds 〇. *)
Lemma rating_is_canonical_witness :
  rating (parse_content (u "001") (u "**評価: 〇**
**タグ:** `x`")) = Some [MET].
Proof.
  apply (proj2 (proj2 (rating_is_canonical (u "001") (u "**評価: 〇**
**タグ:** `x`")))).
  exists [], (u "
**タグ:** `x`"). split.
  - split; reflexivity.
  - intros pre' g' post' _. apply Nat.le_0_l.
Defined.

(** ** The tag pattern *)

Lemma tag_char_spec (c : char) :
  tag_char c = true <-> c <> backtick /\ c <> backslash.
Proof.
  unfold tag_char. rewrite negb_true_iff, orb_false_iff, !N.eqb_neq. tauto.
Qed.

Lemma tag_chars_bare (x : str) :
  x <> [] -> forallb tag_char x = true -> bare_tag x.
Proof.
  intros Hne Hx. split; [exact Hne|]. rewrite forallb_forall in Hx.
  split; intros Hin; apply Hx in Hin; apply tag_char_spec in Hin; tauto.
Qed.

Lemma run_Opt_Lit_In (c : char) (cap : option str) (s : str) (th : thread) :
  In th (run (Opt (Lit c)) cap s) <->
  fst th = cap /\ exists l, s = l ++ snd th /\ (l = [] \/ l = [c]).
Proof.
  rewrite run_Opt_In, run_Lit_In. split.
  - intros [[-> <-] | ->].
    + split; [reflexivity|]. exists [c]. auto.
    + split; [reflexivity|]. exists []. auto.
  - intros [<- [l [-> [-> | ->]]]].
    + right. now destruct th.
    + left. auto.
Qed.

(** The threads of the tag pattern: an opening backtick, a run of tag
    characters, a closing backtick, each backtick after an optional
    backslash. *)
Lemma tag_thread (s : str) (cap : option str) (rest : str) :
  In (cap, rest) (run TAG_RE None s) <->
  exists l x m,
    s = l ++ backtick :: x ++ m ++ backtick :: rest /\
    optional_backslash l /\ optional_backslash m /\
    cap = Some x /\ x <> [] /\ forallb tag_char x = true.
Proof.
  unfold TAG_RE, optional_backslash. split.
  - intros H.
    apply run_Cat_In in H as [[c1 s1] [H1 H]]. cbn [fst snd] in H.
    apply run_Opt_Lit_In in H1 as [E1 [l [-> Hl]]]. cbn [fst snd] in *. subst c1.
    apply run_Cat_In in H as [[c2 s2] [H2 H]]. cbn [fst snd] in H.
    apply run_Lit_In in H2 as [-> E2]. cbn [fst snd] in *. subst c2.
    apply run_Cat_In in H as [[c3 s3] [H3 H]]. cbn [fst snd] in H.
    apply run_Group_In in H3 as [[c3' s3'] [H3 E3]].
    apply run_Plus_In in H3 as [_ [x [-> [Hx Hne]]]]. cbn [fst snd] in *.
    injection E3 as -> ->. rewrite firstn_consumed in H.
    apply run_Cat_In in H as [[c4 s4] [H4 H]]. cbn [fst snd] in H.
    apply run_Opt_Lit_In in H4 as [E4 [m [-> Hm]]]. cbn [fst snd] in *. subst c4.
    apply run_Lit_In in H as [-> E5]. cbn [fst snd] in *. subst cap.
    exists l, x, m. repeat split; auto.
  - intros [l [x [m [-> [Hl [Hm [-> [Hne Hx]]]]]]]].
    apply run_Cat_In. exists (None, backtick :: x ++ m ++ backtick :: rest).
    split; [apply run_Opt_Lit_In; cbn [fst snd]; eauto|]. cbn [fst snd].
    apply run_Cat_In. exists (None, x ++ m ++ backtick :: rest).
    split; [apply run_Lit_In; auto|]. cbn [fst snd].
    apply run_Cat_In. exists (Some x, m ++ backtick :: rest). split.
    + apply run_Group_In. exists (None, m ++ backtick :: rest). split.
      * apply run_Plus_In. cbn [fst snd]. eauto.
      * cbn [snd]. now rewrite firstn_consumed.
    + cbn [fst snd]. apply run_Cat_In. exists (Some x, backtick :: rest).
      split; [apply run_Opt_Lit_In; cbn [fst snd]; eauto|].
      apply run_Lit_In. auto.
Qed.

Lemma findall_tags_bare (s : str) : Forall bare_tag (findall TAG_RE s).
Proof.
  unfold findall. apply findall_from_Forall.
  intros s' cap rest H. apply tag_thread in H as [l [x [m [_ [_ [_ [-> [Hne Hx]]]]]]]].
  now apply tag_chars_bare.
Qed.

(** C10: every tag the extractor stores is non-empty and holds neither a
    backtick nor a backslash; so a token with one of them between its
    delimiters is never stored as that whole token. *)
Theorem tags_are_bare (stem content : str) :
  exists l,
    tags (parse_content stem content) = Some l /\
    Forall (fun tag => tag <> [] /\ ~ In backtick tag /\ ~ In backslash tag) l /\
    forall token,
      In backtick token \/ In backslash token -> ~ In token l.
Proof.
  assert (H : exists l, tags (parse_content stem content) = Some l /\
                        Forall bare_tag l).
  { unfold parse_content. cbn [tags].
    destruct (search TAGS_RE content) as [m|].
    - eexists. split; [reflexivity|]. apply findall_tags_bare.
    - exists []. split; [reflexivity|constructor]. }
  destruct H as [l [Hl Hbare]]. exists l. split; [exact Hl|].
  split; [exact Hbare|].
  intros token Hbad Hin. rewrite Forall_forall in Hbare.
  destruct (Hbare token Hin) as [_ [H1 H2]]. tauto.
Qed.

(** A token with a backslash inside its delimiters yields no tag at all. *)
Example backslash_inside_token :
  tags (parse_content (u "001") (u "**タグ:** `a\b`")) = Some [].
Proof. vm_compute. reflexivity. Qed.

(** ** Scanning the Tags line *)

Lemma split_at_first (c : char) (a b a' b' : str) :
  ~ In c a -> ~ In c a' -> a ++ c :: b = a' ++ c :: b' -> a = a' /\ b = b'.
Proof.
  revert a'; induction a as [|x a IH]; intros [|y a'] Ha Ha' E; simpl in *.
  - injection E as ->. auto.
  - injection E as <- _. exfalso. apply Ha'. now left.
  - injection E as -> _. exfalso. apply Ha. now left.
  - injection E as -> E. destruct (IH a') as [-> ->]; auto.
Qed.

Lemma app_eq_prefix (a b a' b' : str) :
  a ++ b = a' ++ b' -> (length a' <= length a)%nat ->
  exists d, a = a' ++ d /\ b' = d ++ b.
Proof.
  revert a; induction a' as [|y a' IH]; intros a E Hlen; simpl in *.
  - exists a. auto.
  - destruct a as [|x a]; simpl in *; [lia|].
    injection E as -> E. destruct (IH a E) as [d [-> ->]]; [lia|].
    now exists d.
Qed.

Lemma no_earlier_occurrence (marker before rest : str) :
  forallb (fun k => negb (startswith marker (skipn k (before ++ marker ++ rest))))
          (seq 0 (length before)) = true ->
  first_occurrence marker (before ++ marker ++ rest) before.
Proof.
  intros H before' rest' E.
  destruct (le_lt_dec (length before) (length before')) as [Hle|Hlt]; [exact Hle|].
  exfalso. rewrite forallb_forall in H.
  specialize (H (length before')). rewrite E in H.
  rewrite skipn_self, startswith_self in H.
  assert (Hin : In (length before') (seq 0 (length before)))
    by (apply in_seq; lia).
  apply H in Hin. discriminate.
Qed.

Lemma search_leftmost (r : regex) (s : str) (m : Match) (p0 r0 : str) :
  search_from r false 0 s = Some m ->
  s = p0 ++ r0 -> run r None r0 <> [] ->
  exists pre rest,
    s = pre ++ rest /\ (length pre <= length p0)%nat /\
    In (group1 m, tail m) (run r None rest) /\
    group0 m = firstn (length rest - length (tail m)) rest.
Proof.
  intros Hs E Hrun.
  apply search_from_some in Hs as [pre [rest [-> [Hm Hbefore]]]].
  exists pre, rest. split; [reflexivity|].
  apply match_at_thread in Hm as [Hin [Hg0 _]].
  repeat split; auto.
  destruct (le_lt_dec (length pre) (length p0)) as [Hle|Hlt]; [exact Hle|].
  exfalso. apply Hrun. exact (Hbefore _ _ E Hlt).
Qed.

Lemma tag_chars_no (x : str) :
  forallb tag_char x = true -> ~ In backtick x /\ ~ In backslash x.
Proof.
  intros Hx. rewrite forallb_forall in Hx.
  split; intros Hin; apply Hx in Hin; apply tag_char_spec in Hin; tauto.
Qed.

Lemma optional_backslash_no_backtick (l : str) :
  optional_backslash l -> ~ In backtick l.
Proof. intros [->| ->]; simpl; intuition discriminate. Qed.

Lemma tag_run_unique (x x' inner m' : str) :
  ~ In backslash x -> ~ In backslash x' ->
  optional_backslash inner -> optional_backslash m' ->
  x ++ inner = x' ++ m' -> x = x'.
Proof.
  intros Hx Hx' [->| ->] [->| ->] E; rewrite ?app_nil_r in E.
  - exact E.
  - exfalso. apply Hx. rewrite E. apply in_or_app. right. now left.
  - exfalso. apply Hx'. rewrite <- E. apply in_or_app. right. now left.
  - now apply app_inj_tail in E.
Qed.

(** From backtick-free text up to the next delimited token, the search
    yields that token and stops right after its closing backtick. *)
Lemma search_tag_next (text x inner rest : str) :
  ~ In backtick text -> x <> [] -> forallb tag_char x = true ->
  optional_backslash inner ->
  exists m,
    search_from TAG_RE false 0
      (text ++ backtick :: x ++ inner ++ backtick :: rest) = Some m /\
    group1 m = Some x /\ tail m = rest /\ group0 m <> [].
Proof.
  intros Htext Hne Hx Hinner.
  assert (Hin : In (Some x, rest)
                   (run TAG_RE None (backtick :: x ++ inner ++ backtick :: rest))).
  { apply tag_thread. exists [], x, inner. unfold optional_backslash. auto 10. }
  destruct (search_from TAG_RE false 0
              (text ++ backtick :: x ++ inner ++ backtick :: rest))
    as [m|] eqn:Hs.
  2:{ exfalso. rewrite search_from_none in Hs.
      rewrite (Hs text _ eq_refl) in Hin. contradiction. }
  exists m. split; [reflexivity|].
  destruct (@search_leftmost _ _ _ _ _ Hs eq_refl) as [pre [s' [E [Hlen [Hth Hg0]]]]].
  { intros Hnil. rewrite Hnil in Hin. contradiction. }
  destruct (app_eq_prefix _ _ _ _ E Hlen) as [text2 [-> ->]].
  apply tag_thread in Hth as [l [x' [m' [E' [Hl [Hm' [Hcap [Hne' Hx']]]]]]]].
  assert (Htext2 : ~ In backtick text2)
    by (intros H; apply Htext; apply in_or_app; now right).
  destruct (split_at_first backtick _ _ _ _ Htext2
              (optional_backslash_no_backtick Hl) E') as [-> E2].
  destruct (tag_chars_no _ Hx) as [Hx1 Hx2].
  destruct (tag_chars_no _ Hx') as [Hx1' Hx2'].
  rewrite !app_assoc in E2.
  assert (Hxi : ~ In backtick (x ++ inner)).
  { intros H. apply in_app_or in H as [H|H]; [contradiction|].
    now apply (optional_backslash_no_backtick Hinner). }
  assert (Hxm : ~ In backtick (x' ++ m')).
  { intros H. apply in_app_or in H as [H|H]; [contradiction|].
    now apply (optional_backslash_no_backtick Hm'). }
  destruct (split_at_first backtick _ _ _ _ Hxi Hxm E2) as [Ex Er].
  assert (Exx : x = x') by exact (@tag_run_unique _ _ _ _ Hx2 Hx2' Hinner Hm' Ex).
  subst x'.
  split; [exact Hcap|]. split; [now symmetry|].
  rewrite Hg0, E', <- Er.
  replace (l ++ backtick :: x ++ m' ++ backtick :: rest)
    with ((l ++ backtick :: x ++ m' ++ [backtick]) ++ rest)
    by (rewrite <- !app_assoc; cbn [app]; rewrite <- !app_assoc; reflexivity).
  rewrite firstn_consumed. destruct l; discriminate.
Qed.

Lemma search_tag_none (s : str) :
  ~ In backtick s -> search_from TAG_RE false 0 s = None.
Proof.
  intros Hs. apply search_from_none. intros pre rest ->.
  destruct (run TAG_RE None rest) as [|[cap r] l] eqn:R; [reflexivity|].
  assert (Hy : In (cap, r) (run TAG_RE None rest)) by (rewrite R; now left).
  apply tag_thread in Hy as [l0 [x [m [-> _]]]].
  exfalso. apply Hs. apply in_or_app. right. apply in_or_app. right. now left.
Qed.

Lemma delimited_split (e : escaping) (x : str) :
  exists l inner r,
    delimited e x = l ++ backtick :: x ++ inner ++ backtick :: r /\
    optional_backslash l /\ optional_backslash inner /\ optional_backslash r.
Proof.
  unfold optional_backslash.
  destruct e;
    [ exists [], [], [] | exists [backslash], [], []
    | exists [], [], [backslash] | exists [backslash], [], [backslash]
    | exists [], [backslash], [] | exists [backslash], [backslash], [] ];
    cbn [delimited]; rewrite <- ?app_assoc; cbn [app]; auto 10.
Qed.

(** The scan of a well-formed line returns its tokens, whatever the
    escaping of each. *)
Lemma findall_items (items : list item) :
  forall fuel text last,
    ~ In backtick text -> Forall well_formed items -> ~ In backtick last ->
    (length items < fuel)%nat ->
    findall_from fuel TAG_RE false (text ++ render items ++ last) =
    List.map token items.
Proof.
  induction items as [|[s e x] items IH]; intros fuel text last Htext Hwf Hlast Hfuel.
  - destruct fuel as [|fuel]; [simpl in Hfuel; lia|].
    cbn [render flat_map app findall_from List.map].
    rewrite search_tag_none; [reflexivity|].
    intros H. apply in_app_or in H. tauto.
  - destruct fuel as [|fuel]; [simpl in Hfuel; lia|].
    inversion Hwf as [|? ? [[Hs _] [Hne [Hx _]]] Hwf']; subst. cbn [sep token] in *.
    destruct (delimited_split e x) as [l [inner [r [Ed [Hl [Hinner Hr]]]]]].
    assert (E : text ++ render (mkItem s e x :: items) ++ last =
                (text ++ s ++ l) ++ backtick :: x ++ inner ++ backtick ::
                  (r ++ render items ++ last)).
    { cbn [render flat_map sep esc token]. rewrite Ed.
      rewrite <- !app_assoc. cbn [app]. rewrite <- !app_assoc. reflexivity. }
    rewrite E.
    destruct (@search_tag_next (text ++ s ++ l) x inner (r ++ render items ++ last))
      as [m [Hm [Hcap [Htail Hg0]]]]; auto.
    { intros H. apply in_app_or in H as [H|H]; [contradiction|].
      apply in_app_or in H as [H|H]; [contradiction|].
      now apply (optional_backslash_no_backtick Hl). }
    cbn [findall_from List.map token]. rewrite Hm, Hcap, Htail.
    destruct (group0 m) as [|? ?]; [contradiction|].
    f_equal. apply IH; auto.
    + now apply optional_backslash_no_backtick.
    + simpl in Hfuel. lia.
Qed.

Lemma render_length (items : list item) :
  (length items <= length (render items))%nat.
Proof.
  induction items as [|[s e x] items IH]; [simpl; lia|].
  cbn [render flat_map sep esc token]. rewrite !length_app.
  fold (render items).
  assert (1 <= length (delimited e x))%nat
    by (destruct e; cbn [delimited app length]; lia).
  simpl length at 1. lia.
Qed.

Lemma render_no_newline (items : list item) :
  Forall well_formed items -> ~ In newline (render items).
Proof.
  induction 1 as [|[s e x] items [[_ Hs] [_ [_ Hx]]] _ IH]; [tauto|].
  cbn [render flat_map sep esc token] in *. fold (render items).
  intros H. apply in_app_or in H as [H|H]; [|contradiction].
  apply in_app_or in H as [H|H]; [contradiction|].
  destruct e; cbn [delimited app In] in H; rewrite ?in_app_iff in H;
    cbn [In] in H; unfold backtick, backslash, newline in *;
    intuition (try discriminate).
Qed.

Lemma dot_line (s : str) : ~ In newline s -> forallb dot s = true.
Proof.
  intros H. apply forallb_forall. intros c Hc. unfold dot.
  apply negb_true_iff, N.eqb_neq. intros ->. contradiction.
Qed.

Lemma star_greedy_head (p : char -> bool) (x e : str) :
  forallb p x = true ->
  (e = [] \/ exists c e', e = c :: e' /\ p c = false) ->
  exists tl, star_greedy p (x ++ e) = e :: tl.
Proof.
  intros Hx He. induction x as [|y x IH]; cbn [app star_greedy].
  - destruct He as [->|[c [e' [-> Hc]]]]; [now exists []|].
    cbn [star_greedy]. rewrite Hc. now exists [].
  - simpl in Hx. apply andb_true_iff in Hx as [Hy Hx]. rewrite Hy.
    destruct (IH Hx) as [tl ->]. now eexists.
Qed.

(** What [re.search] finds for the Tags marker: the first marker, with the
    rest of its line. *)
Lemma search_tags_line (before line ending : str) :
  first_occurrence TAGS_MARKER (before ++ TAGS_MARKER ++ line ++ ending) before ->
  ~ In newline line -> line_end ending ->
  exists m,
    search TAGS_RE (before ++ TAGS_MARKER ++ line ++ ending) = Some m /\
    group0 m = TAGS_MARKER ++ line.
Proof.
  intros Hfirst Hline Hend.
  destruct (@star_greedy_head dot line ending (@dot_line line Hline)) as [tl Hstar].
  { destruct Hend as [->|[after ->]]; [now left|right].
    exists newline, after. split; reflexivity. }
  assert (Hs : search TAGS_RE (before ++ TAGS_MARKER ++ line ++ ending) =
               Some (mkMatch (0 + length before)
                       (firstn (length (TAGS_MARKER ++ line ++ ending) - length ending)
                               (TAGS_MARKER ++ line ++ ending))
                       None ending)).
  { unfold search. apply search_from_found.
    - intros p1 r1 E Hlen. unfold TAGS_RE. rewrite run_Cat_lits.
      destruct (startswith TAGS_MARKER r1) eqn:S; [|reflexivity].
      apply startswith_app in S as [t ->].
      specialize (Hfirst _ _ E). lia.
    - rewrite match_at_first. unfold TAGS_RE.
      rewrite run_Cat_lits, startswith_self, skipn_self. cbn [run].
      rewrite Hstar. reflexivity. }
  eexists. split; [exact Hs|]. cbn [group0].
  rewrite (app_assoc TAGS_MARKER line ending). apply firstn_consumed.
Qed.

Lemma TAGS_MARKER_plain : ~ In backtick TAGS_MARKER.
Proof. vm_compute. intuition discriminate. Qed.

(** C1: on a Tags line whose tokens are written in any of the four forms
    [`x`], [\`x`], [`x`\], [\`x`\] (or with the backslash before the closing
    backtick), the extractor stores each bare token, in order; the stored
    list does not depend on the form chosen. *)
Theorem tags_under_escaping (stem before : str) (items : list item)
    (last ending : str) :
  Forall well_formed items -> plain_text last -> line_end ending ->
  first_occurrence TAGS_MARKER
    (before ++ TAGS_MARKER ++ (render items ++ last) ++ ending) before ->
  tags (parse_content stem
          (before ++ TAGS_MARKER ++ (render items ++ last) ++ ending)) =
  Some (List.map token items).
Proof.
  intros Hwf [Hlast1 Hlast2] Hend Hfirst.
  destruct (@search_tags_line before (render items ++ last) ending Hfirst)
    as [m [Hm Hg0]]; auto.
  { intros H. apply in_app_or in H as [H|H]; [|contradiction].
    now apply (@render_no_newline items Hwf). }
  unfold parse_content. cbn [tags]. rewrite Hm, Hg0. f_equal.
  unfold findall. apply findall_items; auto.
  - apply TAGS_MARKER_plain.
  - pose proof (render_length items) as Hlen. rewrite !length_app. lia.
Qed.

(** C1 on a document whose Tags line uses each of the four forms once, and
    the form of the source comment. *)
Lemma tags_under_escaping_witness :
  tags (parse_content (u "001") (u "# 実験 001: escaping
**評価: ◎**
**タグ:** `x`, \`y` `z`\\`w`\ \`v\` .
## notes")) = Some [u "x"; u "y"; u "z"; u "w"; u "v"].
Proof.
  change (tags (parse_content (u "001")
            (u "# 実験 001: escaping
**評価: ◎**
" ++ TAGS_MARKER
              ++ (render [mkItem (u " ") Plain (u "x");
                          mkItem (u ", ") EscapedLeft (u "y");
                          mkItem (u " ") EscapedRight (u "z");
                          mkItem [] EscapedBoth (u "w");
                          mkItem (u " ") EscapedEach (u "v")] ++ u " .")
              ++ u "
## notes"))
          = Some (List.map token
                    [mkItem (u " ") Plain (u "x");
                     mkItem (u ", ") EscapedLeft (u "y");
                     mkItem (u " ") EscapedRight (u "z");
                     mkItem [] EscapedBoth (u "w");
                     mkItem (u " ") EscapedEach (u "v")])).
  apply tags_under_escaping.
  - repeat constructor; try (vm_compute; intuition (try discriminate)).
  - split; vm_compute; intuition (try discriminate).
  - right. eexists. reflexivity.
  - apply no_earlier_occurrence. vm_compute. reflexivity.
Defined.
(** ** The collector *)

Lemma glob_match_spec (name : str) :
  glob_match name = true <-> experiment_name name.
Proof.
  unfold glob_match, fullmatch, experiment_name. rewrite existsb_exists.
  split.
  - intros [[cap rest] [Hin Hrest]]. simpl in Hrest.
    destruct rest; [clear Hrest|discriminate].
    unfold GLOB_RE in Hin. cbn [run] in Hin.
    destruct name as [|d t]; [contradiction|].
    destruct (digit d) eqn:Hd; [|contradiction].
    cbn [flat_map fst snd] in Hin. rewrite app_nil_r in Hin.
    apply in_flat_map in Hin as [[cap1 s1] [H1 H2]].
    apply in_map_iff in H1 as [s1' [E1 H1]]. injection E1 as <- <-.
    apply star_greedy_In in H1 as [x [-> _]].
    cbn [fst snd] in H2. apply run_lits_In in H2 as [_ H2]. simpl snd in H2.
    rewrite app_nil_r in H2. subst s1'. now exists d, x.
  - intros [d [middle [-> Hd]]]. exists (None, []). split; [|reflexivity].
    unfold GLOB_RE. cbn [run]. rewrite Hd. cbn [flat_map fst snd].
    rewrite app_nil_r. apply in_flat_map. exists (None, u ".md"). split.
    + apply in_map. apply star_greedy_In. exists middle. split; [reflexivity|].
      now apply forallb_forall.
    + vm_compute. now left.
Qed.

Lemma str_leb_total (a b : str) : str_leb a b = false -> str_leb b a = true.
Proof.
  revert b; induction a as [|x a IH]; intros [|y b]; simpl; try congruence.
  destruct (N.ltb_spec x y), (N.ltb_spec y x); try congruence; try lia.
  apply IH.
Qed.

Lemma str_leb_trans (a b c : str) :
  str_leb a b = true -> str_leb b c = true -> str_leb a c = true.
Proof.
  revert b c; induction a as [|x a IH]; intros [|y b] [|z c]; simpl;
    try congruence.
  destruct (N.ltb_spec x y), (N.ltb_spec y x), (N.ltb_spec y z),
    (N.ltb_spec z y), (N.ltb_spec x z), (N.ltb_spec z x);
    try congruence; try lia.
  apply IH.
Qed.

Section SortedFacts.
Variable A : Type.
Variable key : A -> str.

Lemma insert_perm (x : A) (l : list A) : Permutation (insert key x l) (x :: l).
Proof.
  induction l as [|y t IH]; simpl; [reflexivity|].
  destruct (str_leb (key x) (key y)); [reflexivity|].
  rewrite IH. apply perm_swap.
Qed.

Lemma sorted_perm (l : list A) : Permutation (sorted key l) l.
Proof.
  induction l as [|x t IH]; simpl; [reflexivity|].
  rewrite insert_perm. now constructor.
Qed.

Lemma insert_sorted (x : A) (l : list A) :
  StronglySorted (fun a b => str_le (key a) (key b)) l ->
  StronglySorted (fun a b => str_le (key a) (key b)) (insert key x l).
Proof.
  induction 1 as [|y t Ht IH Hy]; simpl.
  - repeat constructor.
  - destruct (str_leb (key x) (key y)) eqn:E.
    + constructor; [now constructor|]. constructor; [exact E|].
      eapply Forall_impl; [|exact Hy]. intros z Hz.
      exact (str_leb_trans _ _ _ E Hz).
    + constructor; [exact IH|].
      apply (Permutation_Forall (Permutation_sym (insert_perm x t))).
      constructor; [|exact Hy]. now apply str_leb_total.
Qed.

Lemma sorted_sorted (l : list A) :
  StronglySorted (fun a b => str_le (key a) (key b)) (sorted key l).
Proof.
  induction l as [|x t IH]; simpl; [constructor|]. now apply insert_sorted.
Qed.

End SortedFacts.

Lemma collect_loop (fs : filesystem) (files : list str)
    (st : list Experiment * list message) :
  fold_left (collect_step fs) files st =
  (fst st ++ parsed fs files, snd st ++ warned fs files).
Proof.
  revert st; induction files as [|f files IH]; intros [exps out].
  - simpl. now rewrite !app_nil_r.
  - cbn [fold_left]. rewrite IH. unfold collect_step, parse_experiment, bind.
    unfold parsed, warned. cbn [flat_map fst snd].
    destruct (fs f); cbn [fst snd app]; now rewrite <- !app_assoc.
Qed.



(** Every record the collector returns has a non-empty id. *)
Lemma collected_ids_nonempty (fs : filesystem) (listing : list str) :
  Forall (fun exp => exists v, id exp = Some v /\ v <> [])
         (fst (collect_experiments fs listing)).
Proof.
  unfold collect_experiments. rewrite collect_loop. cbn [fst app].
  apply Forall_forall. intros exp Hin. unfold parsed in Hin.
  apply in_flat_map in Hin as [name [Hname Hexp]].
  apply (Permutation_in _ (sorted_perm _ _)) in Hname.
  apply filter_In in Hname as [_ Hglob].
  apply glob_match_spec in Hglob as [d [middle [-> _]]].
  destruct (fs (d :: middle ++ u ".md")) as [content|e]; [|contradiction].
  destruct Hexp as [<-|[]]. apply id_nonempty. apply stem_nonempty. discriminate.
Qed.

(** ** The aggregator *)

Section AggregatorFacts.
Variable round : Q -> Q.

Lemma truediv_ok (a b : Z) :
  (b >? 0)%Z = true ->
  truediv round a b = Ok (round (inject_Z a / inject_Z b)).
Proof.
  intros Hb. unfold truediv. destruct (b =? 0)%Z eqn:E0; [|reflexivity].
  apply Z.eqb_eq in E0. subst. discriminate.
Qed.

(** [calculate_stats] never raises, and its fields are these. *)
Lemma calculate_stats_ok (experiments : list Experiment) :
  calculate_stats round experiments =
  Ok {| total := Z.of_nat (length experiments);
        success_rate :=
          (let n := Z.of_nat (length experiments) in
           let c := sum_get (Counter_of (List.map rating_of experiments)) SUCCESS in
           if (n >? 0)%Z
           then round (round (inject_Z c / inject_Z n) * inject_Z 100)
           else 0);
        rating_counts := Counter_of (List.map rating_of experiments);
        model_stats := fold_left model_step experiments [];
        tag_counts := fst (fold_left tags_step experiments ([], []));
        tag_experiments := snd (fold_left tags_step experiments ([], [])) |}.
Proof.
  unfold calculate_stats.
  destruct (Z.of_nat (length experiments) >? 0)%Z eqn:E; [|reflexivity].
  rewrite truediv_ok by exact E. reflexivity.
Qed.

Lemma model_step_balanced (d : dict ModelStat.t) (exp : Experiment) :
  Forall (fun kv => balanced (snd kv)) d ->
  Forall (fun kv => balanced (snd kv)) (model_step d exp).
Proof.
  intros Hd. unfold model_step. apply set_Forall; [exact Hd|].
  assert (He : balanced (get_default d (model_of exp) ModelStat.fresh)).
  { unfold get_default. destruct (get d (model_of exp)) eqn:E.
    - exact (get_Forall balanced _ Hd E).
    - reflexivity. }
  unfold balanced in *. simpl. rewrite sumZ_values_incr. lia.
Qed.

Lemma model_stats_balanced (experiments : list Experiment) (d : dict ModelStat.t) :
  Forall (fun kv => balanced (snd kv)) d ->
  Forall (fun kv => balanced (snd kv)) (fold_left model_step experiments d).
Proof.
  revert d; induction experiments as [|e l IH]; intros d Hd; simpl.
  - exact Hd.
  - apply IH. now apply model_step_balanced.
Qed.

(** C4: the per-rating counts, the bucket of absent ratings included, add
    up to the number of records, in the global aggregate and in every model
    group; each count is the number of records with that rating. *)
Theorem rating_counts_sum_to_total (experiments : list Experiment) :
  exists stats,
    calculate_stats round experiments = Ok stats /\
    total stats = Z.of_nat (length experiments) /\
    sumZ (values (rating_counts stats)) = total stats /\
    (forall r, get_default (rating_counts stats) r 0%Z =
               Z.of_nat (occurrences r (List.map rating_of experiments))) /\
    Forall (fun group =>
              sumZ (values (ModelStat.ratings (snd group))) =
              ModelStat.total (snd group))
           (model_stats stats).
Proof.
  eexists. split; [apply calculate_stats_ok|]. simpl.
  split; [reflexivity|]. split; [|split].
  - rewrite Counter_of_sum. now rewrite length_map.
  - intros r. apply Counter_of_get.
  - apply (model_stats_balanced experiments (d := [])). constructor.
Qed.

End AggregatorFacts.

(** ** Tag statistics *)

Lemma tag_step_fold (exp_id tag : str) (ts : list str)
    (st : Counter * dict (list str)) :
  let st' := fold_left (tag_step exp_id) ts st in
  get_default (fst st') tag 0%Z =
    (get_default (fst st) tag 0 + Z.of_nat (occurrences tag ts))%Z /\
  get_default (snd st') tag [] =
    get_default (snd st) tag [] ++ repeat exp_id (occurrences tag ts).
Proof.
  revert st; induction ts as [|t ts IH]; intros st; simpl fold_left.
  - unfold occurrences; simpl. split; [lia|now rewrite app_nil_r].
  - destruct (IH (tag_step exp_id st t)) as [IH1 IH2].
    cbv zeta in *. rewrite IH1, IH2. unfold tag_step; simpl fst; simpl snd.
    rewrite get_default_incr. unfold occurrences. simpl filter.
    destruct (str_eqb tag t) eqn:E.
    + apply str_eqb_eq in E. subst t. rewrite get_default_set_same.
      simpl length. split; [lia|]. rewrite <- app_assoc. reflexivity.
    + apply str_eqb_neq in E.
      rewrite get_default_set_other by congruence. split; [lia|reflexivity].
Qed.

Lemma tags_step_fold (tag : str) (experiments : list Experiment)
    (st : Counter * dict (list str)) :
  let st' := fold_left tags_step experiments st in
  get_default (fst st') tag 0%Z =
    (get_default (fst st) tag 0 + Z.of_nat (tag_occurrences tag experiments))%Z /\
  get_default (snd st') tag [] =
    get_default (snd st) tag [] ++ back_references tag experiments.
Proof.
  revert st; induction experiments as [|e l IH]; intros st; simpl fold_left.
  - unfold tag_occurrences, back_references; simpl.
    split; [lia|now rewrite app_nil_r].
  - destruct (IH (tags_step st e)) as [IH1 IH2]. cbv zeta in *.
    rewrite IH1, IH2. unfold tags_step.
    destruct (tag_step_fold (id_of e) tag (tags_of e) st) as [H1 H2].
    cbv zeta in *. rewrite H1, H2.
    unfold tag_occurrences, back_references. simpl.
    split; [lia|now rewrite <- app_assoc].
Qed.

Lemma length_back_references (tag : str) (experiments : list Experiment) :
  length (back_references tag experiments) = tag_occurrences tag experiments.
Proof.
  unfold back_references, tag_occurrences.
  induction experiments as [|e l IH]; simpl; [reflexivity|].
  now rewrite length_app, repeat_length, IH.
Qed.

Section TagFacts.
Variable round : Q -> Q.

(** C5: a tag's back-reference list is as long as the tag's occurrence count
    summed over all records, repeats within one record included; it is also
    the tag's counter. *)
Theorem back_reference_length (experiments : list Experiment) :
  exists stats,
    calculate_stats round experiments = Ok stats /\
    forall tag,
      length (get_default (tag_experiments stats) tag []) =
        tag_occurrences tag experiments /\
      get_default (tag_counts stats) tag 0%Z =
        Z.of_nat (tag_occurrences tag experiments).
Proof.
  eexists. split; [apply calculate_stats_ok|]. simpl. intros tag.
  destruct (tags_step_fold tag experiments ([], [])) as [H1 H2].
  cbv zeta in *. rewrite H1, H2. simpl.
  split; [apply length_back_references|reflexivity].
Qed.

(** C6, as the code has it: a record's id is appended once for every
    occurrence of the tag in that record's own list, repeats included; the
    list holds the ids in record order. *)
Theorem back_reference_per_occurrence (experiments : list Experiment) :
  exists stats,
    calculate_stats round experiments = Ok stats /\
    forall tag,
      get_default (tag_experiments stats) tag [] =
      back_references tag experiments.
Proof.
  eexists. split; [apply calculate_stats_ok|]. simpl. intros tag.
  destruct (tags_step_fold tag experiments ([], [])) as [_ H2].
  cbv zeta in *. rewrite H2. reflexivity.
Qed.

End TagFacts.

(** C6 as stated fails: a record that lists a tag twice has its id twice in
    that tag's back-reference list. *)
Lemma repeated_tag_appends_twice :
  exists stats,
    calculate_stats (fun q => q) [tagged (u "001") [u "y"; u "y"]] = Ok stats /\
    get_default (tag_experiments stats) (u "y") [] = [u "001"; u "001"] /\
    occurrences (u "001") (get_default (tag_experiments stats) (u "y") []) <> 1%nat.
Proof.
  eexists. split; [reflexivity|]. split; [reflexivity|].
  vm_compute. discriminate.
Qed.

(** ** Success rate *)

Lemma is_success_rating_of (e : Experiment) :
  is_success e = str_eqb [EXCEEDED] (rating_of e) || str_eqb [MET] (rating_of e).
Proof.
  unfold is_success, rating_of. destruct (rating e) as [r|].
  - now rewrite (str_eqb_sym [EXCEEDED] r), (str_eqb_sym [MET] r).
  - reflexivity.
Qed.

Lemma success_exclusive (r : str) :
  str_eqb [EXCEEDED] r = true -> str_eqb [MET] r = true -> False.
Proof.
  intros E1 E2. apply str_eqb_eq in E1, E2. subst r. discriminate.
Qed.

Lemma success_count_spec (experiments : list Experiment) :
  sum_get (Counter_of (List.map rating_of experiments)) SUCCESS =
  success_total experiments.
Proof.
  unfold sum_get, SUCCESS, success_total. cbn [List.map fold_left].
  rewrite !Counter_of_get. unfold occurrences.
  induction experiments as [|e l IH]; [reflexivity|].
  cbn [List.map filter]. rewrite is_success_rating_of.
  pose proof (@success_exclusive (rating_of e)) as Hx.
  destruct (str_eqb [EXCEEDED] (rating_of e)), (str_eqb [MET] (rating_of e));
    cbn [orb length]; try lia.
Qed.

Lemma success_total_le (experiments : list Experiment) :
  (0 <= success_total experiments <= Z.of_nat (length experiments))%Z.
Proof.
  unfold success_total. split; [lia|].
  apply inj_le. apply filter_length_le.
Qed.

Lemma ratio_bounds (c n : Z) :
  (0 <= c <= n)%Z -> (0 < n)%Z ->
  0 <= inject_Z c / inject_Z n /\ inject_Z c / inject_Z n <= 1.
Proof.
  intros Hc Hn.
  assert (Hn' : inject_Z 0 < inject_Z n) by (rewrite <- Zlt_Qlt; exact Hn).
  split.
  - apply Qle_shift_div_l; [exact Hn'|]. rewrite Qmult_0_l.
    change 0 with (inject_Z 0). rewrite <- Zle_Qle. lia.
  - apply Qle_shift_div_r; [exact Hn'|]. rewrite Qmult_1_l.
    rewrite <- Zle_Qle. lia.
Qed.

Section SuccessRate.
Variable round : Q -> Q.
Hypothesis round_monotone : forall x y, x <= y -> round x <= round y.
Hypothesis round_0 : round 0 == 0.
Hypothesis round_1 : round 1 == 1.
Hypothesis round_100 : round (inject_Z 100) == inject_Z 100.

Lemma percentage_bounds (c n : Z) :
  (0 <= c <= n)%Z -> (0 < n)%Z ->
  0 <= round (round (inject_Z c / inject_Z n) * inject_Z 100) /\
  round (round (inject_Z c / inject_Z n) * inject_Z 100) <= inject_Z 100.
Proof.
  intros Hc Hn. destruct (ratio_bounds Hc Hn) as [H0 H1].
  assert (R0 : 0 <= round (inject_Z c / inject_Z n)).
  { rewrite <- round_0. now apply round_monotone. }
  assert (R1 : round (inject_Z c / inject_Z n) <= 1).
  { rewrite <- round_1. now apply round_monotone. }
  split.
  - rewrite <- round_0. apply round_monotone.
    apply Qmult_le_0_compat; [exact R0|discriminate].
  - rewrite <- round_100 at 2. apply round_monotone.
    rewrite <- (Qmult_1_l (inject_Z 100)) at 2.
    apply Qmult_le_compat_r; [exact R1|discriminate].
Qed.

(** C2: [calculate_stats] raises nothing; its success rate lies in [0,100];
    it is exactly 0 for the empty list, and otherwise the float value of
    (number of records rated ◎ or ○) / total * 100. *)
Theorem success_rate_range (experiments : list Experiment) :
  exists stats,
    calculate_stats round experiments = Ok stats /\
    (0 <= success_rate stats /\ success_rate stats <= inject_Z 100) /\
    (experiments = [] -> success_rate stats = 0) /\
    (experiments <> [] ->
     success_rate stats =
     round (round (inject_Z (success_total experiments)
                   / inject_Z (Z.of_nat (length experiments)))
            * inject_Z 100)).
Proof.
  eexists. split; [apply calculate_stats_ok|]. simpl.
  rewrite success_count_spec.
  destruct experiments as [|e l].
  - simpl. repeat split; try discriminate; try reflexivity.
    intros H; now elim H.
  - assert (Hn : (0 < Z.of_nat (length (e :: l)))%Z) by (simpl; lia).
    replace (Z.of_nat (length (e :: l)) >? 0)%Z with true
      by (symmetry; apply Z.gtb_lt; exact Hn).
    split; [|split; [discriminate|reflexivity]].
    apply percentage_bounds; [apply success_total_le|exact Hn].
Qed.

End SuccessRate.

(** The bound of C2 at three records, two of them successes, with exact
    arithmetic for the floats. *)
Lemma success_rate_range_witness :
  exists stats,
    calculate_stats (fun q => q)
      [{| id := Some (u "001"); date := None; recorder := None;
          model := Some (u "A"); target := None; rating := Some [EXCEEDED];
          tags := Some [u "x"; u "y"] |};
       {| id := Some (u "002"); date := None; recorder := None;
          model := Some (u "A"); target := None; rating := Some [FAILED];
          tags := Some [u "y"] |};
       {| id := Some (u "003"); date := None; recorder := None;
          model := Some (u "B"); target := None; rating := Some [MET];
          tags := Some [] |}] = Ok stats /\
    success_rate stats == 200 # 3.
Proof.
  destruct (@success_rate_range (fun q => q)
              (fun x y H => H) (Qeq_refl _) (Qeq_refl _) (Qeq_refl _)
      [{| id := Some (u "001"); date := None; recorder := None;
          model := Some (u "A"); target := None; rating := Some [EXCEEDED];
          tags := Some [u "x"; u "y"] |};
       {| id := Some (u "002"); date := None; recorder := None;
          model := Some (u "A"); target := None; rating := Some [FAILED];
          tags := Some [u "y"] |};
       {| id := Some (u "003"); date := None; recorder := None;
          model := Some (u "B"); target := None; rating := Some [MET];
          tags := Some [] |}])
    as [stats [Hs [_ [_ Hrate]]]].
  exists stats. split; [exact Hs|].
  rewrite Hrate by discriminate. vm_compute. reflexivity.
Defined.

(** ** [main] *)

Section MainFacts.
Variable round : Q -> Q.

(** C9: when the collector returns no record, [main] prints its notice and
    returns; the trace holds nothing but printed lines, so no image is saved
    and no report is written, and [calculate_stats] is not reached. *)
Theorem main_without_records (fs : filesystem) (listing : list str) :
  fst (collect_experiments fs listing) = [] ->
  main round fs listing =
    ([Print (Text (u "実験データを収集中..."))]
       ++ List.map Print (snd (collect_experiments fs listing))
       ++ [Print (Found 0); Print (Text (u "実験データが見つかりません"))],
     Ok tt) /\
  existsb writes_output (fst (main round fs listing)) = false.
Proof.
  intros Hnone.
  assert (Hmain : main round fs listing =
    ([Print (Text (u "実験データを収集中..."))]
       ++ List.map Print (snd (collect_experiments fs listing))
       ++ [Print (Found 0); Print (Text (u "実験データが見つかりません"))],
     Ok tt)).
  { unfold main. rewrite Hnone. cbn [length Z.of_nat].
    now rewrite <- !app_assoc. }
  split; [exact Hmain|]. rewrite Hmain. cbn [fst].
  rewrite !existsb_app. cbn [existsb writes_output orb].
  rewrite orb_false_r. clear Hmain.
  induction (snd (collect_experiments fs listing)) as [|m l IH];
    [reflexivity|exact IH].
Qed.

(** With at least one record the run does write the report. *)
Lemma main_with_records (fs : filesystem) (listing : list str) :
  fst (collect_experiments fs listing) <> [] ->
  exists stats,
    calculate_stats round (fst (collect_experiments fs listing)) = Ok stats /\
    In (WriteStats stats) (fst (main round fs listing)) /\
    In (SaveFig (u "timeline.png")) (fst (main round fs listing)) /\
    snd (main round fs listing) = Ok tt.
Proof.
  intros Hsome. eexists. split; [apply calculate_stats_ok|].
  unfold main. destruct (fst (collect_experiments fs listing)) as [|e l] eqn:E;
    [contradiction|].
  rewrite calculate_stats_ok. cbn [fst snd generate_timeline_chart generate_stats_md].
  repeat split;
    repeat first [ left; reflexivity | right | apply in_or_app; right ].
Qed.

End MainFacts.

(** C9 on a directory whose only numbered file cannot be read. *)
Lemma main_without_records_witness :
  existsb writes_output
    (fst (main (fun q => q) (fun _ => Raise (OSError (u "Permission denied")))
               [u "Home.md"; u "001.md"])) = false.
Proof.
  apply (main_without_records (fun q => q)
           (fun _ => Raise (OSError (u "Permission denied")))
           [u "Home.md"; u "001.md"]).
  reflexivity.
Defined.


(** * Further properties *)

(** ** Keys of the aggregator's dicts *)

Lemma mem_In (k : str) (l : list str) : mem k l = true <-> In k l.
Proof.
  unfold mem. rewrite existsb_exists. split.
  - intros [y [Hy E]]. apply str_eqb_eq in E. now subst.
  - intros H. exists k. split; [exact H|apply str_eqb_refl].
Qed.

Lemma mem_app (k : str) (a b : list str) : mem k (a ++ b) = mem k a || mem k b.
Proof. unfold mem. apply existsb_app. Qed.

Section KeysFacts.
Variable V : Type.
Implicit Types (d : dict V) (k : str) (v : V).

Lemma keys_set d k v :
  keys (set d k v) = if mem k (keys d) then keys d else keys d ++ [k].
Proof.
  induction d as [|[k0 v0] d IH]; [reflexivity|].
  cbn [set]. unfold keys in *. cbn [mem List.map fst existsb].
  fold (mem k (List.map fst d)). rewrite (str_eqb_sym k k0).
  destruct (str_eqb k0 k); cbn [orb List.map fst]; [reflexivity|].
  rewrite IH. now destruct (mem k (List.map fst d)).
Qed.

Lemma get_None_keys d k : get d k = None <-> ~ In k (keys d).
Proof.
  induction d as [|[k0 v0] d IH]; cbn [get keys List.map fst In].
  - tauto.
  - destruct (str_eqb k0 k) eqn:E.
    + apply str_eqb_eq in E. split; [discriminate|]. intros H. elim H. now left.
    + apply str_eqb_neq in E. unfold keys in IH. rewrite IH. tauto.
Qed.

Lemma get_In_keys d k v : get d k = Some v -> In k (keys d).
Proof.
  intros H. destruct (in_dec (list_eq_dec N.eq_dec) k (keys d)) as [Hin|Hout];
    [exact Hin|]. apply get_None_keys in Hout. congruence.
Qed.

(** With distinct keys, looking up each key in turn gives the values. *)
Lemma lookup_keys d (dflt : V) :
  NoDup (keys d) ->
  List.map (fun k => get_default d k dflt) (keys d) = values d.
Proof.
  induction d as [|[k0 v0] d IH]; [reflexivity|].
  intros Hnd. inversion Hnd as [|? ? Hout Hnd']; subst.
  unfold keys, values in *. cbn [List.map fst snd]. f_equal.
  - unfold get_default. cbn [get]. now rewrite str_eqb_refl.
  - rewrite <- (IH Hnd'). apply map_ext_in. intros k Hk.
    unfold get_default. cbn [get].
    destruct (str_eqb k0 k) eqn:E; [|reflexivity].
    apply str_eqb_eq in E. subst. contradiction.
Qed.

End KeysFacts.

Lemma filter_filter (A : Type) (p q : A -> bool) (l : list A) :
  filter p (filter q l) = filter (fun x => q x && p x) l.
Proof.
  induction l as [|x l IH]; [reflexivity|]. cbn [filter].
  destruct (q x); cbn [filter andb]; [|exact IH].
  destruct (p x); now rewrite IH.
Qed.

Lemma first_seen_filter (p : str -> bool) (l : list str) :
  first_seen (filter p l) = filter p (first_seen l).
Proof.
  induction l as [|x l IH]; [reflexivity|]. cbn [filter first_seen].
  destruct (p x) eqn:Px; cbn [first_seen filter]; rewrite ?Px.
  - rewrite IH, !filter_filter. f_equal. apply filter_ext. intros y.
    apply andb_comm.
  - rewrite IH, filter_filter. apply filter_ext_in. intros y _.
    destruct (str_eqb x y) eqn:E; [|reflexivity].
    apply str_eqb_eq in E. subst y. now rewrite Px.
Qed.

Lemma first_seen_In (k : str) (l : list str) : In k (first_seen l) <-> In k l.
Proof.
  induction l as [|x l IH]; [reflexivity|]. cbn [first_seen In].
  rewrite filter_In, IH, negb_true_iff, str_eqb_neq.
  destruct (list_eq_dec N.eq_dec x k); intuition congruence.
Qed.

Lemma first_seen_NoDup (l : list str) : NoDup (first_seen l).
Proof.
  induction l as [|x l IH]; cbn [first_seen]; constructor.
  - rewrite filter_In, negb_true_iff, str_eqb_neq. tauto.
  - now apply NoDup_filter.
Qed.

(** A loop of assignments [d[key x] = ...] leaves the old keys in place and
    appends the new ones as they first come up. *)
Lemma keys_fold_set (V X : Type) (key : X -> str) (g : dict V -> X -> V)
    (l : list X) (d : dict V) :
  keys (fold_left (fun d x => set d (key x) (g d x)) l d) =
  keys d ++ first_seen (filter (fun k => negb (mem k (keys d))) (List.map key l)).
Proof.
  revert d; induction l as [|x l IH]; intros d; cbn [fold_left List.map filter].
  - cbn. now rewrite app_nil_r.
  - rewrite IH, keys_set. destruct (mem (key x) (keys d)) eqn:M; cbn [negb].
    + reflexivity.
    + cbn [first_seen]. rewrite <- app_assoc. cbn [app]. do 2 f_equal.
      rewrite <- first_seen_filter, filter_filter. f_equal.
      apply filter_ext. intros y. rewrite mem_app. unfold mem at 2.
      cbn [existsb]. rewrite orb_false_r, negb_orb, (str_eqb_sym y (key x)).
      reflexivity.
Qed.

Lemma keys_fold_set_fresh (V X : Type) (key : X -> str) (g : dict V -> X -> V)
    (l : list X) :
  keys (fold_left (fun d x => set d (key x) (g d x)) l []) =
  first_seen (List.map key l).
Proof.
  rewrite keys_fold_set. cbn [keys List.map app]. f_equal.
  apply forallb_filter_id. apply forallb_forall. reflexivity.
Qed.

Lemma tag_step_fst (exp_id : str) (ts : list str) (st : Counter * dict (list str)) :
  fst (fold_left (tag_step exp_id) ts st) = fold_left incr ts (fst st).
Proof.
  revert st; induction ts as [|t ts IH]; intros st; [reflexivity|].
  cbn [fold_left]. now rewrite IH.
Qed.

Lemma tag_step_snd (exp_id : str) (ts : list str) (st : Counter * dict (list str)) :
  snd (fold_left (tag_step exp_id) ts st) =
  fold_left (fun d p => set d (fst p) (get_default d (fst p) [] ++ [snd p]))
            (List.map (fun tag => (tag, exp_id)) ts) (snd st).
Proof.
  revert st; induction ts as [|t ts IH]; intros st; [reflexivity|].
  cbn [fold_left List.map]. now rewrite IH.
Qed.

Lemma tags_step_fst (experiments : list Experiment) (st : Counter * dict (list str)) :
  fst (fold_left tags_step experiments st) =
  fold_left incr (all_tags experiments) (fst st).
Proof.
  revert st; induction experiments as [|e l IH]; intros st; [reflexivity|].
  cbn [fold_left]. rewrite IH. unfold tags_step, all_tags. cbn [flat_map].
  now rewrite fold_left_app, tag_step_fst.
Qed.

Lemma tags_step_snd (experiments : list Experiment) (st : Counter * dict (list str)) :
  snd (fold_left tags_step experiments st) =
  fold_left (fun d p => set d (fst p) (get_default d (fst p) [] ++ [snd p]))
            (tag_pairs experiments) (snd st).
Proof.
  revert st; induction experiments as [|e l IH]; intros st; [reflexivity|].
  cbn [fold_left]. rewrite IH. unfold tags_step, tag_pairs. cbn [flat_map].
  now rewrite fold_left_app, tag_step_snd.
Qed.

Lemma tag_pairs_tags (experiments : list Experiment) :
  List.map fst (tag_pairs experiments) = all_tags experiments.
Proof.
  unfold tag_pairs, all_tags.
  induction experiments as [|e l IH]; [reflexivity|]. cbn [flat_map].
  rewrite map_app, IH, map_map. cbn [fst]. now rewrite map_id.
Qed.

Lemma Counter_of_keys (l : list str) : keys (Counter_of l) = first_seen l.
Proof.
  unfold Counter_of.
  change (fold_left incr l []) with
    (fold_left (fun d x => set d ((fun k : str => k) x) (get_default d x 0%Z + 1)%Z)
               l []).
  rewrite (keys_fold_set_fresh (fun k : str => k)). now rewrite map_id.
Qed.

Lemma model_stats_keys (experiments : list Experiment) :
  keys (fold_left model_step experiments []) =
  first_seen (List.map model_of experiments).
Proof.
  exact (keys_fold_set_fresh model_of
           (fun d exp =>
              {| ModelStat.total :=
                   ModelStat.total (get_default d (model_of exp) ModelStat.fresh) + 1;
                 ModelStat.ratings :=
                   incr (ModelStat.ratings
                           (get_default d (model_of exp) ModelStat.fresh))
                        (rating_of exp) |})
           experiments).
Qed.

Section KeyOrder.
Variable round : Q -> Q.

(** The keys of each dict of the statistics are distinct and stand in the
    order in which the loop first met them: ratings and models in record
    order, tags in the order of the records' tag lists; the tag counter and
    the back-reference dict have the same keys. *)
Theorem stats_keys_first_seen (experiments : list Experiment) :
  exists stats,
    calculate_stats round experiments = Ok stats /\
    keys (rating_counts stats) = first_seen (List.map rating_of experiments) /\
    keys (model_stats stats) = first_seen (List.map model_of experiments) /\
    keys (tag_counts stats) = first_seen (all_tags experiments) /\
    keys (tag_experiments stats) = keys (tag_counts stats) /\
    NoDup (keys (rating_counts stats)) /\ NoDup (keys (model_stats stats)) /\
    NoDup (keys (tag_counts stats)).
Proof.
  eexists. split; [apply calculate_stats_ok|]. cbn [rating_counts model_stats
    tag_counts tag_experiments].
  assert (Ht : keys (fst (fold_left tags_step experiments ([], []))) =
               first_seen (all_tags experiments)).
  { rewrite tags_step_fst. apply Counter_of_keys. }
  assert (He : keys (snd (fold_left tags_step experiments ([], []))) =
               first_seen (all_tags experiments)).
  { rewrite tags_step_snd.
    rewrite (keys_fold_set_fresh (V := list str) fst
               (fun d p => get_default d (fst p) [] ++ [snd p])).
    now rewrite tag_pairs_tags. }
  rewrite Counter_of_keys, model_stats_keys, Ht, He.
  repeat split; apply first_seen_NoDup.
Qed.

End KeyOrder.

(** ** Model groups *)

Lemma with_model_nil (m : str) (experiments : list Experiment) :
  with_model m experiments = [] <-> ~ In m (List.map model_of experiments).
Proof.
  unfold with_model. induction experiments as [|e l IH]; cbn [filter List.map In].
  - tauto.
  - destruct (str_eqb m (model_of e)) eqn:E.
    + apply str_eqb_eq in E. split; [discriminate|]. intros H. elim H. now left.
    + apply str_eqb_neq in E. rewrite IH. intuition congruence.
Qed.

Lemma model_step_group (m : str) (d : dict ModelStat.t) (e : Experiment) :
  get_default (model_step d e) m ModelStat.fresh =
  if str_eqb m (model_of e)
  then {| ModelStat.total :=
            ModelStat.total (get_default d m ModelStat.fresh) + 1;
          ModelStat.ratings :=
            incr (ModelStat.ratings (get_default d m ModelStat.fresh))
                 (rating_of e) |}
  else get_default d m ModelStat.fresh.
Proof.
  unfold model_step. destruct (str_eqb m (model_of e)) eqn:E.
  - apply str_eqb_eq in E. subst m. now rewrite get_default_set_same.
  - apply str_eqb_neq in E. rewrite get_default_set_other by congruence.
    reflexivity.
Qed.

Lemma model_step_fold (m : str) (experiments : list Experiment)
    (d : dict ModelStat.t) :
  let group d := get_default d m ModelStat.fresh in
  let d' := fold_left model_step experiments d in
  ModelStat.total (group d') =
    (ModelStat.total (group d) + Z.of_nat (length (with_model m experiments)))%Z /\
  forall r,
    get_default (ModelStat.ratings (group d')) r 0%Z =
    (get_default (ModelStat.ratings (group d)) r 0
     + Z.of_nat (occurrences r (List.map rating_of (with_model m experiments))))%Z.
Proof.
  cbv zeta. revert d; induction experiments as [|e l IH]; intros d.
  - cbn. split; [lia|intros r; unfold occurrences; cbn; lia].
  - cbn [fold_left]. destruct (IH (model_step d e)) as [IH1 IH2].
    rewrite IH1. unfold with_model. cbn [filter]. fold (with_model m l).
    split; [|intros r; rewrite IH2]; rewrite model_step_group;
      destruct (str_eqb m (model_of e)).
    + cbn [ModelStat.total length]. lia.
    + lia.
    + cbn [ModelStat.ratings List.map]. rewrite get_default_incr.
      unfold occurrences. cbn [filter].
      destruct (str_eqb r (rating_of e)); cbn [length]; lia.
    + lia.
Qed.

Section ModelGroups.
Variable round : Q -> Q.

(** A model has a group exactly when some record names it ("不明" standing
    for no model); the group's total is the number of those records, and
    each of its rating counts is the number of those records with that
    rating. *)
Theorem model_group_counts (experiments : list Experiment) :
  exists stats,
    calculate_stats round experiments = Ok stats /\
    forall m,
      let group := get_default (model_stats stats) m ModelStat.fresh in
      (get (model_stats stats) m = None <-> with_model m experiments = []) /\
      ModelStat.total group = Z.of_nat (length (with_model m experiments)) /\
      forall r,
        get_default (ModelStat.ratings group) r 0%Z =
        Z.of_nat (occurrences r (List.map rating_of (with_model m experiments))).
Proof.
  eexists. split; [apply calculate_stats_ok|]. cbn [model_stats]. intros m.
  destruct (model_step_fold m experiments []) as [H1 H2]. cbv zeta in *.
  split; [|split].
  - rewrite get_None_keys, model_stats_keys, first_seen_In.
    symmetry. apply with_model_nil.
  - rewrite H1. cbn. lia.
  - intros r. rewrite H2. cbn. lia.
Qed.

End ModelGroups.

(** ** No empty bucket *)

Lemma get_default_at_least (c : Counter) (k : str) (n : Z) :
  (n <= 0)%Z -> Forall (fun kv => (n <= snd kv)%Z) c ->
  (n <= get_default c k 0)%Z.
Proof.
  intros Hn Hc. unfold get_default. destruct (get c k) as [v|] eqn:E; [|exact Hn].
  exact (get_Forall (fun v => (n <= v)%Z) _ Hc E).
Qed.

Lemma incr_positive (c : Counter) (k : str) :
  Forall (fun kv => (1 <= snd kv)%Z) c ->
  Forall (fun kv => (1 <= snd kv)%Z) (incr c k).
Proof.
  intros Hc. unfold incr. apply (set_Forall (fun v => (1 <= v)%Z)); [exact Hc|].
  assert (0 <= get_default c k 0)%Z; [|lia].
  apply get_default_at_least; [lia|].
  eapply Forall_impl; [|exact Hc]. cbn. intros; lia.
Qed.

Lemma fold_incr_positive (l : list str) (c : Counter) :
  Forall (fun kv => (1 <= snd kv)%Z) c ->
  Forall (fun kv => (1 <= snd kv)%Z) (fold_left incr l c).
Proof.
  revert c; induction l as [|x l IH]; intros c Hc; [exact Hc|].
  cbn [fold_left]. apply IH. now apply incr_positive.
Qed.

Lemma model_step_populated (d : dict ModelStat.t) (e : Experiment) :
  Forall (fun kv => populated (snd kv)) d ->
  Forall (fun kv => populated (snd kv)) (model_step d e).
Proof.
  intros Hd. unfold model_step. apply set_Forall; [exact Hd|].
  assert (He : (0 <= ModelStat.total (get_default d (model_of e) ModelStat.fresh))%Z /\
               Forall (fun kv => (1 <= snd kv)%Z)
                 (ModelStat.ratings (get_default d (model_of e) ModelStat.fresh))).
  { unfold get_default. destruct (get d (model_of e)) as [ms|] eqn:E.
    - destruct (get_Forall populated _ Hd E) as [H1 H2]. split; [lia|exact H2].
    - cbn. split; [lia|constructor]. }
  destruct He as [H1 H2]. split; cbn [ModelStat.total ModelStat.ratings].
  - lia.
  - now apply incr_positive.
Qed.

Lemma model_stats_populated (experiments : list Experiment) (d : dict ModelStat.t) :
  Forall (fun kv => populated (snd kv)) d ->
  Forall (fun kv => populated (snd kv)) (fold_left model_step experiments d).
Proof.
  revert d; induction experiments as [|e l IH]; intros d Hd; [exact Hd|].
  cbn [fold_left]. apply IH. now apply model_step_populated.
Qed.

Lemma back_references_nonempty (pairs : list (str * str)) (d : dict (list str)) :
  Forall (fun kv => snd kv <> []) d ->
  Forall (fun kv => snd kv <> [])
    (fold_left (fun d p => set d (fst p) (get_default d (fst p) [] ++ [snd p]))
               pairs d).
Proof.
  revert d; induction pairs as [|p l IH]; intros d Hd; [exact Hd|].
  cbn [fold_left]. apply IH.
  apply (set_Forall (fun v : list str => v <> [])); [exact Hd|].
  intros E. apply app_eq_nil in E as [_ E]. discriminate.
Qed.

Section Buckets.
Variable round : Q -> Q.

(** The aggregator stores no empty bucket: every rating count and every tag
    count is at least 1, every model group has at least one record and only
    positive rating counts, and every back-reference list has an id. *)
Theorem no_empty_bucket (experiments : list Experiment) :
  exists stats,
    calculate_stats round experiments = Ok stats /\
    Forall (fun kv => (1 <= snd kv)%Z) (rating_counts stats) /\
    Forall (fun kv => (1 <= ModelStat.total (snd kv))%Z /\
                      Forall (fun rc => (1 <= snd rc)%Z)
                             (ModelStat.ratings (snd kv)))
           (model_stats stats) /\
    Forall (fun kv => (1 <= snd kv)%Z) (tag_counts stats) /\
    Forall (fun kv => snd kv <> []) (tag_experiments stats).
Proof.
  eexists. split; [apply calculate_stats_ok|].
  cbn [rating_counts model_stats tag_counts tag_experiments].
  split; [|split; [|split]].
  - apply fold_incr_positive. constructor.
  - apply (model_stats_populated experiments (d := [])). constructor.
  - rewrite tags_step_fst. apply fold_incr_positive. constructor.
  - rewrite tags_step_snd. apply back_references_nonempty. constructor.
Qed.

End Buckets.

(** ** The model groups partition the records *)

Lemma group_totals_set (d : dict ModelStat.t) (k : str) (v : ModelStat.t) :
  sumZ (List.map ModelStat.total (values (set d k v))) =
  (sumZ (List.map ModelStat.total (values d))
   - ModelStat.total (get_default d k ModelStat.fresh) + ModelStat.total v)%Z.
Proof.
  unfold get_default, values, sumZ in *. induction d as [|[k0 v0] d IH].
  - cbn. lia.
  - cbn [set get]. destruct (str_eqb k0 k); cbn [List.map snd fold_right].
    + lia.
    + rewrite IH. lia.
Qed.

Lemma group_totals_fold (experiments : list Experiment) (d : dict ModelStat.t) :
  sumZ (List.map ModelStat.total (values (fold_left model_step experiments d))) =
  (sumZ (List.map ModelStat.total (values d)) + Z.of_nat (length experiments))%Z.
Proof.
  revert d; induction experiments as [|e l IH]; intros d; cbn [fold_left length].
  - lia.
  - rewrite IH. unfold model_step. rewrite group_totals_set.
    cbn [ModelStat.total]. lia.
Qed.

Section Partition.
Variable round : Q -> Q.

(** Every record is counted in exactly one model group: the groups' totals
    add up to the number of records. *)
Theorem group_totals_sum (experiments : list Experiment) :
  exists stats,
    calculate_stats round experiments = Ok stats /\
    sumZ (List.map ModelStat.total (values (model_stats stats))) = total stats.
Proof.
  eexists. split; [apply calculate_stats_ok|]. cbn [model_stats total].
  rewrite group_totals_fold. cbn. lia.
Qed.

End Partition.

(** ** Percentages of the charts and the report *)

Lemma mapM_ok (A B : Type) (f : A -> result B) (g : A -> B) (l : list A) :
  (forall x, In x l -> f x = Ok (g x)) -> mapM f l = Ok (List.map g l).
Proof.
  induction l as [|x l IH]; intros H; [reflexivity|].
  cbn [mapM List.map]. rewrite (H x) by now left.
  cbn [bind]. rewrite IH by (intros y Hy; apply H; now right). reflexivity.
Qed.

Lemma mapM_map (A B C : Type) (h : A -> B) (f : B -> result C) (l : list A) :
  mapM f (List.map h l) = mapM (fun x => f (h x)) l.
Proof.
  induction l as [|x l IH]; [reflexivity|]. cbn [mapM List.map]. now rewrite IH.
Qed.

Lemma percentage_ok (round : Q -> Q) (part whole : Z) :
  percentage round part whole =
  Ok (if (whole >? 0)%Z then float_percentage round part whole else 0).
Proof.
  unfold percentage. destruct (whole >? 0)%Z eqn:E; [|reflexivity].
  rewrite truediv_ok by exact E. reflexivity.
Qed.

Lemma success_total_occ (experiments : list Experiment) :
  success_total experiments =
  (rated [EXCEEDED] experiments + rated [MET] experiments)%Z.
Proof.
  rewrite <- success_count_spec. unfold sum_get, SUCCESS, rated.
  cbn [List.map fold_left]. rewrite !Counter_of_get. lia.
Qed.

Lemma with_model_nonempty (m : str) (experiments : list Experiment) :
  In m (first_seen (List.map model_of experiments)) ->
  (0 < Z.of_nat (length (with_model m experiments)))%Z.
Proof.
  intros H. rewrite first_seen_In in H.
  destruct (with_model m experiments) eqn:E; [|cbn; lia].
  apply with_model_nil in E. contradiction.
Qed.

(** The group of model [m], as the loop leaves it. *)
Lemma model_group_of (m : str) (experiments : list Experiment) :
  let data := get_default (fold_left model_step experiments []) m ModelStat.fresh in
  ModelStat.total data = Z.of_nat (length (with_model m experiments)) /\
  group_success data = success_total (with_model m experiments) /\
  List.map (fun g => get_default (ModelStat.ratings data) g 0%Z) CANONICAL =
  List.map (fun g => rated g (with_model m experiments)) CANONICAL.
Proof.
  destruct (model_step_fold m experiments []) as [H1 H2]. cbv zeta in *.
  split; [rewrite H1; cbn; lia|]. split.
  - rewrite success_total_occ. unfold group_success, sum_get, SUCCESS, rated.
    cbn [List.map fold_left]. rewrite !H2. cbn. lia.
  - apply map_ext. intros g. rewrite H2. unfold rated. cbn. lia.
Qed.

Lemma dict_as_lookup (V : Type) (d : dict V) (dflt : V) :
  NoDup (keys d) ->
  d = List.map (fun k => (k, get_default d k dflt)) (keys d).
Proof.
  induction d as [|[k0 v0] d IH]; [reflexivity|].
  intros Hnd. inversion Hnd as [|? ? Hout Hnd']; subst.
  unfold keys in *. cbn [List.map fst]. f_equal.
  - unfold get_default. cbn [get]. now rewrite str_eqb_refl.
  - rewrite (IH Hnd') at 1. apply map_ext_in. intros k Hk.
    unfold get_default. cbn [get].
    destruct (str_eqb k0 k) eqn:E; [|reflexivity].
    apply str_eqb_eq in E. subst. contradiction.
Qed.

Section Percentages.
Variable round : Q -> Q.
Hypothesis round_monotone : forall x y, x <= y -> round x <= round y.
Hypothesis round_0 : round 0 == 0.
Hypothesis round_1 : round 1 == 1.
Hypothesis round_100 : round (inject_Z 100) == inject_Z 100.

Lemma float_percentage_range (part whole : Z) :
  (0 <= part <= whole)%Z -> (0 < whole)%Z ->
  in_percent_range (float_percentage round part whole).
Proof.
  intros Hp Hw.
  exact (@percentage_bounds round round_monotone round_0 round_1 round_100
           part whole Hp Hw).
Qed.

Lemma group_percentage_range (experiments : list Experiment) :
  (0 < Z.of_nat (length experiments))%Z ->
  in_percent_range
    (float_percentage round (success_total experiments)
                      (Z.of_nat (length experiments))).
Proof.
  intros H. apply float_percentage_range; [apply success_total_le|exact H].
Qed.

Lemma comparison_rates_ok (experiments : list Experiment) :
  comparison_rates round (fold_left model_step experiments []) =
  Ok (List.map (fun m =>
                  float_percentage round
                    (success_total (with_model m experiments))
                    (Z.of_nat (length (with_model m experiments))))
               (first_seen (List.map model_of experiments))).
Proof.
  unfold comparison_rates, comparison_models. rewrite model_stats_keys.
  apply mapM_ok. intros m Hm.
  destruct (model_group_of m experiments) as [H1 [H2 _]]. cbv zeta in *.
  fold (group_success
          (get_default (fold_left model_step experiments []) m ModelStat.fresh)).
  rewrite percentage_ok, H1, H2.
  replace (Z.of_nat (length (with_model m experiments)) >? 0)%Z with true;
    [reflexivity|].
  symmetry. apply Z.gtb_lt. now apply with_model_nonempty.
Qed.

(** The model comparison chart has one bar per model, in the order the
    models first appear in the records; its height is the float percentage
    of that model's records rated ◎ or ○.  No bar falls back on the guard's
    0, no division by zero occurs, and every height is within [0,100]. *)
Theorem comparison_chart_bars (experiments : list Experiment) :
  exists stats rates,
    calculate_stats round experiments = Ok stats /\
    comparison_models (model_stats stats) =
      first_seen (List.map model_of experiments) /\
    comparison_rates round (model_stats stats) = Ok rates /\
    rates =
      List.map (fun m =>
                  float_percentage round
                    (success_total (with_model m experiments))
                    (Z.of_nat (length (with_model m experiments))))
               (first_seen (List.map model_of experiments)) /\
    Forall in_percent_range rates.
Proof.
  eexists. eexists. split; [apply calculate_stats_ok|]. cbn [model_stats].
  split; [unfold comparison_models; apply model_stats_keys|].
  split; [apply comparison_rates_ok|]. split; [reflexivity|].
  apply Forall_forall. intros r Hr. apply in_map_iff in Hr as [m [<- Hm]].
  apply group_percentage_range. now apply with_model_nonempty.
Qed.

(** The report's model table has one row per model, in first-seen order;
    the row shows the number of that model's records, how many of them carry
    each of the four ratings, and the same success rate as the chart's bar,
    within [0,100]. *)
Theorem report_model_rows (experiments : list Experiment) :
  exists stats rows,
    calculate_stats round experiments = Ok stats /\
    model_rows round stats = Ok rows /\
    rows = List.map (model_row_of round experiments)
                    (first_seen (List.map model_of experiments)) /\
    comparison_rates round (model_stats stats) =
      Ok (List.map row_success_rate rows) /\
    Forall (fun row => in_percent_range (row_success_rate row)) rows.
Proof.
  eexists. eexists. split; [apply calculate_stats_ok|].
  assert (Hrows :
    model_rows round
      {| total := Z.of_nat (length experiments);
         success_rate :=
           (let n := Z.of_nat (length experiments) in
            let c := sum_get (Counter_of (List.map rating_of experiments)) SUCCESS in
            if (n >? 0)%Z
            then round (round (inject_Z c / inject_Z n) * inject_Z 100)
            else 0);
         rating_counts := Counter_of (List.map rating_of experiments);
         model_stats := fold_left model_step experiments [];
         tag_counts := fst (fold_left tags_step experiments ([], []));
         tag_experiments := snd (fold_left tags_step experiments ([], [])) |} =
    Ok (List.map (model_row_of round experiments)
                 (first_seen (List.map model_of experiments)))).
  { unfold model_rows. cbn [model_stats].
    rewrite (dict_as_lookup (fold_left model_step experiments []) ModelStat.fresh)
      at 1 by (rewrite model_stats_keys; apply first_seen_NoDup).
    rewrite mapM_map, model_stats_keys. apply mapM_ok. intros m Hm.
    cbn [fst snd].
    destruct (model_group_of m experiments) as [H1 [H2 H3]]. cbv zeta in *.
    fold (group_success
            (get_default (fold_left model_step experiments []) m ModelStat.fresh)).
    rewrite percentage_ok, H1, H2, H3.
    replace (Z.of_nat (length (with_model m experiments)) >? 0)%Z with true;
      [reflexivity|].
    symmetry. apply Z.gtb_lt. now apply with_model_nonempty. }
  split; [exact Hrows|]. split; [reflexivity|]. split.
  - cbn [model_stats]. rewrite comparison_rates_ok, map_map. reflexivity.
  - apply Forall_forall. intros row Hr. apply in_map_iff in Hr as [m [<- Hm]].
    apply group_percentage_range. now apply with_model_nonempty.
Qed.

End Percentages.

(** ** The report's rating table *)

Lemma count_partition (experiments : list Experiment) :
  Z.of_nat (length experiments) =
  (sumZ (List.map (fun g => rated g experiments) CANONICAL)
   + Z.of_nat (length (unrated experiments)))%Z.
Proof.
  unfold rated, unrated, CANONICAL, occurrences, mem.
  cbn [List.map sumZ fold_right existsb].
  induction experiments as [|e l IH]; [reflexivity|].
  cbn [List.map filter length].
  rewrite (str_eqb_sym (rating_of e) [EXCEEDED]), (str_eqb_sym (rating_of e) [MET]),
    (str_eqb_sym (rating_of e) [BELOW]), (str_eqb_sym (rating_of e) [FAILED]).
  destruct (str_eqb [EXCEEDED] (rating_of e)) eqn:E1,
           (str_eqb [MET] (rating_of e)) eqn:E2,
           (str_eqb [BELOW] (rating_of e)) eqn:E3,
           (str_eqb [FAILED] (rating_of e)) eqn:E4;
    cbn [orb negb length];
    repeat match goal with
           | H : str_eqb _ _ = true |- _ => apply str_eqb_eq in H
           end;
    try (match goal with
         | H1 : ?a = rating_of e, H2 : ?b = rating_of e |- _ =>
             exfalso; rewrite <- H1 in H2; discriminate H2
         end);
    try lia.
Qed.

Lemma rated_le (g : str) (experiments : list Experiment) :
  (0 <= rated g experiments <= Z.of_nat (length experiments))%Z.
Proof.
  unfold rated, occurrences. split; [lia|]. apply inj_le.
  rewrite <- (length_map rating_of experiments). apply filter_length_le.
Qed.

Section RatingTable.
Variable round : Q -> Q.
Hypothesis round_monotone : forall x y, x <= y -> round x <= round y.
Hypothesis round_0 : round 0 == 0.
Hypothesis round_1 : round 1 == 1.
Hypothesis round_100 : round (inject_Z 100) == inject_Z 100.

(** The report's rating table always has the four rows ◎ ○ △ ❌ in that
    order, a rating that never occurs showing 0; a row's count is the number
    of records with that rating and its percentage lies in [0,100].  Records
    with any other rating, or none, are in no row: the rows' counts add up to
    the total less the number of those records. *)
Theorem report_rating_rows (experiments : list Experiment) :
  exists stats rows,
    calculate_stats round experiments = Ok stats /\
    rating_rows round stats = Ok rows /\
    List.map row_rating rows = CANONICAL /\
    List.map row_count rows = List.map (fun g => rated g experiments) CANONICAL /\
    Forall (fun row => in_percent_range (row_percentage row)) rows /\
    sumZ (List.map row_count rows) =
      (total stats - Z.of_nat (length (unrated experiments)))%Z.
Proof.
  eexists. eexists. split; [apply calculate_stats_ok|].
  unfold rating_rows. cbn [rating_counts total].
  split; [apply mapM_ok; intros g _; rewrite percentage_ok; reflexivity|].
  rewrite !map_map. cbn [row_rating row_count row_percentage].
  split; [apply map_id|]. split; [|split].
  - apply map_ext. intros g. apply Counter_of_get.
  - apply Forall_forall. intros row Hr. apply in_map_iff in Hr as [g [<- _]].
    cbn [row_percentage]. rewrite Counter_of_get. fold (rated g experiments).
    destruct (Z.of_nat (length experiments) >? 0)%Z eqn:E.
    + apply (@percentage_bounds round round_monotone round_0 round_1 round_100);
        [apply rated_le|]. now apply Z.gtb_lt.
    + split; discriminate.
  - rewrite (count_partition experiments).
    replace (List.map (fun x => get_default (Counter_of (List.map rating_of experiments)) x 0%Z)
                      CANONICAL)
      with (List.map (fun g => rated g experiments) CANONICAL)
      by (apply map_ext; intros g; symmetry; apply Counter_of_get).
    lia.
Qed.

End RatingTable.

(** ** [most_common] and the report's tag table *)

Lemma insert_desc_perm (x : str * Z) (l : list (str * Z)) :
  Permutation (insert_desc x l) (x :: l).
Proof.
  induction l as [|y t IH]; cbn [insert_desc]; [reflexivity|].
  destruct (snd y <=? snd x)%Z; [reflexivity|].
  rewrite IH. apply perm_swap.
Qed.

Lemma most_common_perm (c : Counter) : Permutation (most_common c) c.
Proof.
  induction c as [|x t IH]; cbn [most_common]; [reflexivity|].
  rewrite insert_desc_perm. now constructor.
Qed.

Lemma insert_desc_sorted (x : str * Z) (l : list (str * Z)) :
  StronglySorted (fun a b => (snd b <= snd a)%Z) l ->
  StronglySorted (fun a b => (snd b <= snd a)%Z) (insert_desc x l).
Proof.
  induction 1 as [|y t Ht IH Hy]; cbn [insert_desc].
  - repeat constructor.
  - destruct (Z.leb_spec (snd y) (snd x)) as [Hle|Hgt].
    + constructor; [now constructor|]. constructor; [exact Hle|].
      eapply Forall_impl; [|exact Hy]. cbn. intros; lia.
    + constructor; [exact IH|].
      apply (Permutation_Forall (Permutation_sym (insert_desc_perm x t))).
      constructor; [lia|exact Hy].
Qed.

Lemma most_common_sorted (c : Counter) :
  StronglySorted (fun a b => (snd b <= snd a)%Z) (most_common c).
Proof.
  induction c as [|x t IH]; cbn [most_common]; [constructor|].
  now apply insert_desc_sorted.
Qed.

(** Items with equal counts keep the order they have in the counter. *)
Lemma insert_desc_stable (n : Z) (x : str * Z) (l : list (str * Z)) :
  filter (fun kv => (snd kv =? n)%Z) (insert_desc x l) =
  filter (fun kv => (snd kv =? n)%Z) (x :: l).
Proof.
  induction l as [|y t IH]; cbn [insert_desc]; [reflexivity|].
  destruct (Z.leb_spec (snd y) (snd x)) as [Hle|Hgt]; [reflexivity|].
  cbn [filter] in *. rewrite IH.
  destruct (Z.eqb_spec (snd x) n), (Z.eqb_spec (snd y) n); try reflexivity; lia.
Qed.

Lemma most_common_stable (n : Z) (c : Counter) :
  filter (fun kv => (snd kv =? n)%Z) (most_common c) =
  filter (fun kv => (snd kv =? n)%Z) c.
Proof.
  induction c as [|x t IH]; cbn [most_common]; [reflexivity|].
  rewrite insert_desc_stable. cbn [filter]. now rewrite IH.
Qed.

Lemma StronglySorted_map (A B : Type) (f : A -> B) (R : B -> B -> Prop)
    (l : list A) :
  StronglySorted (fun a b => R (f a) (f b)) l -> StronglySorted R (List.map f l).
Proof.
  induction 1 as [|a l Hl IH Ha]; cbn [List.map]; constructor; [exact IH|].
  apply Forall_forall. intros y Hy. apply in_map_iff in Hy as [b [<- Hb]].
  rewrite Forall_forall in Ha. exact (Ha b Hb).
Qed.

Lemma tag_counts_items (experiments : list Experiment) :
  fst (fold_left tags_step experiments ([], [])) = tag_items experiments.
Proof.
  assert (Hk : keys (fst (fold_left tags_step experiments ([], []))) =
               first_seen (all_tags experiments)).
  { rewrite tags_step_fst. apply Counter_of_keys. }
  rewrite (dict_as_lookup (fst (fold_left tags_step experiments ([], []))) 0%Z)
    by (rewrite Hk; apply first_seen_NoDup).
  rewrite Hk. unfold tag_items. apply map_ext. intros tag. f_equal.
  destruct (tags_step_fold tag experiments ([], [])) as [H _].
  cbv zeta in H. rewrite H. cbn. lia.
Qed.

Section TagTable.
Variable round : Q -> Q.

(** The report's tag table has one row per distinct tag, by descending
    number of occurrences; tags with the same number stand in the order in
    which they first occur in the records.  A row shows the tag's
    occurrences over all records and links one id per occurrence. *)
Theorem report_tag_rows (experiments : list Experiment) :
  exists stats,
    calculate_stats round experiments = Ok stats /\
    tag_rows stats =
      List.map (tag_row_of experiments) (most_common (tag_items experiments)) /\
    Permutation (List.map row_tag (tag_rows stats))
                (first_seen (all_tags experiments)) /\
    StronglySorted (fun a b => (row_occurrences b <= row_occurrences a)%Z)
                   (tag_rows stats) /\
    (forall n,
       List.map row_tag
         (filter (fun row => (row_occurrences row =? n)%Z) (tag_rows stats)) =
       filter (fun tag => (Z.of_nat (tag_occurrences tag experiments) =? n)%Z)
              (first_seen (all_tags experiments))) /\
    Forall (fun row =>
              row_occurrences row = Z.of_nat (tag_occurrences (row_tag row) experiments) /\
              row_occurrences row = Z.of_nat (length (row_links row)) /\
              (1 <= row_occurrences row)%Z)
           (tag_rows stats).
Proof.
  eexists. split; [apply calculate_stats_ok|].
  assert (Hrows :
    tag_rows
      {| total := Z.of_nat (length experiments);
         success_rate :=
           (let n := Z.of_nat (length experiments) in
            let c := sum_get (Counter_of (List.map rating_of experiments)) SUCCESS in
            if (n >? 0)%Z
            then round (round (inject_Z c / inject_Z n) * inject_Z 100)
            else 0);
         rating_counts := Counter_of (List.map rating_of experiments);
         model_stats := fold_left model_step experiments [];
         tag_counts := fst (fold_left tags_step experiments ([], []));
         tag_experiments := snd (fold_left tags_step experiments ([], [])) |} =
    List.map (tag_row_of experiments) (most_common (tag_items experiments))).
  { unfold tag_rows. cbn [tag_counts tag_experiments].
    rewrite tag_counts_items. apply map_ext. intros [tag n].
    unfold tag_row_of. cbn [fst snd]. f_equal.
    destruct (tags_step_fold tag experiments ([], [])) as [_ H].
    cbv zeta in H. rewrite H. reflexivity. }
  rewrite Hrows. clear Hrows. split; [reflexivity|]. split; [|split; [|split]].
  - rewrite map_map. cbn [tag_row_of row_tag].
    rewrite (Permutation_map fst (most_common_perm (tag_items experiments))).
    unfold tag_items. rewrite map_map. cbn [fst]. now rewrite map_id.
  - apply StronglySorted_map. exact (most_common_sorted (tag_items experiments)).
  - intros n.
    transitivity (List.map fst (filter (fun kv => (snd kv =? n)%Z)
                                       (most_common (tag_items experiments)))).
    + induction (most_common (tag_items experiments)) as [|[t k] l IH];
        [reflexivity|].
      cbn [List.map filter tag_row_of row_occurrences snd].
      destruct (k =? n)%Z; cbn [List.map row_tag fst]; now rewrite IH.
    + rewrite most_common_stable. unfold tag_items.
      induction (first_seen (all_tags experiments)) as [|t l IH]; [reflexivity|].
      cbn [List.map filter snd].
      destruct (Z.of_nat (tag_occurrences t experiments) =? n)%Z;
        cbn [List.map fst]; now rewrite IH.
  - apply Forall_forall. intros row Hr. apply in_map_iff in Hr as [[t k] [<- Hin]].
    apply (Permutation_in _ (most_common_perm _)) in Hin.
    unfold tag_items in Hin. apply in_map_iff in Hin as [t' [E Ht]].
    injection E as -> <-. cbn [tag_row_of row_tag row_occurrences row_links fst snd].
    rewrite length_back_references. split; [reflexivity|]. split; [reflexivity|].
    rewrite first_seen_In in Ht. unfold all_tags in Ht.
    apply in_flat_map in Ht as [e [He Hte]].
    assert (1 <= tag_occurrences t experiments)%nat; [|lia].
    unfold tag_occurrences. clear -He Hte.
    induction experiments as [|e0 l IH]; [contradiction|]. cbn [List.map list_sum].
    destruct He as [->|He].
    + unfold occurrences. apply in_split in Hte as [a [b ->]].
      rewrite filter_app. cbn [filter]. rewrite str_eqb_refl, length_app.
      cbn [length list_sum fold_right]. lia.
    + specialize (IH He). unfold list_sum in *. cbn [fold_right] in *. lia.
Qed.

End TagTable.

(** ** The timeline chart *)

Lemma str_leb_refl (a : str) : str_leb a a = true.
Proof.
  induction a as [|x a IH]; [reflexivity|]. cbn [str_leb].
  now rewrite N.ltb_irrefl.
Qed.

Lemma str_leb_antisym (a b : str) :
  str_leb a b = true -> str_leb b a = true -> a = b.
Proof.
  revert b; induction a as [|x a IH]; intros [|y b]; cbn [str_leb];
    try congruence.
  destruct (N.ltb_spec x y), (N.ltb_spec y x); try congruence; try lia.
  intros H1 H2. f_equal; [lia|now apply IH].
Qed.

Section StableSort.
Variable A : Type.
Variable key : A -> str.

(** [sorted] is stable: the elements with one key keep their order. *)
Lemma insert_stable (k : str) (x : A) (l : list A) :
  filter (fun y => str_eqb (key y) k) (insert key x l) =
  filter (fun y => str_eqb (key y) k) (x :: l).
Proof.
  induction l as [|y t IH]; cbn [insert]; [reflexivity|].
  destruct (str_leb (key x) (key y)) eqn:E; [reflexivity|].
  cbn [filter] in *. rewrite IH.
  destruct (str_eqb (key x) k) eqn:Ex, (str_eqb (key y) k) eqn:Ey; try reflexivity.
  apply str_eqb_eq in Ex, Ey. rewrite Ex, Ey, str_leb_refl in E. discriminate.
Qed.

Lemma sorted_stable (k : str) (l : list A) :
  filter (fun y => str_eqb (key y) k) (sorted key l) =
  filter (fun y => str_eqb (key y) k) l.
Proof.
  induction l as [|x t IH]; cbn [sorted]; [reflexivity|].
  rewrite insert_stable. cbn [filter]. now rewrite IH.
Qed.

End StableSort.

Lemma combine_map (A B C : Type) (f : A -> B) (g : A -> C) (l : list A) :
  combine (List.map f l) (List.map g l) = List.map (fun x => (f x, g x)) l.
Proof.
  induction l as [|x l IH]; [reflexivity|]. cbn [List.map combine]. now rewrite IH.
Qed.

Lemma score_spec (exp : Experiment) :
  (0 <= score exp <= 4)%Z /\
  (score exp = 0%Z <-> ~ In (get_or_empty (rating exp)) CANONICAL).
Proof.
  unfold score, RATING_ORDER, get_default, CANONICAL. cbn [get In].
  destruct (str_eqb [EXCEEDED] (get_or_empty (rating exp))) eqn:E1;
    [apply str_eqb_eq in E1; split; [lia|]; split; [discriminate|tauto]|].
  destruct (str_eqb [MET] (get_or_empty (rating exp))) eqn:E2;
    [apply str_eqb_eq in E2; split; [lia|]; split; [discriminate|tauto]|].
  destruct (str_eqb [BELOW] (get_or_empty (rating exp))) eqn:E3;
    [apply str_eqb_eq in E3; split; [lia|]; split; [discriminate|tauto]|].
  destruct (str_eqb [FAILED] (get_or_empty (rating exp))) eqn:E4;
    [apply str_eqb_eq in E4; split; [lia|]; split; [discriminate|tauto]|].
  apply str_eqb_neq in E1, E2, E3, E4. split; [lia|]. tauto.
Qed.

(** The timeline plots every record once, by ascending date string: records
    without a date (key "") before all others, records with equal dates in
    the order they were collected.  The two plotted series follow that
    order: the k-th x value is the id of the k-th record in date order, ""
    if it has none, and the k-th y value is its ordinal, 4 for ◎, 3 for ○,
    2 for △, 1 for ❌ and 0 for anything else or no rating. *)
Theorem timeline_series (experiments : list Experiment) :
  exists order,
    Permutation order experiments /\
    StronglySorted
      (fun a b => str_le (get_or_empty (date a)) (get_or_empty (date b))) order /\
    (forall d,
       filter (fun exp => str_eqb (get_or_empty (date exp)) d) order =
       filter (fun exp => str_eqb (get_or_empty (date exp)) d) experiments) /\
    timeline_dates experiments =
      List.map (fun exp => get_or_empty (id exp)) order /\
    timeline_ratings experiments =
      List.map (fun exp =>
                  match rating exp with
                  | Some r =>
                      if str_eqb r [EXCEEDED] then 4%Z
                      else if str_eqb r [MET] then 3%Z
                      else if str_eqb r [BELOW] then 2%Z
                      else if str_eqb r [FAILED] then 1%Z
                      else 0%Z
                  | None => 0%Z
                  end) order /\
    Permutation
      (combine (timeline_dates experiments) (timeline_ratings experiments))
      (List.map (fun exp => (get_or_empty (id exp), score exp)) experiments) /\
    length (timeline_dates experiments) = length experiments /\
    length (timeline_ratings experiments) = length experiments /\
    Forall (fun y => (0 <= y <= 4)%Z) (timeline_ratings experiments) /\
    (forall exp, score exp = 0%Z <-> ~ In (get_or_empty (rating exp)) CANONICAL).
Proof.
  exists (sorted_exps experiments).
  unfold timeline_dates, timeline_ratings.
  assert (Hperm : Permutation (sorted_exps experiments) experiments)
    by apply sorted_perm.
  split; [exact Hperm|].
  split; [apply (sorted_sorted (fun x : Experiment => get_or_empty (date x)))|].
  split; [intros d;
          apply (sorted_stable (fun x : Experiment => get_or_empty (date x)))|].
  split; [reflexivity|].
  split; [|split; [|split; [|split; [|split]]]].
  - apply map_ext. intros exp. unfold RATING_ORDER, get_default. cbn [get].
    destruct (rating exp) as [r|]; cbn [get_or_empty].
    + rewrite (str_eqb_sym r [EXCEEDED]), (str_eqb_sym r [MET]),
        (str_eqb_sym r [BELOW]), (str_eqb_sym r [FAILED]).
      destruct (str_eqb [EXCEEDED] r); [reflexivity|].
      destruct (str_eqb [MET] r); [reflexivity|].
      destruct (str_eqb [BELOW] r); [reflexivity|].
      destruct (str_eqb [FAILED] r); reflexivity.
    + reflexivity.
  - rewrite combine_map. fold score. now apply Permutation_map.
  - rewrite length_map. now apply Permutation_length.
  - rewrite length_map. now apply Permutation_length.
  - apply Forall_forall. intros y Hy. apply in_map_iff in Hy as [e [<- _]].
    apply score_spec.
  - intros exp. apply score_spec.
Qed.

(** The timeline of [three_records]: 003 has no date and comes first, then
    002 (2025-01-01) and 001 (2025-01-03). *)
Example timeline_of_three_records :
  timeline_dates three_records = [u "003"; u "002"; u "001"] /\
  timeline_ratings three_records = [3; 1; 4]%Z.
Proof. split; vm_compute; reflexivity. Qed.

(** ** The statistics do not depend on the order of the records *)

Lemma filter_perm (A : Type) (p : A -> bool) (l l' : list A) :
  Permutation l l' -> Permutation (filter p l) (filter p l').
Proof.
  induction 1 as [|x l l' _ IH|x y l|l l' l'' _ IH1 _ IH2]; cbn [filter].
  - constructor.
  - destruct (p x); [now constructor|exact IH].
  - destruct (p x), (p y); try reflexivity. apply perm_swap.
  - now transitivity (filter p l').
Qed.

Lemma occurrences_perm (k : str) (l l' : list str) :
  Permutation l l' -> occurrences k l = occurrences k l'.
Proof.
  intros H. unfold occurrences. apply Permutation_length. now apply filter_perm.
Qed.

Lemma tag_occurrences_perm (tag : str) (l l' : list Experiment) :
  Permutation l l' -> tag_occurrences tag l = tag_occurrences tag l'.
Proof.
  unfold tag_occurrences, list_sum.
  induction 1 as [|x l l' _ IH|x y l|l l' l'' _ IH1 _ IH2]; cbn [List.map fold_right];
    lia.
Qed.

Section OrderIndependence.
Variable round : Q -> Q.

(** Reordering the records changes no number of the statistics: the total,
    the success rate, every rating count, every model group's total and
    rating counts and every tag count stay the same; a tag's back-reference
    list keeps its ids, in another order. *)
Theorem stats_order_independent (experiments experiments' : list Experiment) :
  Permutation experiments experiments' ->
  exists stats stats',
    calculate_stats round experiments = Ok stats /\
    calculate_stats round experiments' = Ok stats' /\
    total stats = total stats' /\
    success_rate stats = success_rate stats' /\
    (forall r, get_default (rating_counts stats) r 0%Z =
               get_default (rating_counts stats') r 0%Z) /\
    (forall m,
       ModelStat.total (get_default (model_stats stats) m ModelStat.fresh) =
       ModelStat.total (get_default (model_stats stats') m ModelStat.fresh) /\
       forall r,
         get_default (ModelStat.ratings
                        (get_default (model_stats stats) m ModelStat.fresh)) r 0%Z =
         get_default (ModelStat.ratings
                        (get_default (model_stats stats') m ModelStat.fresh)) r 0%Z) /\
    (forall tag,
       get_default (tag_counts stats) tag 0%Z =
       get_default (tag_counts stats') tag 0%Z /\
       Permutation (get_default (tag_experiments stats) tag [])
                   (get_default (tag_experiments stats') tag [])).
Proof.
  intros Hp. eexists. eexists.
  split; [apply calculate_stats_ok|]. split; [apply calculate_stats_ok|].
  cbn [total success_rate rating_counts model_stats tag_counts tag_experiments].
  assert (Hlen : length experiments = length experiments')
    by now apply Permutation_length.
  split; [now rewrite Hlen|]. split; [|split; [|split]].
  - cbv zeta. rewrite !success_count_spec, Hlen. unfold success_total.
    now rewrite (Permutation_length (filter_perm is_success Hp)).
  - intros r. rewrite !Counter_of_get.
    now rewrite (occurrences_perm r (Permutation_map rating_of Hp)).
  - intros m.
    destruct (model_step_fold m experiments []) as [H1 H2].
    destruct (model_step_fold m experiments' []) as [H1' H2'].
    cbv zeta in *.
    assert (Hm : Permutation (with_model m experiments) (with_model m experiments'))
      by (apply filter_perm; exact Hp).
    split.
    + rewrite H1, H1'. now rewrite (Permutation_length Hm).
    + intros r. rewrite H2, H2'.
      now rewrite (occurrences_perm r (Permutation_map rating_of Hm)).
  - intros tag.
    destruct (tags_step_fold tag experiments ([], [])) as [H1 H2].
    destruct (tags_step_fold tag experiments' ([], [])) as [H1' H2'].
    cbv zeta in *. rewrite H1, H1', H2, H2'. split.
    + now rewrite (tag_occurrences_perm tag Hp).
    + cbn [fst snd get_default get app]. unfold back_references.
      now apply Permutation_flat_map.
Qed.

End OrderIndependence.

(** Two files swapped. *)
Lemma stats_order_independent_witness :
  exists stats stats',
    calculate_stats (fun q => q)
      [tagged (u "001") [u "x"; u "y"]; tagged (u "002") [u "y"]] = Ok stats /\
    calculate_stats (fun q => q)
      [tagged (u "002") [u "y"]; tagged (u "001") [u "x"; u "y"]] = Ok stats' /\
    get_default (tag_counts stats) (u "y") 0%Z =
    get_default (tag_counts stats') (u "y") 0%Z.
Proof.
  destruct (@stats_order_independent (fun q => q)
              [tagged (u "001") [u "x"; u "y"]; tagged (u "002") [u "y"]]
              [tagged (u "002") [u "y"]; tagged (u "001") [u "x"; u "y"]]
              (perm_swap _ _ _))
    as [stats [stats' [H1 [H2 [_ [_ [_ [_ H]]]]]]]].
  exists stats, stats'. split; [exact H1|]. split; [exact H2|].
  exact (proj1 (H (u "y"))).
Defined.

(** ** What a run with records writes *)

Lemma filter_prints (l : list message) :
  filter writes_output (List.map Print l) = [].
Proof. induction l as [|m l IH]; [reflexivity|exact IH]. Qed.

Lemma model_chart_saved (e : Experiment) (l : list Experiment) :
  generate_model_comparison_chart (fold_left model_step (e :: l) []) =
  [SaveFig (u "model_comparison.png")].
Proof.
  pose proof (model_stats_keys (e :: l)) as Hk.
  destruct (fold_left model_step (e :: l) []) as [|kv d]; [discriminate|reflexivity].
Qed.

Lemma tag_chart_saved (experiments : list Experiment) :
  generate_tag_cloud_chart (fst (fold_left tags_step experiments ([], []))) =
  match all_tags experiments with
  | [] => []
  | _ :: _ => [SaveFig (u "tag_cloud.png")]
  end.
Proof.
  rewrite tag_counts_items. unfold tag_items.
  destruct (all_tags experiments) as [|t ts]; reflexivity.
Qed.

Lemma attempt_prints (env : Fallible.environment) (ws : list message)
    (rest : list event) :
  Fallible.attempt env (List.map Print ws ++ rest) =
  (List.map Print ws ++ fst (Fallible.attempt env rest),
   snd (Fallible.attempt env rest)).
Proof.
  induction ws as [|m ws IH]; cbn [List.map app Fallible.attempt writes_output].
  - now destruct (Fallible.attempt env rest).
  - now rewrite IH.
Qed.

Lemma block_prints (ws : list message) (rest : list Fallible.outcome) :
  Fallible.block (List.map Fallible.print ws ++ rest) =
  (List.map Print ws ++ fst (Fallible.block rest), snd (Fallible.block rest)).
Proof.
  induction ws as [|m ws IH]; cbn [List.map app].
  - now destruct (Fallible.block rest).
  - cbn [Fallible.block Fallible.print fst snd]. now rewrite IH.
Qed.

Lemma attempt_written (env : Fallible.environment) (trace : list event) :
  filter writes_output (fst (Fallible.attempt env trace)) =
    Fallible.written env (filter writes_output trace) /\
  snd (Fallible.attempt env trace) =
    Fallible.ending env (filter writes_output trace) /\
  exists rest, trace = fst (Fallible.attempt env trace) ++ rest.
Proof.
  induction trace as [|e t [IH1 [IH2 [rest IH3]]]].
  - repeat split. now exists [].
  - cbn [Fallible.attempt filter]. destruct (writes_output e) eqn:W.
    + cbn [Fallible.written Fallible.ending]. destruct (env e) as [[]|x].
      * cbn [fst snd filter]. rewrite W, IH1, IH2. repeat split.
        exists rest. cbn [app]. now rewrite <- IH3.
      * repeat split. now exists (e :: t).
    + cbn [fst snd filter]. rewrite W, IH1, IH2. repeat split.
      exists rest. cbn [app]. now rewrite <- IH3.
Qed.

Lemma attempt_all (env : Fallible.environment) (trace : list event) :
  Forall (fun o => env o = Ok tt) (filter writes_output trace) ->
  Fallible.attempt env trace = (trace, Ok tt).
Proof.
  induction trace as [|e t IH]; [reflexivity|].
  cbn [Fallible.attempt filter]. destruct (writes_output e).
  - intros H. inversion H as [|? ? He Ht]; subst. rewrite He, (IH Ht).
    reflexivity.
  - intros H. now rewrite (IH H).
Qed.

Lemma written_all (env : Fallible.environment) (outputs : list event) :
  Forall (fun o => env o = Ok tt) outputs ->
  Fallible.written env outputs = outputs /\ Fallible.ending env outputs = Ok tt.
Proof.
  induction 1 as [|o t Ho _ [IH1 IH2]]; [now split|].
  cbn [Fallible.written Fallible.ending]. now rewrite Ho, IH1, IH2.
Qed.

Lemma attempt_app (env : Fallible.environment) (a b : list event) :
  Fallible.attempt env (a ++ b) =
  match snd (Fallible.attempt env a) with
  | Ok _ => (fst (Fallible.attempt env a) ++ fst (Fallible.attempt env b),
             snd (Fallible.attempt env b))
  | Raise x => (fst (Fallible.attempt env a), Raise x)
  end.
Proof.
  induction a as [|e a IH]; cbn [app Fallible.attempt].
  - cbn. now destruct (Fallible.attempt env b).
  - destruct (if writes_output e then env e else Ok tt); [|reflexivity].
    cbn [fst snd]. rewrite IH.
    now destruct (snd (Fallible.attempt env a)).
Qed.

(** A statement that is a cut trace, followed by a block that is one. *)
Lemma block_statement (env : Fallible.environment) (t : list event)
    (rest : list Fallible.outcome) (tr : list event) :
  Fallible.block rest = Fallible.attempt env tr ->
  Fallible.block (Fallible.attempt env t :: rest) =
  Fallible.attempt env (t ++ tr).
Proof.
  intros H. cbn [Fallible.block]. now rewrite attempt_app, H.
Qed.

Lemma block_done (env : Fallible.environment) :
  Fallible.block [] = Fallible.attempt env [].
Proof. reflexivity. Qed.

Lemma block_print (env : Fallible.environment) (m : message)
    (rest : list Fallible.outcome) (tr : list event) :
  Fallible.block rest = Fallible.attempt env tr ->
  Fallible.block (Fallible.print m :: rest) =
  Fallible.attempt env (Print m :: tr).
Proof. exact (@block_statement env [Print m] rest tr). Qed.

Lemma block_block (env : Fallible.environment) (inner : list Fallible.outcome)
    (t : list event) (rest : list Fallible.outcome) (tr : list event) :
  Fallible.block inner = Fallible.attempt env t ->
  Fallible.block rest = Fallible.attempt env tr ->
  Fallible.block (Fallible.block inner :: rest) =
  Fallible.attempt env (t ++ tr).
Proof. intros -> H. now apply block_statement. Qed.

Lemma block_prints_attempt (env : Fallible.environment) (ws : list message)
    (rest : list Fallible.outcome) (tr : list event) :
  Fallible.block rest = Fallible.attempt env tr ->
  Fallible.block (List.map Fallible.print ws ++ rest) =
  Fallible.attempt env (List.map Print ws ++ tr).
Proof. intros H. now rewrite block_prints, attempt_prints, H. Qed.

Lemma write_attempt (env : Fallible.environment) (o : event) :
  writes_output o = true -> Fallible.write env o = Fallible.attempt env [o].
Proof.
  intros W. unfold Fallible.write. cbn [Fallible.attempt]. rewrite W.
  now destruct (env o).
Qed.

Lemma timeline_attempt (env : Fallible.environment)
    (experiments : list Experiment) :
  Fallible.generate_timeline_chart env experiments =
  Fallible.attempt env (generate_timeline_chart experiments).
Proof. destruct experiments; [reflexivity|now apply write_attempt]. Qed.

Lemma comparison_attempt (env : Fallible.environment) (d : dict ModelStat.t) :
  Fallible.generate_model_comparison_chart env d =
  Fallible.attempt env (generate_model_comparison_chart d).
Proof. destruct d; [reflexivity|now apply write_attempt]. Qed.

Lemma tag_cloud_attempt (env : Fallible.environment) (c : Counter) :
  Fallible.generate_tag_cloud_chart env c =
  Fallible.attempt env (generate_tag_cloud_chart c).
Proof. destruct c; [reflexivity|now apply write_attempt]. Qed.

Lemma stats_md_attempt (env : Fallible.environment)
    (experiments : list Experiment) (stats : Stats) :
  Fallible.generate_stats_md env experiments stats =
  Fallible.attempt env (generate_stats_md experiments stats).
Proof. now apply write_attempt. Qed.

Section Outputs.
Variable round : Q -> Q.

(** The writes in the trace of [main], with at least one record. *)
Lemma main_writes (fs : filesystem) (listing : list str) :
  fst (collect_experiments fs listing) <> [] ->
  exists stats,
    calculate_stats round (fst (collect_experiments fs listing)) = Ok stats /\
    snd (main round fs listing) = Ok tt /\
    filter writes_output (fst (main round fs listing)) =
      outputs_for (fst (collect_experiments fs listing)) stats.
Proof.
  intros Hsome. eexists. split; [apply calculate_stats_ok|].
  unfold main.
  destruct (fst (collect_experiments fs listing)) as [|e l] eqn:E; [contradiction|].
  rewrite calculate_stats_ok. cbn [fst snd]. split; [reflexivity|].
  cbn [model_stats tag_counts generate_timeline_chart generate_stats_md].
  rewrite model_chart_saved, tag_chart_saved.
  rewrite !filter_app, filter_prints. unfold outputs_for.
  destruct (all_tags (e :: l)); reflexivity.
Qed.

(** The run with fallible writes is the trace of [main], cut at the first
    write that raises. *)
Lemma main_attempt (env : Fallible.environment) (fs : filesystem)
    (listing : list str) :
  Fallible.main round env fs listing =
  Fallible.attempt env (fst (main round fs listing)).
Proof.
  unfold Fallible.main, main. cbv zeta.
  destruct (fst (collect_experiments fs listing)) as [|e l] eqn:E.
  - etransitivity.
    + cbn [app]. apply block_print. apply block_prints_attempt.
      apply block_print. apply block_print. apply block_done.
    + cbn [fst]. rewrite <- !app_assoc. reflexivity.
  - rewrite calculate_stats_ok. cbv beta match.
    etransitivity.
    + cbn [app]. apply block_print. apply block_prints_attempt.
      apply block_print. apply block_block; [|apply block_done].
      apply block_print. apply block_block; [|apply block_done].
      apply block_print. apply block_print.
      rewrite timeline_attempt. apply block_statement.
      apply block_print.
      rewrite comparison_attempt. apply block_statement.
      apply block_print.
      rewrite tag_cloud_attempt. apply block_statement.
      apply block_print. apply block_print.
      rewrite stats_md_attempt. apply block_statement.
      apply block_print. apply block_print. apply block_done.
    + cbn [fst]. rewrite <- !app_assoc. cbn [app]. rewrite !app_nil_r.
      reflexivity.
Qed.

(** With at least one record [main] writes, in this order, timeline.png,
    model_comparison.png, tag_cloud.png (unless no record has a tag) and the
    report with the statistics of the collected records, and nothing else.
    The first write that raises ends the run with its exception: the
    outputs before it are written, no later one is, and the run prints
    nothing after it.  When no write raises, the run ends normally with
    exactly these outputs. *)
Theorem main_outputs (env : Fallible.environment) (fs : filesystem)
    (listing : list str) :
  fst (collect_experiments fs listing) <> [] ->
  exists stats,
    calculate_stats round (fst (collect_experiments fs listing)) = Ok stats /\
    let outputs := outputs_for (fst (collect_experiments fs listing)) stats in
    let run := Fallible.main round env fs listing in
    filter writes_output (fst run) = Fallible.written env outputs /\
    snd run = Fallible.ending env outputs /\
    (exists rest, fst (main round fs listing) = fst run ++ rest) /\
    (Forall (fun o => env o = Ok tt) outputs ->
     run = main round fs listing /\
     snd run = Ok tt /\
     filter writes_output (fst run) = outputs).
Proof.
  intros Hsome. destruct (main_writes fs listing Hsome) as [stats [Hs [Hok Hw]]].
  exists stats. split; [exact Hs|]. cbv zeta. rewrite main_attempt.
  destruct (attempt_written env (fst (main round fs listing)))
    as [H1 [H2 H3]].
  rewrite Hw in H1, H2. split; [exact H1|]. split; [exact H2|].
  split; [exact H3|].
  intros Hall. rewrite attempt_all by (rewrite Hw; exact Hall).
  cbn [fst snd]. split; [|split; [reflexivity|exact Hw]].
  rewrite <- Hok. now destruct (main round fs listing).
Qed.

End Outputs.

(** One readable file without tags, and a disk that is full once the
    timeline is saved: the run saves timeline.png and ends with the error
    raised for model_comparison.png; the report is not written. *)
Lemma main_outputs_witness :
  filter writes_output
    (fst (Fallible.main (fun q => q) Fallible.full_after_timeline
            (fun _ => Ok (u "**評価: ◎**")) [u "001.md"])) =
    [SaveFig (u "timeline.png")] /\
  snd (Fallible.main (fun q => q) Fallible.full_after_timeline
         (fun _ => Ok (u "**評価: ◎**")) [u "001.md"]) =
    Raise (OSError (u "No space left on device")).
Proof.
  assert (Hsome : fst (collect_experiments (fun _ => Ok (u "**評価: ◎**"))
                         [u "001.md"]) <> [])
    by (vm_compute; discriminate).
  destruct (@main_outputs (fun q => q) Fallible.full_after_timeline
              (fun _ => Ok (u "**評価: ◎**")) [u "001.md"] Hsome)
    as [stats [_ [Hw [He _]]]].
  split.
  - rewrite Hw. vm_compute. reflexivity.
  - rewrite He. vm_compute. reflexivity.
Defined.

(** ** The default id of a file *)

Lemma rfind_absent (c : char) (s : str) (pos : nat) :
  ~ In c s -> rfind c s pos = None.
Proof.
  revert pos; induction s as [|x s IH]; intros pos H; [reflexivity|].
  cbn [rfind]. rewrite IH by (intros Hin; apply H; now right).
  destruct (N.eqb_spec x c) as [->|_]; [|reflexivity].
  elim H. now left.
Qed.

Lemma rfind_last (c : char) (a b : str) (pos : nat) :
  ~ In c b -> rfind c (a ++ c :: b) pos = Some (pos + length a)%nat.
Proof.
  intros Hb. revert pos; induction a as [|x a IH]; intros pos; cbn [app rfind].
  - rewrite rfind_absent by exact Hb. rewrite N.eqb_refl. cbn. f_equal. lia.
  - rewrite IH. cbn [length]. f_equal. lia.
Qed.

Lemma stem_md (base : str) : base <> [] -> stem (base ++ u ".md") = base.
Proof.
  intros Hne. unfold stem.
  change (u ".md") with (46%N :: u "md").
  rewrite rfind_last by (vm_compute; intuition (try discriminate)).
  assert (Hlen : (0 < length base)%nat) by (destruct base; [contradiction|cbn; lia]).
  match goal with
  | |- (if ?c then _ else _) = _ => assert (Hc : c = true)
  end.
  { apply andb_true_iff. split; apply Nat.ltb_lt; [lia|].
    rewrite length_app. cbn [length]. change (length (u "md")) with 2%nat. lia. }
  rewrite Hc. change (0 + length base)%nat with (length base).
  rewrite firstn_app, Nat.sub_diag, firstn_all. cbn [firstn]. apply app_nil_r.
Qed.

(** The stem of a collected file is its name without the [.md] ending, and
    it is the id of a readable file whose text has no title heading. *)
Theorem default_id_is_name_without_md (fs : filesystem) (base content : str) :
  base <> [] ->
  fs (base ++ u ".md") = Ok content ->
  (forall pre g post, ~ title_at content pre g post) ->
  stem (base ++ u ".md") = base /\
  exists exp,
    parse_experiment fs (base ++ u ".md") = Ok exp /\ id exp = Some base.
Proof.
  intros Hne Hfs Hnone. split; [now apply stem_md|].
  unfold parse_experiment. rewrite Hfs. cbn [bind]. eexists. split; [reflexivity|].
  rewrite stem_md by exact Hne. now apply id_without_title.
Qed.

Lemma default_id_is_name_without_md_witness :
  stem (u "2025.01.md") = u "2025.01".
Proof.
  apply (@default_id_is_name_without_md (fun _ => Ok (u "- モデル: A"))
           (u "2025.01") (u "- モデル: A")).
  - discriminate.
  - reflexivity.
  - apply search_title_none. reflexivity.
Defined.

(** ** The collector and the order of the directory listing *)

Lemma sorted_unique (l1 l2 : list str) :
  StronglySorted str_le l1 -> StronglySorted str_le l2 ->
  Permutation l1 l2 -> l1 = l2.
Proof.
  intros H1. revert l2. induction H1 as [|x t1 Ht1 IH Hx]; intros l2 H2 Hp.
  - apply Permutation_nil in Hp. now subst.
  - destruct H2 as [|y t2 Ht2 Hy].
    + apply Permutation_sym, Permutation_nil in Hp. discriminate.
    + assert (Exy : x = y).
      { assert (Hxy : In x (y :: t2)) by (apply (Permutation_in _ Hp); now left).
        assert (Hyx : In y (x :: t1))
          by (apply (Permutation_in _ (Permutation_sym Hp)); now left).
        rewrite Forall_forall in Hx, Hy.
        destruct Hxy as [->|Hxy]; [reflexivity|].
        destruct Hyx as [->|Hyx]; [reflexivity|].
        apply str_leb_antisym; [exact (Hx y Hyx)|exact (Hy x Hxy)]. }
      subst y. f_equal. apply IH; [exact Ht2|].
      now apply Permutation_cons_inv in Hp.
Qed.

(** The collector's result does not depend on the order in which the
    directory lists its files. *)
Theorem collect_listing_order (fs : filesystem) (listing listing' : list str) :
  Permutation listing listing' ->
  collect_experiments fs listing = collect_experiments fs listing'.
Proof.
  intros Hp. unfold collect_experiments. f_equal.
  apply sorted_unique.
  - apply (sorted_sorted (fun name : str => name)).
  - apply (sorted_sorted (fun name : str => name)).
  - rewrite !sorted_perm. now apply filter_perm.
Qed.

Lemma collect_listing_order_witness :
  collect_experiments (fun _ => Ok []) [u "002.md"; u "001.md"] =
  collect_experiments (fun _ => Ok []) [u "001.md"; u "002.md"].
Proof.
  apply collect_listing_order. apply perm_swap.
Defined.

(** ** Only the first Tags line counts *)

(** The tags come from the first Tags marker and the rest of its line: the
    text before the marker and the lines after it, later Tags lines
    included, change nothing. *)
Theorem tags_from_first_line (stem stem' before line ending : str) :
  first_occurrence TAGS_MARKER (before ++ TAGS_MARKER ++ line ++ ending) before ->
  ~ In newline line -> line_end ending ->
  tags (parse_content stem (before ++ TAGS_MARKER ++ line ++ ending)) =
    Some (findall TAG_RE (TAGS_MARKER ++ line)) /\
  tags (parse_content stem (before ++ TAGS_MARKER ++ line ++ ending)) =
    tags (parse_content stem' (TAGS_MARKER ++ line)).
Proof.
  intros Hfirst Hline Hend.
  destruct (@search_tags_line before line ending Hfirst Hline Hend) as [m [Hm Hg]].
  destruct (@search_tags_line [] line []) as [m' [Hm' Hg']]; auto.
  { intros before' rest' _. cbn. lia. }
  { now left. }
  cbn [app] in Hm'. rewrite app_nil_r in Hm'.
  unfold parse_content. cbn [tags]. rewrite Hm, Hm', Hg, Hg'. auto.
Qed.

Lemma tags_from_first_line_witness :
  tags (parse_content (u "001") (u "# notes
**タグ:** `x`
**タグ:** `y`")) = Some [u "x"].
Proof.
  refine (eq_trans (proj1 (@tags_from_first_line (u "001") (u "001") (u "# notes
") (u " `x`") (u "
**タグ:** `y`") _ _ _)) _).
  - apply no_earlier_occurrence. vm_compute. reflexivity.
  - vm_compute. intuition (try discriminate).
  - right. eexists. reflexivity.
  - vm_compute. reflexivity.
Defined.

(** ** [str.strip] *)

Lemma lstrip_suffix (s : str) : exists a, s = a ++ lstrip s.
Proof.
  induction s as [|c s [a IH]]; [now exists []|]. cbn [lstrip].
  destruct (isspace c); [|now exists []].
  exists (c :: a). cbn. now rewrite <- IH.
Qed.

Lemma lstrip_In (x : char) (s : str) : In x (lstrip s) -> In x s.
Proof.
  destruct (lstrip_suffix s) as [a E]. intros H. rewrite E.
  apply in_or_app. now right.
Qed.

Lemma strip_In (x : char) (s : str) : In x (strip s) -> In x s.
Proof.
  unfold strip, rstrip. intros H. apply in_rev, lstrip_In in H.
  apply in_rev in H. now apply lstrip_In.
Qed.

Lemma lstrip_head (s : str) (c : char) (t : str) :
  lstrip s = c :: t -> isspace c = false.
Proof.
  induction s as [|x s IH]; cbn [lstrip]; [discriminate|].
  destruct (isspace x) eqn:E; [exact IH|]. intros H. injection H as <- _. exact E.
Qed.

Lemma lstrip_idem (s : str) : lstrip (lstrip s) = lstrip s.
Proof.
  destruct (lstrip s) as [|c t] eqn:E; [reflexivity|].
  cbn [lstrip]. now rewrite (@lstrip_head s c t E).
Qed.

Lemma lstrip_app_last (a : str) (c : char) :
  isspace c = false -> exists w, lstrip (a ++ [c]) = w ++ [c].
Proof.
  intros Hc. induction a as [|x a [w IH]]; cbn [app lstrip].
  - rewrite Hc. now exists [].
  - destruct (isspace x); [now exists w|]. now exists (x :: a).
Qed.

Lemma rstrip_keeps_head (c : char) (t : str) :
  isspace c = false -> exists t', rstrip (c :: t) = c :: t'.
Proof.
  intros Hc. unfold rstrip. cbn [rev].
  destruct (@lstrip_app_last (rev t) c Hc) as [w ->].
  rewrite rev_app_distr. cbn. now exists (rev w).
Qed.

Lemma rstrip_idem (s : str) : rstrip (rstrip s) = rstrip s.
Proof. unfold rstrip. now rewrite rev_involutive, lstrip_idem. Qed.

Lemma strip_idem (s : str) : strip (strip s) = strip s.
Proof.
  unfold strip. destruct (lstrip s) as [|c t] eqn:E; [reflexivity|].
  pose proof (@lstrip_head s c t E) as Hc.
  destruct (@rstrip_keeps_head c t Hc) as [t' Ht]. rewrite Ht.
  cbn [lstrip]. rewrite Hc, <- Ht. apply rstrip_idem.
Qed.

(** ** Labelled lines: date, recorder, model, target *)

Lemma line_span (t : str) :
  exists a e, t = a ++ e /\ ~ In newline a /\ line_end e.
Proof.
  induction t as [|c t [a [e [-> [Ha He]]]]].
  - exists [], []. repeat split; [tauto|now left].
  - destruct (N.eqb_spec c newline) as [->|Hc].
    + exists [], (newline :: a ++ e). repeat split; [tauto|]. right. now eexists.
    + exists (c :: a), e. repeat split; [|exact He].
      intros [H|H]; [congruence|contradiction].
Qed.

Lemma dot_line_inv (s : str) : forallb dot s = true -> ~ In newline s.
Proof.
  intros H Hin. rewrite forallb_forall in H. apply H in Hin. discriminate.
Qed.

Lemma labelled_thread (label s : str) (cap : option str) (rest : str) :
  In (cap, rest) (run (LABELLED label) None s) <->
  exists v, s = label ++ v ++ rest /\ v <> [] /\ forallb dot v = true /\ cap = Some v.
Proof.
  unfold LABELLED. split.
  - intros H.
    apply run_Cat_In in H as [[c1 s1] [H1 H]]. cbn [fst snd] in H.
    apply run_lits_In in H1 as [_ ->]. cbn [snd].
    apply run_Group_In in H as [[c2 s2] [H E]].
    apply run_Plus_In in H as [_ [v [-> [Hd Hne]]]]. cbn [fst snd] in *.
    rewrite firstn_consumed in E. exists v. repeat split; auto; congruence.
  - intros [v [-> [Hne [Hd ->]]]].
    apply run_Cat_In. exists (None, v ++ rest).
    split; [apply run_lits_In; cbn [snd]; now rewrite skipn_self|].
    cbn [fst snd]. apply run_Group_In. exists (None, rest). split.
    + apply run_Plus_In. cbn [fst snd]. eauto.
    + cbn [snd]. now rewrite firstn_consumed.
Qed.

Lemma run_labelled_head (label v ending : str) :
  v <> [] -> ~ In newline v -> line_end ending ->
  exists tl, run (LABELLED label) None (label ++ v ++ ending) = (Some v, ending) :: tl.
Proof.
  intros Hne Hv Hend. unfold LABELLED.
  rewrite run_Cat_lits, startswith_self, skipn_self. cbn [run].
  destruct v as [|c v']; [contradiction|]. cbn [app plus_with].
  assert (Dc : dot c = true).
  { unfold dot. apply negb_true_iff, N.eqb_neq. intros ->. apply Hv. now left. }
  rewrite Dc.
  destruct (@star_greedy_head dot v' ending) as [tl Htl].
  { apply dot_line. intros H. apply Hv. now right. }
  { destruct Hend as [->|[after ->]]; [now left|right].
    exists newline, after. split; reflexivity. }
  rewrite Htl. cbn [List.map snd].
  change (c :: v' ++ ending) with ((c :: v') ++ ending).
  rewrite firstn_consumed. now eexists.
Qed.

Lemma labelled_extends (content label p1 v1 rest1 : str) :
  content = p1 ++ label ++ v1 ++ rest1 -> v1 <> [] -> forallb dot v1 = true ->
  exists v ending, labelled_at content label p1 v ending.
Proof.
  intros -> Hne Hd. destruct (line_span rest1) as [a [e [-> [Ha He]]]].
  exists (v1 ++ a), e. split; [now rewrite <- app_assoc|].
  split; [destruct v1; [contradiction|discriminate]|]. split; [|exact He].
  intros H. apply in_app_or in H as [H|H]; [|contradiction].
  now apply (@dot_line_inv _ Hd).
Qed.

Lemma search_labelled_first (label content pre v ending : str) :
  first_labelled content label pre v ending ->
  exists m, search (LABELLED label) content = Some m /\ group1 m = Some v.
Proof.
  intros [[-> [Hne [Hv Hend]]] Hfirst].
  destruct (@run_labelled_head label _ _ Hne Hv Hend) as [tl Hrun].
  assert (Hs : search (LABELLED label) (pre ++ label ++ v ++ ending) =
               Some (mkMatch (0 + length pre)
                       (firstn (length (label ++ v ++ ending) - length ending)
                               (label ++ v ++ ending))
                       (Some v) ending)).
  { unfold search. apply search_from_found.
    - intros p1 r1 E Hlen.
      destruct (run (LABELLED label) None r1) as [|[cap rest] l] eqn:R;
        [reflexivity|].
      assert (Hy : In (cap, rest) (run (LABELLED label) None r1))
        by (rewrite R; now left).
      apply labelled_thread in Hy as [v1 [-> [Hne1 [Hd1 _]]]].
      destruct (@labelled_extends _ label p1 v1 rest E Hne1 Hd1) as [v2 [e2 H2]].
      specialize (Hfirst _ _ _ H2). lia.
    - rewrite match_at_first, Hrun. reflexivity. }
  eexists. split; [exact Hs|reflexivity].
Qed.

Lemma search_labelled_none (label content : str) :
  search (LABELLED label) content = None <->
  forall pre v ending, ~ labelled_at content label pre v ending.
Proof.
  unfold search. rewrite search_from_none. split.
  - intros H pre v ending [-> [Hne [Hv Hend]]].
    destruct (@run_labelled_head label _ _ Hne Hv Hend) as [tl Hrun].
    rewrite (H pre _ eq_refl) in Hrun. discriminate.
  - intros H pre rest ->.
    destruct (run (LABELLED label) None rest) as [|[cap r] l] eqn:R; [reflexivity|].
    assert (Hy : In (cap, r) (run (LABELLED label) None rest))
      by (rewrite R; now left).
    apply labelled_thread in Hy as [v1 [-> [Hne1 [Hd1 _]]]].
    destruct (@labelled_extends _ label pre v1 r eq_refl Hne1 Hd1) as [v2 [e2 H2]].
    exfalso. exact (H _ _ _ H2).
Qed.

Lemma search_labelled_some (label content : str) (m : Match) :
  search (LABELLED label) content = Some m ->
  exists pre v ending, first_labelled content label pre v ending.
Proof.
  unfold search. intros H.
  apply search_from_some in H as [pre [rest [-> [Hm Hbefore]]]].
  rewrite match_at_first in Hm.
  destruct (run (LABELLED label) None rest) as [|[cap r] l] eqn:R; [discriminate|].
  assert (Hy : In (cap, r) (run (LABELLED label) None rest)) by (rewrite R; now left).
  apply labelled_thread in Hy as [v1 [-> [Hne1 [Hd1 _]]]].
  destruct (@labelled_extends _ label pre v1 r eq_refl Hne1 Hd1) as [v [ending Hat]].
  exists pre, v, ending. split; [exact Hat|].
  intros pre' v' ending' [E [Hne' [Hv' Hend']]].
  destruct (le_lt_dec (length pre) (length pre')) as [Hle|Hlt]; [exact Hle|].
  exfalso.
  destruct (@run_labelled_head label _ _ Hne' Hv' Hend') as [tl Hrun].
  rewrite (Hbefore pre' _ E Hlt) in Hrun. discriminate.
Qed.

Lemma field_labelled (label content : str) :
  field_reads label content (field (LABELLED label) content).
Proof.
  unfold field_reads, field. split; [|split].
  - intros pre v ending H.
    apply search_labelled_first in H as [m [-> Hcap]].
    unfold group. now rewrite Hcap.
  - intros H. apply search_labelled_none in H. now rewrite H.
  - destruct (search (LABELLED label) content) as [m|] eqn:E.
    + left. exact (@search_labelled_some _ _ _ E).
    + right. now apply search_labelled_none.
Qed.

Lemma field_clean (label content : str) :
  clean_value (field (LABELLED label) content).
Proof.
  unfold clean_value, field. intros w.
  destruct (search (LABELLED label) content) as [m|] eqn:E; [|discriminate].
  intros H. injection H as <-. split; [apply strip_idem|].
  apply search_from_thread in E as [pre [rest [_ Hin]]].
  apply labelled_thread in Hin as [v [_ [_ [Hd Hcap]]]].
  unfold group. rewrite Hcap. intros Hn. apply strip_In in Hn.
  now apply (@dot_line_inv _ Hd).
Qed.

(** Each of date, recorder, model and target is read from the first place
    where its label is followed by text on the same line; the value is that
    text up to the end of the line, trimmed.  A label with nothing after it
    on its line is passed over, and without any such place the field is
    absent. *)
Theorem fields_from_labelled_lines (stem content : str) :
  field_reads DATE_LABEL content (date (parse_content stem content)) /\
  field_reads RECORDER_LABEL content (recorder (parse_content stem content)) /\
  field_reads MODEL_LABEL content (model (parse_content stem content)) /\
  field_reads TARGET_LABEL content (target (parse_content stem content)).
Proof.
  split; [apply (field_labelled DATE_LABEL content)|].
  split; [apply (field_labelled RECORDER_LABEL content)|].
  split; [apply (field_labelled MODEL_LABEL content)|].
  apply (field_labelled TARGET_LABEL content).
Qed.

(** A stored date, recorder, model or target has no whitespace at either
    end and no line break. *)
Theorem fields_are_clean (stem content : str) :
  clean_value (date (parse_content stem content)) /\
  clean_value (recorder (parse_content stem content)) /\
  clean_value (model (parse_content stem content)) /\
  clean_value (target (parse_content stem content)).
Proof.
  split; [apply (field_clean DATE_LABEL content)|].
  split; [apply (field_clean RECORDER_LABEL content)|].
  split; [apply (field_clean MODEL_LABEL content)|].
  apply (field_clean TARGET_LABEL content).
Qed.

(** Two labelled lines, the second one with a value. *)
Lemma fields_from_labelled_lines_witness :
  date (parse_content (u "001") (u "- 日付: 
- 日付:   2025-01-02  
- モデル: A")) = Some (u "2025-01-02").
Proof.
  apply (proj1 (proj1 (fields_from_labelled_lines (u "001") (u "- 日付: 
- 日付:   2025-01-02  
- モデル: A")))
          (u "- 日付: 
") (u "  2025-01-02  ") (u "
- モデル: A")).
  split.
  - split; [reflexivity|]. split; [discriminate|].
    split; [vm_compute; intuition (try discriminate)|].
    right. eexists. reflexivity.
  - intros pre' v' ending' [E [Hne [Hv _]]].
    destruct (le_lt_dec (length (u "- 日付: 
")) (length pre')) as [Hle|Hlt]; [exact Hle|exfalso].
    destruct v' as [|c v']; [contradiction|].
    do 7 (destruct pre' as [|? pre']; [vm_compute in E; try discriminate E;
      injection E as E' _; subst c; apply Hv; now left|]).
    cbn in Hlt. lia.
Defined.

(** ** A document without markers *)

Lemma search_lits_none (c : char) (l : str) (r : regex) (content : str) :
  In c l -> ~ In c content -> search (Cat (lits l) r) content = None.
Proof.
  intros Hl Hc. unfold search. apply search_from_none. intros pre rest ->.
  rewrite run_Cat_lits. destruct (startswith l rest) eqn:S; [|reflexivity].
  apply startswith_app in S as [t ->]. exfalso. apply Hc.
  apply in_or_app. right. apply in_or_app. now left.
Qed.

(** A text with no [#], no [-] and no [*] gives the bare record: the stem
    as id, no other field, and an empty tag list. *)
Theorem unmarked_document (stem content : str) :
  ~ In 35%N content -> ~ In 45%N content -> ~ In 42%N content ->
  parse_content stem content = bare_record stem.
Proof.
  intros Hhash Hdash Hstar. unfold parse_content, field, bare_record.
  unfold TITLE_RE, DATE_RE, RECORDER_RE, MODEL_RE, TARGET_RE, RATING_RE, TAGS_RE.
  rewrite (@search_lits_none 35%N (u "# 実験 ")) by (auto; vm_compute; auto).
  rewrite (@search_lits_none 45%N (u "- 日付: ")) by (auto; vm_compute; auto).
  rewrite (@search_lits_none 45%N (u "- 記録者: ")) by (auto; vm_compute; auto).
  rewrite (@search_lits_none 45%N (u "- モデル: ")) by (auto; vm_compute; auto).
  rewrite (@search_lits_none 45%N (u "- 対象: ")) by (auto; vm_compute; auto).
  rewrite (@search_lits_none 42%N (u "**評価: ")) by (auto; vm_compute; auto).
  rewrite (@search_lits_none 42%N TAGS_MARKER) by (auto; vm_compute; auto).
  reflexivity.
Qed.

Lemma unmarked_document_witness :
  parse_content (u "007") (u "メモのみ
評価: ◎") = bare_record (u "007").
Proof.
  apply unmarked_document; vm_compute; intuition (try discriminate).
Defined.

(** ** A rating is stored exactly when there is a rating marker *)

Lemma search_rating_none (content : str) :
  search RATING_RE content = None <->
  forall pre g post, ~ rating_marker_at content pre g post.
Proof.
  unfold search. rewrite search_from_none. split.
  - intros H pre g post [-> Hg].
    assert (Hin : In (Some [g], post) (run RATING_RE None (rating_marker g ++ post)))
      by (apply rating_thread; now exists g).
    rewrite (H pre _ eq_refl) in Hin. contradiction.
  - intros H pre rest ->.
    destruct (run RATING_RE None rest) as [|[cap r] l] eqn:R; [reflexivity|].
    assert (Hy : In (cap, r) (run RATING_RE None rest)) by (rewrite R; now left).
    apply rating_thread in Hy as [g [-> [Hg _]]].
    exfalso. apply (H pre g r). now split.
Qed.

(** A record has no rating exactly when its text has no marker [**評価: g**]
    with one of the five glyphs; such a record, and no other parsed record,
    falls under the bucket "不明" and outside the four canonical ratings. *)
Theorem rating_absent_iff_no_marker (stem content : str) :
  (rating (parse_content stem content) = None <->
   forall pre g post, ~ rating_marker_at content pre g post) /\
  (rating (parse_content stem content) = None <->
   rating_of (parse_content stem content) = UNKNOWN) /\
  (rating (parse_content stem content) = None <->
   mem (rating_of (parse_content stem content)) CANONICAL = false).
Proof.
  assert (Hcases :
    rating (parse_content stem content) = None \/
    exists g, rating_glyph g = true /\
              rating (parse_content stem content) = Some [canonical_glyph g]).
  { unfold parse_content. cbn [rating].
    destruct (search RATING_RE content) as [m|] eqn:E; [right|now left].
    apply search_from_thread in E as [pre [rest [_ Hin]]].
    apply rating_thread in Hin as [g [_ [Hg Hcap]]].
    exists g. split; [exact Hg|]. unfold group. rewrite Hcap.
    now destruct (stored_glyph g Hg) as [-> _]. }
  split; [|split].
  - rewrite <- search_rating_none. unfold parse_content. cbn [rating].
    destruct (search RATING_RE content); split; congruence.
  - unfold rating_of. destruct Hcases as [->|[g [Hg ->]]]; [tauto|].
    split; [discriminate|].
    apply rating_glyph_cases in Hg.
    destruct Hg as [-> | [-> | [-> | [-> | ->]]]]; vm_compute; discriminate.
  - unfold rating_of. destruct Hcases as [->|[g [Hg ->]]].
    + split; [reflexivity|reflexivity].
    + split; [discriminate|].
      apply rating_glyph_cases in Hg.
      destruct Hg as [-> | [-> | [-> | [-> | ->]]]]; vm_compute; discriminate.
Qed.

(** ** The chart and the tables on three records *)

(** The bars of [three_records], with exact arithmetic for the floats:
    model A at 50, model B at 100. *)
Lemma comparison_chart_bars_witness :
  exists stats,
    calculate_stats (fun q => q) three_records = Ok stats /\
    comparison_models (model_stats stats) = [u "A"; u "B"] /\
    exists rates,
      comparison_rates (fun q => q) (model_stats stats) = Ok rates /\
      Forall2 Qeq rates [inject_Z 50; inject_Z 100].
Proof.
  destruct (@comparison_chart_bars (fun q => q)
              (fun x y H => H) (Qeq_refl _) (Qeq_refl _) (Qeq_refl _)
              three_records)
    as [stats [rates [Hs [Hm [Hr [Hv _]]]]]].
  exists stats. split; [exact Hs|]. split; [rewrite Hm; reflexivity|].
  exists rates. split; [exact Hr|]. rewrite Hv.
  repeat constructor.
Defined.

(** The model table of [three_records]: A with 2 records (1, 0, 0, 1),
    B with 1 record (0, 1, 0, 0). *)
Lemma report_model_rows_witness :
  exists stats rows,
    calculate_stats (fun q => q) three_records = Ok stats /\
    model_rows (fun q => q) stats = Ok rows /\
    List.map row_model rows = [u "A"; u "B"] /\
    List.map row_total rows = [2%Z; 1%Z] /\
    List.map row_counts rows = [[1; 0; 0; 1]%Z; [0; 1; 0; 0]%Z].
Proof.
  destruct (@report_model_rows (fun q => q)
              (fun x y H => H) (Qeq_refl _) (Qeq_refl _) (Qeq_refl _)
              three_records)
    as [stats [rows [Hs [Hr [Hv _]]]]].
  exists stats, rows. split; [exact Hs|]. split; [exact Hr|].
  rewrite Hv. repeat split; reflexivity.
Defined.

(** The rating table of [three_records]: one ◎, one ○, no △, one ❌. *)
Lemma report_rating_rows_witness :
  exists stats rows,
    calculate_stats (fun q => q) three_records = Ok stats /\
    rating_rows (fun q => q) stats = Ok rows /\
    List.map row_count rows = [1; 1; 0; 1]%Z.
Proof.
  destruct (@report_rating_rows (fun q => q)
              (fun x y H => H) (Qeq_refl _) (Qeq_refl _) (Qeq_refl _)
              three_records)
    as [stats [rows [Hs [Hr [_ [Hc _]]]]]].
  exists stats, rows. split; [exact Hs|]. split; [exact Hr|].
  rewrite Hc. reflexivity.
Defined.

(** ** The tag chart *)

Section TagChart.
Variable round : Q -> Q.

(** The tag chart has one bar per distinct tag, in the order in which the
    tags first occur in the records; a bar's length is the number of
    occurrences of its tag over all records, at least 1.  The chart is
    skipped exactly when no record has a tag. *)
Theorem tag_cloud_bars (experiments : list Experiment) :
  exists stats,
    calculate_stats round experiments = Ok stats /\
    cloud_tags (tag_counts stats) = first_seen (all_tags experiments) /\
    cloud_counts (tag_counts stats) =
      List.map (fun tag => Z.of_nat (tag_occurrences tag experiments))
               (cloud_tags (tag_counts stats)) /\
    Forall (fun count => (1 <= count)%Z) (cloud_counts (tag_counts stats)) /\
    (generate_tag_cloud_chart (tag_counts stats) = [] <->
     all_tags experiments = []).
Proof.
  eexists. split; [apply calculate_stats_ok|]. cbn [tag_counts].
  assert (Hpos : Forall (fun kv : str * Z => (1 <= snd kv)%Z)
                        (fst (fold_left tags_step experiments ([], [])))).
  { rewrite tags_step_fst. apply fold_incr_positive. constructor. }
  rewrite tag_chart_saved.
  rewrite tag_counts_items in *. unfold cloud_tags, cloud_counts, keys, values, tag_items in *.
  rewrite !map_map in *. cbn [fst snd] in *. rewrite map_id.
  split; [reflexivity|]. split; [reflexivity|]. split.
  - apply Forall_forall. intros n Hn. apply in_map_iff in Hn as [tag [<- Ht]].
    rewrite Forall_forall in Hpos.
    apply (Hpos (tag, Z.of_nat (tag_occurrences tag experiments))).
    apply in_map_iff. now exists tag.
  - destruct (all_tags experiments); split; congruence.
Qed.

End TagChart.

(** * visualize.py *)

Section VisualizeCharts.
Variable datetime : Type.
Variable round : Q -> Q.
Hypothesis round_monotone : forall x y, x <= y -> round x <= round y.
Hypothesis round_0 : round 0 == 0.
Hypothesis round_1 : round 1 == 1.
Hypothesis round_100 : round (inject_Z 100) == inject_Z 100.

(** ** The cumulative timeline *)

Lemma successes_snoc (done : list (Visualize.Entry datetime)) (d : Visualize.Entry datetime) :
  Visualize.successes (done ++ [d]) =
  if Visualize.success d then (Visualize.successes done + 1)%Z
  else Visualize.successes done.
Proof.
  unfold Visualize.successes. rewrite filter_app, length_app. cbn [filter].
  destruct (Visualize.success d); cbn [length]; lia.
Qed.

Lemma successes_le (data : list (Visualize.Entry datetime)) :
  (0 <= Visualize.successes data <= Z.of_nat (length data))%Z.
Proof.
  unfold Visualize.successes. split; [lia|]. apply inj_le, filter_length_le.
Qed.

Lemma cumulative_loop_spec (data done : list (Visualize.Entry datetime)) (acc : list Q) :
  Visualize.cumulative_loop round data (Z.of_nat (length done))
    (Visualize.successes done) acc =
  Ok (acc ++ List.map (Visualize.running_rate round (done ++ data))
                      (seq (S (length done)) (length data))).
Proof.
  revert done acc; induction data as [|d rest IH]; intros done acc.
  - cbn. now rewrite app_nil_r.
  - cbn [Visualize.cumulative_loop]. rewrite <- successes_snoc.
    replace (Z.of_nat (length done) + 1)%Z with (Z.of_nat (length (done ++ [d])))
      by (rewrite length_app; cbn [length]; lia).
    unfold truediv at 1.
    replace (Z.of_nat (length (done ++ [d])) =? 0)%Z with false
      by (symmetry; apply Z.eqb_neq; rewrite length_app; cbn [length]; lia).
    cbn [bind]. rewrite IH. rewrite <- !app_assoc. cbn [app length seq List.map].
    do 3 f_equal.
    + unfold Visualize.running_rate, float_percentage.
      replace (firstn (S (length done)) (done ++ d :: rest)) with (done ++ [d]).
      * rewrite length_app. cbn [length].
        now replace (length done + 1)%nat with (S (length done)) by lia.
      * rewrite firstn_app, Nat.sub_succ_l, Nat.sub_diag by lia.
        rewrite firstn_all2 by lia. reflexivity.
    + rewrite length_app. cbn [length].
      now replace (length done + 1)%nat with (S (length done)) by lia.
Qed.

(** [plot_timeline] never divides by zero, and plots one point per
    record: the k-th point stands at the k-th record's date, and its height
    is the float percentage of successes among the first k records, within
    [0,100]. *)
Theorem cumulative_success_series (data : list (Visualize.Entry datetime)) :
  exists series,
    Visualize.plot_timeline round data =
      Ok (List.map (@Visualize.date _) data, series) /\
    series = List.map (Visualize.running_rate round data)
                      (seq 1 (length data)) /\
    Forall in_percent_range series.
Proof.
  eexists. split; [|split; [reflexivity|]].
  - unfold Visualize.plot_timeline.
    change 0%Z with (Z.of_nat (length (@nil (Visualize.Entry datetime)))) at 1.
    change 0%Z with (Visualize.successes (@nil (Visualize.Entry datetime))).
    rewrite cumulative_loop_spec. reflexivity.
  - apply Forall_forall. intros q Hq. apply in_map_iff in Hq as [k [<- Hk]].
    apply in_seq in Hk. unfold Visualize.running_rate.
    apply (@float_percentage_range round round_monotone round_0 round_1 round_100);
      [|lia].
    pose proof (successes_le (firstn k data)) as H.
    rewrite firstn_length_le in H by lia. exact H.
Qed.

(** ** The model comparison *)

Lemma set_set_same (V : Type) (d : dict V) (k : str) (v v' : V) :
  set (set d k v) k v' = set d k v'.
Proof.
  induction d as [|[k0 v0] d IH]; cbn [set].
  - now rewrite str_eqb_refl.
  - destruct (str_eqb k0 k) eqn:E; cbn [set]; rewrite E; [reflexivity|].
    now rewrite IH.
Qed.

(** One pass of the counting loop is one assignment to [models[model]]. *)
Lemma models_step_set (d : dict Visualize.Tally.t) (x : Visualize.Entry datetime) :
  Visualize.models_step d x =
  set d (Visualize.model x)
      (let entry := get_default d (Visualize.model x) Visualize.Tally.fresh in
       {| Visualize.Tally.total := Visualize.Tally.total entry + 1;
          Visualize.Tally.success :=
            if Visualize.success x then Visualize.Tally.success entry + 1
            else Visualize.Tally.success entry |}).
Proof.
  unfold Visualize.models_step. cbv zeta.
  destruct (Visualize.success x); [|reflexivity].
  now rewrite get_default_set_same, set_set_same.
Qed.

Lemma models_keys (data : list (Visualize.Entry datetime)) :
  keys (fold_left (@Visualize.models_step _) data []) =
  first_seen (List.map (@Visualize.model _) data).
Proof.
  rewrite <- (keys_fold_set_fresh (V := Visualize.Tally.t) (@Visualize.model _)
               (fun d x =>
                  let entry := get_default d (Visualize.model x)
                                 Visualize.Tally.fresh in
                  {| Visualize.Tally.total := Visualize.Tally.total entry + 1;
                     Visualize.Tally.success :=
                       if Visualize.success x
                       then Visualize.Tally.success entry + 1
                       else Visualize.Tally.success entry |})).
  f_equal. generalize (@nil (str * Visualize.Tally.t)).
  induction data as [|x l IH]; intros d; [reflexivity|].
  cbn [fold_left]. now rewrite models_step_set, IH.
Qed.

Lemma models_fold (m : str) (data : list (Visualize.Entry datetime))
    (d : dict Visualize.Tally.t) :
  get_default (fold_left (@Visualize.models_step _) data d) m
              Visualize.Tally.fresh =
  {| Visualize.Tally.total :=
       Visualize.Tally.total (get_default d m Visualize.Tally.fresh)
       + Z.of_nat (length (Visualize.of_model m data));
     Visualize.Tally.success :=
       Visualize.Tally.success (get_default d m Visualize.Tally.fresh)
       + Visualize.successes (Visualize.of_model m data) |}.
Proof.
  revert d; induction data as [|x l IH]; intros d.
  - cbn. rewrite !Z.add_0_r. now destruct (get_default d m Visualize.Tally.fresh).
  - cbn [fold_left]. rewrite IH, models_step_set.
    unfold Visualize.of_model, Visualize.successes. cbn [filter].
    destruct (str_eqb m (Visualize.model x)) eqn:E.
    + apply str_eqb_eq in E. subst m. rewrite get_default_set_same. cbv zeta.
      cbn [Visualize.Tally.total Visualize.Tally.success filter].
      destruct (Visualize.success x); cbn [length]; f_equal; lia.
    + apply str_eqb_neq in E. rewrite get_default_set_other by congruence.
      reflexivity.
Qed.

Lemma of_model_nil (m : str) (data : list (Visualize.Entry datetime)) :
  Visualize.of_model m data = [] <->
  ~ In m (List.map (@Visualize.model _) data).
Proof.
  unfold Visualize.of_model. induction data as [|e l IH]; cbn [filter List.map In].
  - tauto.
  - destruct (str_eqb m (Visualize.model e)) eqn:E.
    + apply str_eqb_eq in E. split; [discriminate|]. intros H. elim H. now left.
    + apply str_eqb_neq in E. rewrite IH. intuition congruence.
Qed.

Lemma sorted_keys (V : Type) (d : dict V) :
  List.map fst (sorted fst d) = sorted (fun k => k) (keys d).
Proof.
  unfold keys. induction d as [|x l IH]; [reflexivity|].
  cbn [sorted List.map]. rewrite <- IH. generalize (sorted fst l).
  intros s. induction s as [|y t IHs]; [reflexivity|].
  cbn [insert List.map]. destruct (str_leb (fst x) (fst y)); [reflexivity|].
  cbn [List.map]. now rewrite IHs.
Qed.

Lemma StronglySorted_filter (A : Type) (R : A -> A -> Prop) (p : A -> bool)
    (l : list A) :
  StronglySorted R l -> StronglySorted R (filter p l).
Proof.
  induction 1 as [|a l Hl IH Ha]; cbn [filter]; [constructor|].
  destruct (p a); [|exact IH]. constructor; [exact IH|].
  apply Forall_forall. intros y Hy. apply filter_In in Hy as [Hy _].
  rewrite Forall_forall in Ha. exact (Ha y Hy).
Qed.

(** The loop over the sorted items, for items that hold the tallies of
    [data]. *)
Lemma bars_loop_spec (data : list (Visualize.Entry datetime))
    (items : list (str * Visualize.Tally.t)) (names : list str) (rates : list Q) :
  (forall item, In item items ->
     snd item =
     {| Visualize.Tally.total :=
          Z.of_nat (length (Visualize.of_model (fst item) data));
        Visualize.Tally.success :=
          Visualize.successes (Visualize.of_model (fst item) data) |}) ->
  Visualize.bars_loop round items names rates =
  Ok (names ++ filter (fun m => (2 <=? length (Visualize.of_model m data))%nat)
                      (List.map fst items),
      rates ++ List.map (Visualize.model_rate round data)
                 (filter (fun m => (2 <=? length (Visualize.of_model m data))%nat)
                         (List.map fst items))).
Proof.
  revert names rates; induction items as [|[m t] items IH]; intros names rates H.
  - cbn. now rewrite !app_nil_r.
  - cbn [Visualize.bars_loop List.map filter fst].
    pose proof (H (m, t) (or_introl eq_refl)) as Ht. cbn [fst snd] in Ht.
    subst t. cbn [Visualize.Tally.total Visualize.Tally.success].
    assert (Hge : (Z.of_nat (length (Visualize.of_model m data)) >=? 2)%Z =
                  (2 <=? length (Visualize.of_model m data))%nat).
    { destruct (Nat.leb_spec 2 (length (Visualize.of_model m data)));
        [apply Z.geb_le|rewrite Z.geb_leb; apply Z.leb_gt]; lia. }
    rewrite Hge.
    destruct (2 <=? length (Visualize.of_model m data))%nat eqn:E.
    + apply Nat.leb_le in E. unfold truediv.
      replace (Z.of_nat (length (Visualize.of_model m data)) =? 0)%Z with false
        by (symmetry; apply Z.eqb_neq; lia).
      cbn [bind]. rewrite IH by (intros item Hi; apply H; now right).
      cbn [List.map]. now rewrite <- !app_assoc.
    + apply IH. intros item Hi. apply H. now right.
Qed.

(** [plot_model_comparison] never divides by zero.  Its bars are the models
    with at least two records, each once, in the order of their names by
    code point; a bar's height is the float percentage of successes among
    that model's records, within [0,100]. *)
Theorem model_comparison_bars (data : list (Visualize.Entry datetime)) :
  exists names rates,
    Visualize.plot_model_comparison round data = Ok (names, rates) /\
    (forall m, In m names <-> (2 <= length (Visualize.of_model m data))%nat) /\
    StronglySorted str_le names /\
    NoDup names /\
    rates = List.map (Visualize.model_rate round data) names /\
    Forall in_percent_range rates.
Proof.
  pose (models := fold_left (@Visualize.models_step _) data []).
  pose (p := fun m => (2 <=? length (Visualize.of_model m data))%nat).
  assert (Hrun : Visualize.plot_model_comparison round data =
                 Ok (filter p (List.map fst (sorted fst models)),
                     List.map (Visualize.model_rate round data)
                              (filter p (List.map fst (sorted fst models))))).
  { unfold Visualize.plot_model_comparison. cbv zeta. fold models.
    rewrite (@bars_loop_spec data); [reflexivity|].
    intros [m t] Hin. cbn [fst snd].
    apply (Permutation_in _ (sorted_perm fst models)) in Hin.
    rewrite (dict_as_lookup models Visualize.Tally.fresh) in Hin
      by (unfold models; rewrite models_keys; apply first_seen_NoDup).
    apply in_map_iff in Hin as [k [E _]]. injection E as -> <-.
    unfold models. rewrite models_fold. cbn. reflexivity. }
  exists (filter p (List.map fst (sorted fst models))).
  eexists. split; [exact Hrun|].
  assert (Hperm : Permutation (List.map fst (sorted fst models))
                              (first_seen (List.map (@Visualize.model _) data))).
  { rewrite <- models_keys. fold models. unfold keys.
    apply Permutation_map, sorted_perm. }
  split; [|split; [|split; [|split; [reflexivity|]]]].
  - intros m. rewrite filter_In. unfold p. rewrite Nat.leb_le. split; [tauto|].
    intros Hm. split; [|exact Hm].
    apply (Permutation_in _ (Permutation_sym Hperm)). rewrite first_seen_In.
    destruct (in_dec (list_eq_dec N.eq_dec) m
                (List.map (@Visualize.model _) data)) as [Hin|Hout];
      [exact Hin|].
    apply of_model_nil in Hout. rewrite Hout in Hm. cbn in Hm. lia.
  - apply StronglySorted_filter.
    apply (@StronglySorted_map _ _ fst str_le). apply sorted_sorted.
  - apply NoDup_filter.
    apply (Permutation_NoDup (Permutation_sym Hperm)), first_seen_NoDup.
  - apply Forall_forall. intros q Hq. apply in_map_iff in Hq as [m [<- Hm]].
    apply filter_In in Hm as [_ Hm]. unfold p in Hm. apply Nat.leb_le in Hm.
    unfold Visualize.model_rate.
    apply (@float_percentage_range round round_monotone round_0 round_1 round_100);
      [apply successes_le|lia].
Qed.

End VisualizeCharts.

(** ** The rating line, as the two scripts read it *)

Lemma lstrip_app_nonspace (a : str) (c : char) (b : str) :
  isspace c = false -> exists w, lstrip (a ++ c :: b) = w ++ c :: b.
Proof.
  intros Hc. induction a as [|x a [w IH]]; cbn [app lstrip].
  - rewrite Hc. now exists [].
  - destruct (isspace x); [now exists w|now exists (x :: a)].
Qed.

Lemma rstrip_keeps_prefix (p : str) (c : char) (t : str) :
  isspace c = false -> exists t', rstrip (p ++ c :: t) = p ++ c :: t'.
Proof.
  intros Hc. unfold rstrip. rewrite rev_app_distr. cbn [rev].
  rewrite <- app_assoc. cbn [app].
  destruct (@lstrip_app_nonspace (rev t) c (rev p) Hc) as [w ->].
  rewrite rev_app_distr. cbn [rev]. rewrite rev_involutive, <- app_assoc.
  now exists (rev w).
Qed.

Section VisualizeRating.
Variable datetime : Type.
Variable strptime : str -> option datetime.
Variable isdecimal : char -> bool.

(** A rating written the way [update_stats.py] reads it, [**評価: g**], is
    never a success for [visualize.py] when it is the first text labelled
    [評価: ] of the document: the capture runs to the end of the line, so
    the rating kept is [g**...], which is neither ○ nor ◎, while
    [update_stats.py] stores the canonical glyph of [g]. *)
Theorem bolded_rating_is_no_success (stem content pre post : str) (g : char) :
  rating_glyph g = true ->
  content = pre ++ rating_marker g ++ post ->
  first_occurrence Visualize.RATING_LABEL content (pre ++ u "**") ->
  rating (parse_content stem content) = Some [canonical_glyph g] /\
  forall d,
    Visualize.parse_file strptime isdecimal content = Visualize.Append d ->
    Visualize.success d = false /\
    exists w, Visualize.rating d = g :: u "**" ++ w.
Proof.
  intros Hg -> Hfirst. split.
  - assert (Hmark : first_rating_marker (pre ++ rating_marker g ++ post) g).
    { exists pre, post. split; [now split|].
      intros pre' g' post' [E _].
      assert (Hle : (length (pre ++ u "**") <= length (pre' ++ u "**"))%nat).
      { apply (Hfirst (pre' ++ u "**") ([g'] ++ RATING_CLOSE ++ post')).
        rewrite E. unfold rating_marker. rewrite <- !app_assoc. reflexivity. }
      rewrite !length_app in Hle. lia. }
    apply search_rating_first in Hmark as [m [Hm Hcap]].
    unfold parse_content. cbn [rating]. rewrite Hm. unfold group. rewrite Hcap.
    f_equal. now apply stored_glyph.
  - destruct (line_span post) as [a [e [-> [Ha He]]]].
    assert (Hspace : isspace g = false).
    { apply rating_glyph_cases in Hg.
      destruct Hg as [-> | [-> | [-> | [-> | ->]]]]; reflexivity. }
    assert (Hnl : g <> newline).
    { apply rating_glyph_cases in Hg.
      destruct Hg as [-> | [-> | [-> | [-> | ->]]]]; discriminate. }
    assert (Hlab : first_labelled (pre ++ rating_marker g ++ a ++ e)
                     Visualize.RATING_LABEL (pre ++ u "**")
                     (g :: u "**" ++ a) e).
    { split.
      - split; [|split; [discriminate|split; [|exact He]]].
        + unfold rating_marker. rewrite <- !app_assoc. reflexivity.
        + intros [H|[H|[H|H]]]; [congruence|discriminate|discriminate|].
          exact (Ha H).
      - intros pre' v' ending' [E _]. apply (Hfirst pre' (v' ++ ending')).
        exact E. }
    apply search_labelled_first in Hlab as [m [Hm Hcap]].
    intros d. unfold Visualize.parse_file.
    change Visualize.RATING_RE with (LABELLED Visualize.RATING_LABEL).
    rewrite Hm. unfold group. rewrite Hcap.
    destruct (search (Visualize.DATE_RE isdecimal) _); [|discriminate].
    destruct (search Visualize.MODEL_RE _); [|discriminate].
    destruct (strptime _); [|discriminate].
    intros H. injection H as <-.
    cbn [Visualize.success Visualize.rating].
    match goal with
    | |- context [strip ?x] =>
        assert (Hstrip : exists w, strip x = g :: 42%N :: 42%N :: w)
    end.
    { unfold strip. cbn [lstrip]. rewrite Hspace.
      exact (@rstrip_keeps_prefix [g; 42%N] 42%N a eq_refl). }
    destruct Hstrip as [w Hw]. rewrite Hw.
    split; [|now exists w].
    unfold mem. cbn [existsb str_eqb]. now rewrite !andb_false_r.
Qed.

End VisualizeRating.

(** A document with the three lines both scripts look for. *)
Lemma bolded_rating_is_no_success_witness :
  rating (parse_content (u "001") (u "- 日付: 2025-01-02
- モデル: A
**評価: ◎**
")) = Some [EXCEEDED] /\
  exists d,
    Visualize.parse_file (fun s => Some s) digit (u "- 日付: 2025-01-02
- モデル: A
**評価: ◎**
") = Visualize.Append d /\
    Visualize.model d = u "A" /\
    Visualize.success d = false.
Proof.
  assert (Hc : u "- 日付: 2025-01-02
- モデル: A
**評価: ◎**
" = u "- 日付: 2025-01-02
- モデル: A
" ++ rating_marker EXCEEDED ++ u "
") by (vm_compute; reflexivity).
  assert (Hf : first_occurrence Visualize.RATING_LABEL
                 (u "- 日付: 2025-01-02
- モデル: A
**評価: ◎**
") (u "- 日付: 2025-01-02
- モデル: A
" ++ u "**")).
  { assert (E1 : u "- 日付: 2025-01-02
- モデル: A
**" ++ Visualize.RATING_LABEL ++ u "◎**
" = u "- 日付: 2025-01-02
- モデル: A
**評価: ◎**
") by (vm_compute; reflexivity).
    assert (E2 : u "- 日付: 2025-01-02
- モデル: A
**" = u "- 日付: 2025-01-02
- モデル: A
" ++ u "**") by (vm_compute; reflexivity).
    rewrite <- E1, <- E2. apply no_earlier_occurrence. vm_compute. reflexivity. }
  assert (Hd : Visualize.parse_file (fun s => Some s) digit (u "- 日付: 2025-01-02
- モデル: A
**評価: ◎**
") = Visualize.Append
       (Visualize.mkEntry (u "2025-01-02") (u "A") (u "◎**") false))
    by (vm_compute; reflexivity).
  destruct (@bolded_rating_is_no_success str (fun s => Some s) digit (u "001")
              _ _ _ EXCEEDED eq_refl Hc Hf) as [H1 H2].
  split; [exact H1|]. eexists. split; [exact Hd|].
  split; [vm_compute; reflexivity|].
  exact (proj1 (H2 _ Hd)).
Defined.

(** ** The two charts on three records *)

(** Success, failure, success: the running percentages are 100, 50 and
    200/3, with exact arithmetic for the floats. *)
Lemma cumulative_success_series_witness :
  exists series,
    Visualize.plot_timeline (fun q => q)
      [Visualize.mkEntry (u "2025-01-01") (u "A") [EXCEEDED] true;
       Visualize.mkEntry (u "2025-01-02") (u "B") [FAILED] false;
       Visualize.mkEntry (u "2025-01-03") (u "A") [MET] true] =
      Ok ([u "2025-01-01"; u "2025-01-02"; u "2025-01-03"], series) /\
    Forall2 Qeq series [inject_Z 100; inject_Z 50; 200 # 3].
Proof.
  destruct (@cumulative_success_series str (fun q => q)
              (fun x y H => H) (Qeq_refl _) (Qeq_refl _) (Qeq_refl _)
              [Visualize.mkEntry (u "2025-01-01") (u "A") [EXCEEDED] true;
               Visualize.mkEntry (u "2025-01-02") (u "B") [FAILED] false;
               Visualize.mkEntry (u "2025-01-03") (u "A") [MET] true])
    as [series [Hp [Hs _]]].
  exists series. split; [exact Hp|]. rewrite Hs.
  repeat constructor.
Defined.

(** Model A has two records, one of them a success; model B has one record
    and gets no bar. *)
Lemma model_comparison_bars_witness :
  exists rates,
    Visualize.plot_model_comparison (fun q => q)
      [Visualize.mkEntry (u "2025-01-01") (u "B") [EXCEEDED] true;
       Visualize.mkEntry (u "2025-01-02") (u "A") [FAILED] false;
       Visualize.mkEntry (u "2025-01-03") (u "A") [MET] true] =
      Ok ([u "A"], rates) /\
    Forall2 Qeq rates [inject_Z 50].
Proof.
  destruct (@model_comparison_bars str (fun q => q)
              (fun x y H => H) (Qeq_refl _) (Qeq_refl _) (Qeq_refl _)
              [Visualize.mkEntry (u "2025-01-01") (u "B") [EXCEEDED] true;
               Visualize.mkEntry (u "2025-01-02") (u "A") [FAILED] false;
               Visualize.mkEntry (u "2025-01-03") (u "A") [MET] true])
    as [names [rates [Hp [Hn [_ [_ [Hr _]]]]]]].
  assert (En : names = [u "A"]).
  { vm_compute in Hp. injection Hp as <- _. reflexivity. }
  subst names. exists rates. split; [exact Hp|]. rewrite Hr.
  repeat constructor.
Defined.
